(** * WhisperRecorder: the C wrapper around the whisper engine

    A shallow embedding of [Sources/CWhisper/whisper_wrapper.c]: the WAV
    decoder [read_wav_file], the handle life cycle and the two transcription
    entry points, over an explicit heap, an allocator that may refuse a
    request, a read-only file system and an abstract inference engine.

    Conventions.
    - Pointers are [option addr]; [None] is the null pointer.  Addresses are
      handed out in increasing order and never reused.
    - A call either completes with a value and a new [world], or leaves the
      defined behaviour of C ([Undef]): writing past the end of a buffer,
      releasing or dereferencing a dead pointer, signed overflow.
    - [int] and [short] are 32 and 16 bits wide, two's complement, and the
      target is little-endian.  The reads of the WAV header through
      [int *] and [short *] and the shifts of the 24-bit branch are given
      this meaning (loads of little-endian fields, wrap-around at 32 bits);
      ISO C leaves both open, and [Undef] does not cover them.
    - [float] is IEEE-754 single precision, every operation rounded to
      nearest even.
    - Diagnostics written to stderr are not part of the model. *)

From Stdlib Require Import ZArith List String Ascii Strings.Byte QArith Qpower Lia Lqa SpecFloat.
From stdpp Require Import base option list gmap strings.

Open Scope Z_scope.

(** ** Machine integers and bytes *)

Definition byte_val (b : byte) : Z := Z.of_N (Byte.to_N b).

#[global] Instance byte_eq_decision : EqDecision byte := Byte.byte_eq_dec.

(** The value of a [bits]-wide two's complement pattern. *)
Definition wrap (bits z : Z) : Z :=
  (z + 2 ^ (bits - 1)) mod 2 ^ bits - 2 ^ (bits - 1).

Definition INT_MAX : Z := 2147483647.
Definition INT_MIN : Z := -2147483648.

Definition in_int (z : Z) : bool := (INT_MIN <=? z) && (z <=? INT_MAX).

(** [buf[k]] for [unsigned char *buf]. *)
Definition load_uchar (buf : list byte) (k : nat) : option Z :=
  byte_val <$> buf !! k.

(** [*(short * )(buf + off)]. *)
Definition load_short (buf : list byte) (off : nat) : option Z :=
  b0 ← buf !! off;
  b1 ← buf !! S off;
  Some (wrap 16 (Z.lor (byte_val b0) (Z.shiftl (byte_val b1) 8))).

(** The 32-bit pattern stored at [buf + off]. *)
Definition load_word (buf : list byte) (off : nat) : option Z :=
  b0 ← buf !! off;
  b1 ← buf !! S off;
  b2 ← buf !! S (S off);
  b3 ← buf !! S (S (S off));
  Some (Z.lor (Z.lor (byte_val b0) (Z.shiftl (byte_val b1) 8))
              (Z.lor (Z.shiftl (byte_val b2) 16) (Z.shiftl (byte_val b3) 24))).

(** [*(int * )(buf + off)]. *)
Definition load_int (buf : list byte) (off : nat) : option Z :=
  wrap 32 <$> load_word buf off.

(** The 24-bit branch of the decoder:
    [(b0 << 8) | (b1 << 16) | (b2 << 24)] on operands promoted to [int].
    The last shift reaches the sign bit; the result is the two's complement
    value of the pattern. *)
Definition sample24 (b0 b1 b2 : Z) : Z :=
  wrap 32 (Z.lor (Z.lor (Z.shiftl b0 8) (Z.shiftl b1 16)) (Z.shiftl b2 24)).

(** The usual reading of three little-endian bytes as a signed 24-bit
    sample, for comparison with [sample24]. *)
Definition standard24 (b0 b1 b2 : Z) : Z :=
  wrap 24 (Z.lor (Z.lor b0 (Z.shiftl b1 8)) (Z.shiftl b2 16)).

(** ** Single-precision arithmetic

    The decoder only converts integers to [float], reinterprets 32-bit
    patterns, adds, subtracts and divides.  The code is embedded over this
    interface.  [binary32_ops] is the arithmetic of the code: IEEE-754
    single precision with rounding to nearest even.  [exact_ops] is
    arithmetic on the rationals, where nothing is rounded: it tells what a
    formula of the code means as a number and is not what the code
    computes. *)

Record float_ops (F : Type) : Type := {
  f_of_Z : Z → F;
  f_of_bits : Z → F;
  f_add : F → F → F;
  f_sub : F → F → F;
  f_div : F → F → F
}.
Arguments f_of_Z {F} _ _.
Arguments f_of_bits {F} _ _.
Arguments f_add {F} _ _ _.
Arguments f_sub {F} _ _ _.
Arguments f_div {F} _ _ _.

Definition b32_of_Z (z : Z) : spec_float := binary_normalize 24 128 z 0 false.

Definition b32_of_bits (w : Z) : spec_float :=
  let s := Z.testbit w 31 in
  let e := Z.land (Z.shiftr w 23) 255 in
  let m := Z.land w (2 ^ 23 - 1) in
  if e =? 255 then (if m =? 0 then S754_infinity s else S754_nan)
  else if e =? 0 then
    match m with Zpos p => S754_finite s p (-149) | _ => S754_zero s end
  else
    match m + 2 ^ 23 with Zpos p => S754_finite s p (e - 150) | _ => S754_nan end.

Definition binary32_ops : float_ops spec_float := {|
  f_of_Z := b32_of_Z;
  f_of_bits := b32_of_bits;
  f_add := SFadd 24 128;
  f_sub := SFsub 24 128;
  f_div := SFdiv 24 128
|}.

(** [m * 2^e] *)
Definition dyadic (m e : Z) : Q := (inject_Z m * 2 ^ e)%Q.

(** The number a single stands for; infinities and NaN stand for none. *)
Definition b32_real (x : spec_float) : option Q :=
  match x with
  | S754_zero _ => Some 0%Q
  | S754_finite s m e => Some (dyadic (cond_Zopp s (Zpos m)) e)
  | S754_infinity _ | S754_nan => None
  end.

(** Numbers a single holds exactly: [N * 2^E] with at most 24 bits in [N]
    and [E] from the least exponent, -149, up to 103 (so up to [2^127]). *)
Definition b32_rep (q : Q) : Prop :=
  ∃ N E, - 2 ^ 24 ≤ N ≤ 2 ^ 24 ∧ -149 ≤ E ≤ 103 ∧ (q == dyadic N E)%Q.

(** [x] is a rounding of the number [v]: it lies between any two
    representable numbers that enclose [v]. *)
Definition rounds_to (v : Q) (x : spec_float) : Prop :=
  ∀ lo hi, b32_rep lo → b32_rep hi → (lo <= v <= hi)%Q →
    ∃ q, b32_real x = Some q ∧ (lo <= q <= hi)%Q.

(** A sample that stands for a number between -1 and 1. *)
Definition b32_unit (x : spec_float) : Prop :=
  ∃ q, b32_real x = Some q ∧ (-1 <= q <= 1)%Q.

(** Arithmetic without rounding.  Only finite patterns have a rational
    value; on the others [f_of_bits] is 0, a value without meaning.  The
    statements that name [exact_ops] are about 8-bit samples and about
    sample runs on 16-bit files. *)
Definition exact_ops : float_ops Q := {|
  f_of_Z := inject_Z;
  f_of_bits := fun w => default 0%Q (b32_real (b32_of_bits w));
  f_add := Qplus;
  f_sub := Qminus;
  f_div := Qdiv
|}.

(** *** The two flags of a mantissa shifted to the right *)

Definition inexact (mrs : shr_record) : bool := shr_r mrs || shr_s mrs.

(** [mrs] stands, at scale [2^k], for the number [num / den]: its mantissa
    is the integer part and its two flags tell whether anything is left. *)
Definition approx (mrs : shr_record) (k num den : Z) : Prop :=
  0 ≤ shr_m mrs
  ∧ 2 ^ k * den * shr_m mrs ≤ num < 2 ^ k * den * (shr_m mrs + 1)
  ∧ (inexact mrs = false → num = 2 ^ k * den * shr_m mrs)
  ∧ (inexact mrs = true → 2 ^ k * den * shr_m mrs < num).

(** ** The engine interface (whisper.h) *)

(** Heap addresses and engine context handles. *)
Abbreviation addr := positive (only parsing).
Abbreviation ctx_id := positive (only parsing).

Inductive whisper_sampling_strategy : Type :=
| WHISPER_SAMPLING_GREEDY
| WHISPER_SAMPLING_BEAM_SEARCH.

(** The fields of [struct whisper_full_params] that the wrapper reads or
    writes. *)
Record whisper_full_params : Type := {
  strategy : whisper_sampling_strategy;
  n_threads : Z;
  offset_ms : Z;
  duration_ms : Z;
  translate : bool;
  no_context : bool;
  single_segment : bool;
  print_special : bool;
  print_progress : bool;
  print_realtime : bool;
  print_timestamps : bool;
  max_len : Z;
  split_on_word : bool;
  max_tokens : Z;
  language : string
}.

(** The operations of the inference library the wrapper calls.  [E] is the
    state of the library, [CP] its [struct whisper_context_params]. *)
Record whisper_engine (F E CP : Type) : Type := {
  whisper_context_default_params : CP;
  whisper_init_from_file_with_params : string → CP → E → option ctx_id * E;
  whisper_free : ctx_id → E → E;
  whisper_full_default_params : whisper_sampling_strategy → whisper_full_params;
  whisper_full : ctx_id → whisper_full_params → list F → Z → E → Z * E;
  whisper_full_n_segments : ctx_id → E → Z;
  whisper_full_get_segment_text : ctx_id → Z → E → string
}.
Arguments whisper_context_default_params {F E CP} _.
Arguments whisper_init_from_file_with_params {F E CP} _ _ _ _.
Arguments whisper_free {F E CP} _ _ _.
Arguments whisper_full_default_params {F E CP} _ _.
Arguments whisper_full {F E CP} _ _ _ _ _ _.
Arguments whisper_full_n_segments {F E CP} _ _ _.
Arguments whisper_full_get_segment_text {F E CP} _ _ _ _.

(** ** Observable events *)

Inductive event : Type :=
| EvFopen (path : string) (ok : bool)
| EvFread (want got : Z)
| EvFclose
| EvMalloc (size : Z) (p : option addr)
| EvRealloc (old : addr) (size : Z) (p : option addr)
| EvStrdup (s : string) (p : option addr)
| EvFree (p : addr)
| EvInit (model_path : string) (c : option ctx_id)
| EvWhisperFree (c : ctx_id)
| EvWhisperFull (c : ctx_id) (params : whisper_full_params) (n_samples status : Z)
| EvNSegments (c : ctx_id) (n : Z)
| EvSegmentText (c : ctx_id) (i : Z).

(** ** Undefined behaviour and results *)

Inductive ub : Type :=
| BadPointer
| BadFree
| OutOfBounds
| IntOverflow.

Inductive outcome (W A : Type) : Type :=
| Ok (a : A) (w : W)
| Undef (why : ub).
Arguments Ok {W A} _ _.
Arguments Undef {W A} _.

(** A [const char *] handed back to the caller: null, a string literal in
    static storage, or a pointer into the heap. *)
Inductive cptr : Type :=
| CNull
| CLit (s : string)
| CHeap (p : addr).

Definition cptr_of (p : option addr) : cptr :=
  match p with Some a => CHeap a | None => CNull end.

(** The sentinel texts of the wrapper. *)
Definition msg_invalid : string := "Error: Invalid parameters".
Definition msg_load : string := "Error: Failed to load audio file".
Definition msg_process : string := "Error: Failed to process audio with whisper".
Definition msg_no_speech : string := "No speech detected".
Definition msg_alloc : string := "Error: Failed to allocate memory for transcription".

(** The out-parameters of [read_wav_file]: [*pcm], [*samples],
    [*sample_rate]. *)
Record wav_out : Type := {
  o_pcm : option addr;
  o_samples : Z;
  o_rate : Z
}.

Definition tag_RIFF : list byte := [x52; x49; x46; x46].
Definition tag_WAVE : list byte := [x57; x41; x56; x45].

(** [memcmp(p, tag, 4) == 0] *)
Definition tag_at (buf : list byte) (off : nat) (tag : list byte) : bool :=
  bool_decide (take 4 (drop off buf) = tag).

(** [setup_params] *)
Definition setup_params (params : whisper_full_params)
    (use_language_detection : bool) : whisper_full_params := {|
  strategy := strategy params;
  n_threads := 4;
  offset_ms := 0;
  duration_ms := 0;
  translate := false;
  no_context := no_context params;
  single_segment := single_segment params;
  print_special := false;
  print_progress := false;
  print_realtime := false;
  print_timestamps := false;
  max_len := 0;
  split_on_word := true;
  max_tokens := 0;
  language := if use_language_detection then "auto" else "en"
|}.

(** [params.no_context = true; params.single_segment = true;] *)
Definition set_streaming (params : whisper_full_params) : whisper_full_params := {|
  strategy := strategy params;
  n_threads := n_threads params;
  offset_ms := offset_ms params;
  duration_ms := duration_ms params;
  translate := translate params;
  no_context := true;
  single_segment := true;
  print_special := print_special params;
  print_progress := print_progress params;
  print_realtime := print_realtime params;
  print_timestamps := print_timestamps params;
  max_len := max_len params;
  split_on_word := split_on_word params;
  max_tokens := max_tokens params;
  language := language params
|}.

(** ** Computations over a world *)

Definition M (W A : Type) : Type := W → outcome W A.

#[global] Instance M_ret {W} : MRet (M W) := λ A a w, Ok a w.

#[global] Instance M_bind {W} : MBind (M W) := λ A B k m w,
  match m w with
  | Ok a w' => k a w'
  | Undef why => Undef why
  end.

Definition undefined {W A} (why : ub) : M W A := λ _, Undef why.

(** The allocator's decision on the next request; it grants every request
    once its script is used up. *)
Definition next_grant (g : list bool) : bool * list bool :=
  match g with
  | [] => (true, [])
  | b :: g' => (b, g')
  end.

Section Model.
Context {F E CP : Type}.
Variable fo : float_ops F.
Variable eng : whisper_engine F E CP.

(** *** Memory *)

(** What a live allocation holds.  [BRaw] is storage as [malloc] returns
    it; [BWrapper] is a [struct whisper_wrapper]; [BChars] a character
    array of [cap] bytes holding a NUL-terminated text. *)
Inductive block : Type :=
| BRaw (size : Z)
| BWrapper (ctx : option ctx_id) (result_buffer : option addr)
| BChars (cap : Z) (text : string)
| BFloats (data : list F)
| BBytes (data : list byte).

Record world : Type := {
  heap : gmap addr block;
  brk : addr;
  grants : list bool;
  fs : string → option (list byte);
  engine_state : E;
  trace : list event
}.

Definition set_heap (h : gmap addr block) (w : world) : world :=
  {| heap := h; brk := brk w; grants := grants w; fs := fs w;
     engine_state := engine_state w; trace := trace w |}.

Definition set_engine (e : E) (w : world) : world :=
  {| heap := heap w; brk := brk w; grants := grants w; fs := fs w;
     engine_state := e; trace := trace w |}.

Definition emit (e : event) : M world unit := λ w,
  Ok tt {| heap := heap w; brk := brk w; grants := grants w; fs := fs w;
           engine_state := engine_state w; trace := trace w ++ [e] |}.

(** A request for storage that will hold [b]. *)
Definition allocate (b : block) : M world (option addr) := λ w,
  let '(ok, g) := next_grant (grants w) in
  if ok : bool then
    Ok (Some (brk w))
       {| heap := <[brk w := b]> (heap w); brk := Pos.succ (brk w); grants := g;
          fs := fs w; engine_state := engine_state w; trace := trace w |}
  else
    Ok None
       {| heap := heap w; brk := brk w; grants := g; fs := fs w;
          engine_state := engine_state w; trace := trace w |}.

Definition malloc (size : Z) : M world (option addr) :=
  p ← allocate (BRaw size);
  emit (EvMalloc size p);;
  mret p.

Definition strdup (s : string) : M world (option addr) :=
  p ← allocate (BChars (Z.of_nat (String.length s) + 1) s);
  emit (EvStrdup s p);;
  mret p.

Definition free (p : addr) : M world unit := λ w,
  match heap w !! p with
  | Some _ => emit (EvFree p) (set_heap (delete p (heap w)) w)
  | None => Undef BadFree
  end.

(** [realloc] of a character array: on success the text moves to a new
    block of [size] bytes and the old block is released; on failure the old
    block is left as it is. *)
Definition realloc (p : addr) (size : Z) : M world (option addr) := λ w,
  match heap w !! p with
  | Some (BChars cap text) =>
      (q ← allocate (if Z.of_nat (String.length text) + 1 <=? size
                     then BChars size text else BRaw size);
       match q with
       | Some _ => λ w', Ok tt (set_heap (delete p (heap w')) w')
       | None => mret tt
       end;;
       emit (EvRealloc p size q);;
       mret q) w
  | _ => Undef BadPointer
  end.

Definition load_wrapper (p : addr) : M world (option ctx_id * option addr) := λ w,
  match heap w !! p with
  | Some (BWrapper c rb) => Ok (c, rb) w
  | _ => Undef BadPointer
  end.

(** [wrapper->ctx = c; wrapper->result_buffer = rb;] on fresh storage *)
Definition init_wrapper (p : addr) (c : option ctx_id) (rb : option addr)
    : M world unit := λ w,
  match heap w !! p with
  | Some (BRaw _) => Ok tt (set_heap (<[p := BWrapper c rb]> (heap w)) w)
  | _ => Undef BadPointer
  end.

(** [wrapper->result_buffer = rb;] *)
Definition store_result_buffer (p : addr) (rb : option addr) : M world unit := λ w,
  match heap w !! p with
  | Some (BWrapper c _) => Ok tt (set_heap (<[p := BWrapper c rb]> (heap w)) w)
  | _ => Undef BadPointer
  end.

(** [p[0] = '\0';] on fresh storage *)
Definition store_nul (p : addr) : M world unit := λ w,
  match heap w !! p with
  | Some (BRaw size) =>
      if 1 <=? size then Ok tt (set_heap (<[p := BChars size ""]> (heap w)) w)
      else Undef OutOfBounds
  | _ => Undef BadPointer
  end.

Definition strlen (p : addr) : M world Z := λ w,
  match heap w !! p with
  | Some (BChars _ text) => Ok (Z.of_nat (String.length text)) w
  | _ => Undef BadPointer
  end.

Definition strcat (p : addr) (src : string) : M world unit := λ w,
  match heap w !! p with
  | Some (BChars cap text) =>
      if Z.of_nat (String.length text) + Z.of_nat (String.length src) + 1 <=? cap
      then Ok tt (set_heap (<[p := BChars cap (text +:+ src)]> (heap w)) w)
      else Undef OutOfBounds
  | _ => Undef BadPointer
  end.

(** Filling a fresh array. *)
Definition store_block (p : addr) (b : block) : M world unit := λ w,
  match heap w !! p with
  | Some (BRaw _) => Ok tt (set_heap (<[p := b]> (heap w)) w)
  | _ => Undef BadPointer
  end.

Definition load_floats (p : option addr) : M world (list F) := λ w,
  match p with
  | Some a =>
      match heap w !! a with
      | Some (BFloats data) => Ok data w
      | _ => Undef BadPointer
      end
  | None => Undef BadPointer
  end.

(** Signed [int] arithmetic. *)
Definition int_add (a b : Z) : M world Z :=
  if in_int (a + b) then mret (a + b) else undefined IntOverflow.

Definition int_mul (a b : Z) : M world Z :=
  if in_int (a * b) then mret (a * b) else undefined IntOverflow.

(** *** Files

    An open [FILE *] is the list of bytes not yet read. *)

Definition fopen (path : string) : M world (option (list byte)) := λ w,
  (emit (EvFopen path (bool_decide (is_Some (fs w path))));; mret (fs w path)) w.

(** [fread(buf, 1, n, fp)]: the bytes obtained and the rest of the stream. *)
Definition fread (n : Z) (fp : list byte) : M world (list byte * list byte) :=
  let got := take (Z.to_nat n) fp in
  emit (EvFread n (Z.of_nat (length got)));;
  mret (got, drop (Z.to_nat n) fp).

Definition fclose : M world unit := emit EvFclose.

(** *** Calls into the engine *)

Definition call_init (model_path : string) (params : CP) : M world (option ctx_id) := λ w,
  let '(c, e) := whisper_init_from_file_with_params eng model_path params (engine_state w) in
  (emit (EvInit model_path c);; mret c) (set_engine e w).

Definition call_free (c : ctx_id) : M world unit := λ w,
  emit (EvWhisperFree c) (set_engine (whisper_free eng c (engine_state w)) w).

Definition call_full (c : ctx_id) (params : whisper_full_params)
    (pcm : list F) (n_samples : Z) : M world Z := λ w,
  let '(status, e) := whisper_full eng c params pcm n_samples (engine_state w) in
  (emit (EvWhisperFull c params n_samples status);; mret status) (set_engine e w).

Definition call_n_segments (c : ctx_id) : M world Z := λ w,
  let n := whisper_full_n_segments eng c (engine_state w) in
  (emit (EvNSegments c n);; mret n) w.

Definition call_segment_text (c : ctx_id) (i : Z) : M world string := λ w,
  (emit (EvSegmentText c i);;
   mret (whisper_full_get_segment_text eng c i (engine_state w))) w.

(** *** Handle life cycle *)

(** [sizeof(whisper_wrapper_t)]: two pointers. *)
Definition sizeof_wrapper : Z := 16.

Definition whisper_wrapper_create (model_path : string) : M world (option addr) :=
  let params := whisper_context_default_params eng in
  wrapper ← malloc sizeof_wrapper;
  match wrapper with
  | None => mret None
  | Some p =>
      c ← call_init model_path params;
      init_wrapper p c None;;
      match c with
      | None => free p;; mret None
      | Some _ => mret (Some p)
      end
  end.

Definition whisper_wrapper_free (wrapper : option addr) : M world unit :=
  match wrapper with
  | None => mret tt
  | Some p =>
      '(c, rb) ← load_wrapper p;
      match c with Some c => call_free c | None => mret tt end;;
      match rb with Some b => free b | None => mret tt end;;
      free p
  end.

Definition whisper_wrapper_is_loaded (wrapper : option addr) : M world bool :=
  match wrapper with
  | None => mret false
  | Some p =>
      '(c, _) ← load_wrapper p;
      mret (bool_decide (c ≠ None))
  end.

(** *** The WAV decoder *)

(** One output sample: the channel values of a frame are added up in
    order, starting from [0.0f], and the sum is divided by the channel
    count. *)
Definition mix (xs : list F) (num_channels : Z) : F :=
  f_div fo (foldl (f_add fo) (f_of_Z fo 0) xs) (f_of_Z fo num_channels).

(** The two nested loops shared by the four bit depths; [sample k] is the
    [k]-th interleaved sample of the staging buffer as a [float], [None]
    when it lies outside the buffer. *)
Definition mix_frames (sample : Z → option F) (samples num_channels : Z)
    : option (list F) :=
  mapM (λ i, xs ← mapM (λ j, sample (i * num_channels + j)) (seqZ 0 num_channels);
             Some (mix xs num_channels))
       (seqZ 0 samples).

(** [buf[k] / 32768.0f] for [short *buf] *)
Definition sample_16 (data : list byte) (k : Z) : option F :=
  s ← load_short data (Z.to_nat (2 * k));
  Some (f_div fo (f_of_Z fo s) (f_of_Z fo 32768)).

(** [buf[k]] for [float *buf] *)
Definition sample_32 (data : list byte) (k : Z) : option F :=
  f_of_bits fo <$> load_word data (Z.to_nat (4 * k)).

(** [((float)buf[k] - 128.0f) / 128.0f] for [unsigned char *buf] *)
Definition sample_8 (data : list byte) (k : Z) : option F :=
  b ← load_uchar data (Z.to_nat k);
  Some (f_div fo (f_sub fo (f_of_Z fo b) (f_of_Z fo 128)) (f_of_Z fo 128)).

(** [(float)sample / 2147483648.0f] with [sample] put together from
    [buf[3k]], [buf[3k+1]], [buf[3k+2]] *)
Definition sample_24 (data : list byte) (k : Z) : option F :=
  b0 ← load_uchar data (Z.to_nat (3 * k));
  b1 ← load_uchar data (Z.to_nat (3 * k + 1));
  b2 ← load_uchar data (Z.to_nat (3 * k + 2));
  Some (f_div fo (f_of_Z fo (sample24 b0 b1 b2)) (f_of_Z fo 2147483648)).

Definition sample_of (bits_per_sample : Z) : list byte → Z → option F :=
  if bits_per_sample =? 16 then sample_16
  else if bits_per_sample =? 32 then sample_32
  else if bits_per_sample =? 8 then sample_8
  else sample_24.

Definition set_rate (r : Z) (o : wav_out) : wav_out :=
  {| o_pcm := o_pcm o; o_samples := o_samples o; o_rate := r |}.
Definition set_samples (n : Z) (o : wav_out) : wav_out :=
  {| o_pcm := o_pcm o; o_samples := n; o_rate := o_rate o |}.
Definition set_pcm (p : option addr) (o : wav_out) : wav_out :=
  {| o_pcm := p; o_samples := o_samples o; o_rate := o_rate o |}.

(** The part of [read_wav_file] after the header checks.  The four
    bit-depth branches allocate, fill and release the staging buffer with
    the same statements and differ in the conversion only. *)
Definition read_wav_data (fp : list byte) (bits_per_sample num_channels data_size : Z)
    (o : wav_out) : M world (bool * wav_out) :=
  let samples := (data_size `quot` (bits_per_sample `quot` 8)) `quot` num_channels in
  let o := set_samples samples o in
  if samples <=? 0 then fclose;; mret (false, o)
  else
    pcm ← malloc (samples * 4);
    let o := set_pcm pcm o in
    match pcm with
    | None => fclose;; mret (false, o)
    | Some pcm =>
        buf ← malloc data_size;
        match buf with
        | None => free pcm;; fclose;; mret (false, o)
        | Some buf =>
            '(data, fp) ← fread data_size fp;
            store_block buf (BBytes data);;
            if negb (Z.of_nat (length data) =? data_size) then
              free buf;; free pcm;; fclose;; mret (false, o)
            else
              match mix_frames (sample_of bits_per_sample data) samples num_channels with
              | None => undefined OutOfBounds
              | Some out =>
                  store_block pcm (BFloats out);;
                  free buf;;
                  fclose;;
                  mret (true, o)
              end
        end
    end.

Definition read_wav_file (filename : string) (o : wav_out) : M world (bool * wav_out) :=
  fp ← fopen filename;
  match fp with
  | None => mret (false, o)
  | Some fp =>
      '(header, fp) ← fread 44 fp;
      if negb (Z.of_nat (length header) =? 44) then fclose;; mret (false, o)
      else if negb (tag_at header 0 tag_RIFF) || negb (tag_at header 8 tag_WAVE)
      then fclose;; mret (false, o)
      else
        match load_int header 24, load_short header 22,
              load_short header 34, load_int header 40 with
        | Some sample_rate, Some num_channels, Some bits_per_sample, Some data_size =>
            let o := set_rate sample_rate o in
            if data_size <=? 0 then fclose;; mret (false, o)
            else if num_channels <=? 0 then fclose;; mret (false, o)
            else if negb (bits_per_sample =? 16) && negb (bits_per_sample =? 32)
                    && negb (bits_per_sample =? 8) && negb (bits_per_sample =? 24)
            then fclose;; mret (false, o)
            else read_wav_data fp bits_per_sample num_channels data_size o
        | _, _, _, _ => undefined OutOfBounds
        end
  end.

(** *** Transcription *)

(** [if (wrapper->result_buffer != NULL) { free(...); ... = NULL; }] *)
Definition release_result (wp : addr) (rb : option addr) : M world unit :=
  match rb with
  | Some b => free b;; store_result_buffer wp None
  | None => mret tt
  end.

(** [wrapper->result_buffer = strdup(msg); return wrapper->result_buffer;] *)
Definition return_copy (wp : addr) (msg : string) : M world cptr :=
  p ← strdup msg;
  store_result_buffer wp p;;
  mret (cptr_of p).

(** The loop over the segments; [todo] are the indices still to visit. *)
Fixpoint segments_loop (wp : addr) (c : ctx_id) (n_segments : Z) (todo : list Z)
    (buffer_size : Z) : M world cptr :=
  match todo with
  | [] =>
      '(_, rb) ← load_wrapper wp;
      mret (cptr_of rb)
  | i :: rest =>
      segment_text ← call_segment_text c i;
      '(_, rb) ← load_wrapper wp;
      match rb with
      | None => undefined BadPointer
      | Some b =>
          len ← strlen b;
          let current_length := wrap 32 len in
          let segment_length := wrap 32 (Z.of_nat (String.length segment_text)) in
          t ← int_add current_length segment_length;
          need ← int_add t 2;
          let append (b : addr) (buffer_size : Z) : M world cptr :=
            strcat b segment_text;;
            (if i <? n_segments - 1 then strcat b " " else mret tt);;
            segments_loop wp c n_segments rest buffer_size in
          if need >? buffer_size then
            buffer_size ← int_mul buffer_size 2;
            new_buffer ← realloc b buffer_size;
            match new_buffer with
            | None =>
                free b;;
                return_copy wp msg_alloc
            | Some nb =>
                store_result_buffer wp (Some nb);;
                append nb buffer_size
            end
          else append b buffer_size
      end
  end.

(** From [whisper_full_n_segments] to the end of either transcription
    function; the two carry the same statements. *)
Definition collect_segments (wp : addr) (c : ctx_id) : M world cptr :=
  n_segments ← call_n_segments c;
  if n_segments <=? 0 then return_copy wp msg_no_speech
  else
    let buffer_size := 1024 * 16 in
    p ← malloc buffer_size;
    store_result_buffer wp p;;
    match p with
    | None => mret (CLit msg_alloc)
    | Some b =>
        store_nul b;;
        segments_loop wp c n_segments (seqZ 0 n_segments) buffer_size
    end.

Definition whisper_wrapper_transcribe_with_lang (wrapper : option addr)
    (audio_path : option string) (use_language_detection : bool) : M world cptr :=
  match wrapper with
  | None => mret (CLit msg_invalid)
  | Some wp =>
      '(ctx, rb) ← load_wrapper wp;
      match ctx, audio_path with
      | Some c, Some audio_path =>
          release_result wp rb;;
          '(ok, o) ← read_wav_file audio_path {| o_pcm := None; o_samples := 0; o_rate := 0 |};
          if negb ok then return_copy wp msg_load
          else
            let params :=
              setup_params (whisper_full_default_params eng WHISPER_SAMPLING_GREEDY)
                           use_language_detection in
            pcm ← load_floats (o_pcm o);
            status ← call_full c params pcm (o_samples o);
            match o_pcm o with
            | None => undefined BadPointer
            | Some a =>
                if negb (status =? 0) then
                  free a;;
                  return_copy wp msg_process
                else
                  free a;;
                  collect_segments wp c
            end
      | _, _ => mret (CLit msg_invalid)
      end
  end.

Definition whisper_wrapper_transcribe (wrapper : option addr)
    (audio_path : option string) : M world cptr :=
  whisper_wrapper_transcribe_with_lang wrapper audio_path true.

Definition whisper_wrapper_transcribe_pcm_with_lang (wrapper : option addr)
    (pcm_data : option (list F)) (n_samples : Z) (use_language_detection : bool)
    : M world cptr :=
  match wrapper with
  | None => mret (CLit msg_invalid)
  | Some wp =>
      '(ctx, rb) ← load_wrapper wp;
      match ctx, pcm_data with
      | Some c, Some pcm =>
          if n_samples <=? 0 then mret (CLit msg_invalid)
          else
            release_result wp rb;;
            let params :=
              set_streaming
                (setup_params (whisper_full_default_params eng WHISPER_SAMPLING_GREEDY)
                              use_language_detection) in
            status ← call_full c params pcm n_samples;
            if negb (status =? 0) then return_copy wp msg_process
            else collect_segments wp c
      | _, _ => mret (CLit msg_invalid)
      end
  end.

Definition whisper_wrapper_transcribe_pcm (wrapper : option addr)
    (pcm_data : option (list F)) (n_samples : Z) : M world cptr :=
  whisper_wrapper_transcribe_pcm_with_lang wrapper pcm_data n_samples true.

(** The text a returned pointer designates. *)
Definition text_at (w : world) (p : cptr) : option string :=
  match p with
  | CNull => None
  | CLit s => Some s
  | CHeap a =>
      match heap w !! a with
      | Some (BChars _ text) => Some text
      | _ => None
      end
  end.

End Model.

(** ** A scripted engine

    A stand-in for the inference library: loading succeeds for every
    non-empty model path, and [whisper_full] returns the status and
    installs the segments its state was scripted with. *)

Record stub_state : Type := {
  stub_status : Z;
  stub_script : list string;
  stub_segments : list string
}.

Definition stub_params (s : whisper_sampling_strategy) : whisper_full_params := {|
  strategy := s;
  n_threads := 2;
  offset_ms := 0;
  duration_ms := 0;
  translate := false;
  no_context := false;
  single_segment := false;
  print_special := false;
  print_progress := true;
  print_realtime := false;
  print_timestamps := true;
  max_len := 0;
  split_on_word := false;
  max_tokens := 0;
  language := "en"
|}.

Definition stub_engine (F : Type) : whisper_engine F stub_state unit := {|
  whisper_context_default_params := tt;
  whisper_init_from_file_with_params := λ path _ e,
    (if String.eqb path "" then None else Some 1%positive, e);
  whisper_free := λ _ e, e;
  whisper_full_default_params := stub_params;
  whisper_full := λ _ _ _ _ e,
    (stub_status e,
     {| stub_status := stub_status e; stub_script := stub_script e;
        stub_segments := if stub_status e =? 0 then stub_script e else [] |});
  whisper_full_n_segments := λ _ e, Z.of_nat (length (stub_segments e));
  whisper_full_get_segment_text := λ _ i e, default "" (stub_segments e !! Z.to_nat i)
|}.

(** A world with an empty heap. *)
Definition boot {F : Type} (g : list bool) (files : string → option (list byte))
    (status : Z) (script : list string) : @world F stub_state := {|
  heap := ∅;
  brk := 1%positive;
  grants := g;
  fs := files;
  engine_state := {| stub_status := status; stub_script := script; stub_segments := [] |};
  trace := []
|}.

Definition no_files : string → option (list byte) := λ _, None.

(** The value and the final world of a completed computation. *)
Definition value_of {W A} (r : outcome W A) : option A :=
  match r with Ok a _ => Some a | Undef _ => None end.

Definition world_of {W A} (r : outcome W A) : option W :=
  match r with Ok _ w => Some w | Undef _ => None end.

(** The text a computation returns, read in its final world. *)
Definition returned_text {F E} (r : outcome (@world F E) cptr) : option string :=
  match r with Ok p w => text_at w p | Undef _ => None end.

(** Text of [n] copies of a character. *)
Fixpoint string_repeat (c : ascii) (n : nat) : string :=
  match n with
  | O => EmptyString
  | S n => String c (string_repeat c n)
  end.

(** ** Building WAV files *)

Definition byte_of (z : Z) : byte :=
  default x00 (Byte.of_N (Z.to_N (z mod 256))).

(** [n] little-endian bytes of [z]. *)
Fixpoint le_bytes (n : nat) (z : Z) : list byte :=
  match n with
  | O => []
  | S n => byte_of z :: le_bytes n (z `div` 256)
  end.

(** The canonical 44-byte header followed by the sample data. *)
Definition wav_file (num_channels sample_rate bits_per_sample data_size : Z)
    (data : list byte) : list byte :=
  tag_RIFF ++ le_bytes 4 (36 + data_size) ++ tag_WAVE
  ++ [x66; x6d; x74; x20] ++ le_bytes 4 16 ++ le_bytes 2 1
  ++ le_bytes 2 num_channels ++ le_bytes 4 sample_rate
  ++ le_bytes 4 (sample_rate * num_channels * (bits_per_sample `div` 8))
  ++ le_bytes 2 (num_channels * (bits_per_sample `div` 8))
  ++ le_bytes 2 bits_per_sample
  ++ [x64; x61; x74; x61] ++ le_bytes 4 data_size
  ++ data.

(** A file system holding one file. *)
Definition one_file (name : string) (content : list byte) : string → option (list byte) :=
  λ p, if String.eqb p name then Some content else None.

(** The samples [read_wav_file] leaves in [*pcm], when it succeeds. *)
Definition decoded {F E} (r : outcome (@world F E) (bool * wav_out)) : option (list F) :=
  match r with
  | Ok (true, o) w =>
      match o_pcm o with
      | Some a =>
          match heap w !! a with
          | Some (BFloats data) => Some data
          | _ => None
          end
      | None => None
      end
  | _ => None
  end.

Definition wav_out0 : wav_out := {| o_pcm := None; o_samples := 0; o_rate := 0 |}.

(** ** Observations on worlds *)

Section Observations.
Context {F E : Type}.
Variable fo : float_ops F.

(** Every live address lies below the allocation frontier. *)
Definition heap_wf (w : @world F E) : Prop :=
  ∀ a, is_Some (heap w !! a) → (a < brk w)%positive.

(** The fields of the handle a pointer designates. *)
Definition handle_at (w : @world F E) (wrapper : option addr)
    : option (option ctx_id * option addr) :=
  p ← wrapper;
  match heap w !! p with
  | Some (BWrapper c rb) => Some (c, rb)
  | _ => None
  end.

(** A pointer a caller may pass as handle: null, or a live handle. *)
Definition valid_handle (w : @world F E) (wrapper : option addr) : Prop :=
  wrapper = None ∨ is_Some (handle_at w wrapper).

Definition handle_ctx (w : @world F E) (wrapper : option addr) : option ctx_id :=
  handle_at w wrapper ≫= fst.

Definition handle_result (w : @world F E) (wrapper : option addr) : option addr :=
  handle_at w wrapper ≫= snd.

(** The handle at [wp] is loaded with context [c]; its result buffer is
    null or a live character array. *)
Definition loaded_handle (w : @world F E) (wp : addr) (c : ctx_id)
    (rb : option addr) : Prop :=
  heap w !! wp = Some (BWrapper (Some c) rb)
  ∧ ∀ b, rb = Some b → ∃ cap text, heap w !! b = Some (BChars cap text).

(** The allocator grants its next [n] requests. *)
Definition granted (n : nat) (g : list bool) : bool :=
  forallb id (take n g).

(** Two worlds that differ in their traces only. *)
Definition same_state (w w' : @world F E) : Prop :=
  heap w' = heap w ∧ brk w' = brk w ∧ grants w' = grants w
  ∧ fs w' = fs w ∧ engine_state w' = engine_state w.

(** The decoder as a function of the file's bytes: samples, sample count
    and sample rate of a file [read_wav_file] accepts. *)
Definition wav_decode (bytes : list byte) : option (list F * Z * Z) :=
  let header := take 44 bytes in
  if bool_decide (length header = 44%nat)
     && tag_at header 0 tag_RIFF && tag_at header 8 tag_WAVE
  then
    sample_rate ← load_int header 24;
    num_channels ← load_short header 22;
    bits_per_sample ← load_short header 34;
    data_size ← load_int header 40;
    let samples := (data_size `quot` (bits_per_sample `quot` 8)) `quot` num_channels in
    let data := take (Z.to_nat data_size) (drop 44 bytes) in
    if (0 <? data_size) && (0 <? num_channels)
       && bool_decide (bits_per_sample ∈ [8; 16; 24; 32])
       && (0 <? samples) && (Z.of_nat (length data) =? data_size)
    then
      out ← mix_frames fo (sample_of fo bits_per_sample data) samples num_channels;
      Some (out, samples, sample_rate)
    else None
  else None.

(** The [C] interleaved 16-bit samples of frame [i]. *)
Definition frame_16 (data : list byte) (num_channels i : Z) : option (list Z) :=
  mapM (λ j, load_short data (Z.to_nat (2 * (i * num_channels + j))))
       (seqZ 0 num_channels).

(** The byte triples of the [C] interleaved 24-bit samples of frame [i]. *)
Definition frame_24 (data : list byte) (num_channels i : Z) : option (list (Z * Z * Z)) :=
  mapM (λ j, let k := i * num_channels + j in
             b0 ← load_uchar data (Z.to_nat (3 * k));
             b1 ← load_uchar data (Z.to_nat (3 * k + 1));
             b2 ← load_uchar data (Z.to_nat (3 * k + 2));
             Some (b0, b1, b2))
       (seqZ 0 num_channels).

(** [s / 32768.0f] *)
Definition scale_16 (s : Z) : F := f_div fo (f_of_Z fo s) (f_of_Z fo 32768).

(** [(float)sample / 2147483648.0f] for the three bytes of a sample *)
Definition scale_24 (b : Z * Z * Z) : F :=
  f_div fo (f_of_Z fo (sample24 b.1.1 b.1.2 b.2)) (f_of_Z fo 2147483648).

(** The [C] interleaved 8-bit samples of frame [i]. *)
Definition frame_8 (data : list byte) (num_channels i : Z) : option (list Z) :=
  mapM (λ j, load_uchar data (Z.to_nat (i * num_channels + j))) (seqZ 0 num_channels).


(** [((float)b - 128.0f) / 128.0f] *)
Definition scale_8 (b : Z) : F :=
  f_div fo (f_sub fo (f_of_Z fo b) (f_of_Z fo 128)) (f_of_Z fo 128).

End Observations.

(** The average of a list of rationals. *)
Definition average (xs : list Q) : Q :=
  (foldr Qplus 0%Q xs / inject_Z (Z.of_nat (length xs)))%Q.

(** The text of [n_segments] segments joined by single spaces. *)
Definition joined (segments : list string) : string := String.concat " " segments.

(** Events of the allocator and of reads from the open file. *)
Definition decoder_event (e : event) : bool :=
  match e with
  | EvFread _ _ | EvMalloc _ _ | EvFree _ => true
  | _ => false
  end.

(** Events of the inference library. *)
Definition engine_event (e : event) : bool :=
  match e with
  | EvInit _ _ | EvWhisperFree _ | EvWhisperFull _ _ _ _
  | EvNSegments _ _ | EvSegmentText _ _ => true
  | _ => false
  end.

(** Events of the part of a transcription call that follows the engine's
    run: queries for the segments and traffic with the allocator. *)
Definition collect_event (c : positive) (e : event) : bool :=
  match e with
  | EvNSegments c' _ | EvSegmentText c' _ => Pos.eqb c' c
  | EvMalloc _ _ | EvRealloc _ _ _ | EvStrdup _ _ | EvFree _ => true
  | _ => false
  end.

(** ** Invariants of a call *)

Section Invariants.
Context {F E : Type}.

(** What [read_wav_file] leaves behind: on success one new block, the
    decoded samples; on failure the heap it started with. *)
Definition decode_post (w : @world F E) (r : bool * wav_out) (w' : @world F E) : Prop :=
  fs w' = fs w ∧ engine_state w' = engine_state w
  ∧ (∃ t, trace w' = trace w ++ t) ∧ (brk w ≤ brk w')%positive
  ∧ if r.1 then
      ∃ a out, o_pcm r.2 = Some a ∧ (brk w ≤ a)%positive ∧ (a < brk w')%positive
               ∧ heap w' = <[a := BFloats out]> (heap w)
               ∧ Z.of_nat (length out) = o_samples r.2
    else heap w' = heap w.

(** The state of a transcription call on the handle [wp] that started in
    [w0] with result buffer [old]: the handle now holds [rb], the old
    buffer is gone, and no other block of [w0] was touched. *)
Definition core (w0 : @world F E) (wp : addr) (c : ctx_id) (old rb : option addr)
    (w : @world F E) : Prop :=
  heap_wf w0 ∧ heap_wf w ∧ (wp < brk w0)%positive ∧ (brk w0 ≤ brk w)%positive
  ∧ heap w !! wp = Some (BWrapper (Some c) rb)
  ∧ (∀ b, rb = Some b → (brk w0 ≤ b)%positive)
  ∧ (∀ b, old = Some b →
       (b < brk w0)%positive ∧ heap w !! b = None
       ∧ ∃ t, trace w = trace w0 ++ EvFree b :: t)
  ∧ (∃ t, trace w = trace w0 ++ t)
  ∧ (∀ x, x ≠ wp → rb ≠ Some x → old ≠ Some x → heap w !! x = heap w0 !! x).

Definition inv (w0 : @world F E) (wp : addr) (c : ctx_id) (old rb : option addr)
    (w : @world F E) : Prop :=
  core w0 wp c old rb w
  ∧ ∀ b, rb = Some b → ∃ cap text, heap w !! b = Some (BChars cap text).

(** What a completed call leaves behind. *)
Definition call_post (w0 : @world F E) (wp : addr) (c : ctx_id) (old : option addr)
    (r : cptr) (w' : @world F E) : Prop :=
  ∃ rb', inv w0 wp c old rb' w'
         ∧ (r = cptr_of rb' ∨ r = CLit msg_alloc ∧ rb' = None).

(** Worlds that agree on what the allocator, the file system and the
    engine will do next. *)
Definition same_env (w w' : @world F E) : Prop :=
  grants w' = grants w ∧ fs w' = fs w ∧ engine_state w' = engine_state w.

(** The text the loop appends for the indices [todo] of [n] segments. *)
Fixpoint loop_text (seg : Z → string) (n : Z) (todo : list Z) : string :=
  match todo with
  | [] => ""
  | i :: rest =>
      seg i +:+ (if i <? n - 1 then " " else "") +:+ loop_text seg n rest
  end.

End Invariants.

(** ** Sample worlds *)

(** A loaded handle at address 1 whose result buffer, at address 2, holds
    the text of an earlier call. *)
Definition session {F : Type} (g : list bool) (files : string → option (list byte))
    (status : Z) (script : list string) : @world F stub_state := {|
  heap := {[ 1%positive := BWrapper (Some 1%positive) (Some 2%positive);
             2%positive := BChars 14 "previous text" ]};
  brk := 3%positive;
  grants := g;
  fs := files;
  engine_state := {| stub_status := status; stub_script := script; stub_segments := [] |};
  trace := []
|}.

(** Two frames of 16-bit mono: 0.5 and -0.5. *)
Definition wav16_mono : list byte :=
  wav_file 1 16000 16 4 (le_bytes 2 16384 ++ le_bytes 2 (-16384)).

(** Two frames of 16-bit stereo: (0.5, -1.0) and (32767/32768, 1/32768). *)
Definition wav16_stereo : list byte :=
  wav_file 2 16000 16 8
    (le_bytes 2 16384 ++ le_bytes 2 (-32768) ++ le_bytes 2 32767 ++ le_bytes 2 1).

(** Two frames of 24-bit mono with the bytes 01 00 40 and ff ff ff. *)
Definition wav24_mono : list byte :=
  wav_file 1 16000 24 6 [x01; x00; x40; xff; xff; xff].

(** A header that announces 12 bits per sample. *)
Definition wav12 : list byte := wav_file 1 16000 12 4 [x00; x00; x00; x00].

(** Two frames of 8-bit mono with the bytes 80 and ff: 0 and 127/128. *)
Definition wav8_mono : list byte := wav_file 1 8000 8 2 [x80; xff].

(** One frame of 32-bit mono that holds the float 2.0. *)
Definition wav32_mono : list byte := wav_file 1 16000 32 4 [x00; x00; x00; x40].

(** One frame of 32-bit stereo: the words 7f800000 (plus infinity) and
    3f000000 (the float 0.5). *)
Definition wav32_infinity : list byte :=
  wav_file 2 16000 32 8 [x00; x00; x80; x7f; x00; x00; x00; x3f].

(** One frame of 16-bit audio in three channels: 1, 0, 0. *)
Definition wav16_three : list byte :=
  wav_file 3 16000 16 6 (le_bytes 2 1 ++ le_bytes 2 0 ++ le_bytes 2 0).

(** ** Proof automation *)

Ltac run :=
  repeat (progress (
    cbv beta iota zeta delta
      [mbind M_bind mret M_ret emit fclose fopen fread undefined malloc strdup free
       store_block set_heap set_engine allocate realloc load_wrapper init_wrapper
       store_result_buffer store_nul strlen strcat load_floats int_add int_mul
       call_init call_free call_full call_n_segments call_segment_text
       release_result return_copy];
    cbn [heap brk grants fs engine_state trace fst snd o_pcm o_samples o_rate
         set_pcm set_samples set_rate negb andb orb cptr_of])).

Ltac run_in H :=
  repeat (progress (
    cbv beta iota zeta delta
      [mbind M_bind mret M_ret emit fclose fopen fread undefined malloc strdup free
       store_block set_heap set_engine allocate realloc load_wrapper init_wrapper
       store_result_buffer store_nul strlen strcat load_floats int_add int_mul
       call_init call_free call_full call_n_segments call_segment_text
       release_result return_copy] in H;
    cbn [heap brk grants fs engine_state trace fst snd o_pcm o_samples o_rate
         set_pcm set_samples set_rate negb andb orb cptr_of] in H)).

Ltac map_cases H :=
  repeat (rewrite lookup_insert in H || rewrite lookup_delete in H);
  repeat case_decide; simplify_eq.

Ltac map_cases_goal :=
  repeat (rewrite lookup_insert || rewrite lookup_delete);
  repeat case_decide; simplify_eq.

(** Membership in the events of a concrete trace. *)
Ltac in_trace Hc :=
  rewrite ?elem_of_cons, ?elem_of_nil in Hc; rewrite ?elem_of_cons;
  repeat (destruct Hc as [Hc|Hc]); try discriminate Hc; try done;
  try (injection Hc as ->; auto 10).

(** One step of a run in [H]: case analysis on a test of [H] that is not
    itself behind another test. *)
Ltac step_in H :=
  run_in H;
  match type of H with
  | context [match ?x with _ => _ end] =>
      lazymatch x with
      | context [match _ with _ => _ end] => fail
      | _ => destruct x eqn:?; try discriminate H
      end
  end.

(** * Proofs *)

(** ** Handles *)

Section Handles.
Context {F E CP : Type}.
Variable fo : float_ops F.
Variable eng : whisper_engine F E CP.
Implicit Types w : @world F E.

Lemma load_wrapper_at w p c rb :
  heap w !! p = Some (BWrapper c rb) → load_wrapper p w = Ok (c, rb) w.
Proof. intros H. unfold load_wrapper. by rewrite H. Qed.

Lemma handle_at_Some w wrapper c rb :
  handle_at w wrapper = Some (c, rb) ↔
  ∃ p, wrapper = Some p ∧ heap w !! p = Some (BWrapper c rb).
Proof.
  unfold handle_at. split.
  - destruct wrapper as [p|]; simpl; [|done].
    destruct (heap w !! p) as [[]|] eqn:Hp; try done.
    intros [= -> ->]. eauto.
  - intros (p & -> & Hp). simpl. by rewrite Hp.
Qed.

End Handles.

(** ** Loads from byte buffers *)

Lemma load_uchar_is_Some (buf : list byte) (k : nat) :
  (k < length buf)%nat → is_Some (load_uchar buf k).
Proof.
  intros H. unfold load_uchar.
  destruct (lookup_lt_is_Some_2 buf k H) as [b ->]. by eexists.
Qed.

Lemma load_short_is_Some (buf : list byte) (off : nat) :
  (off + 2 ≤ length buf)%nat → is_Some (load_short buf off).
Proof.
  intros H. unfold load_short.
  destruct (lookup_lt_is_Some_2 buf off) as [b0 ->]; [lia|].
  destruct (lookup_lt_is_Some_2 buf (S off)) as [b1 ->]; [lia|].
  by eexists.
Qed.

Lemma load_word_is_Some (buf : list byte) (off : nat) :
  (off + 4 ≤ length buf)%nat → is_Some (load_word buf off).
Proof.
  intros H. unfold load_word.
  destruct (lookup_lt_is_Some_2 buf off) as [b0 ->]; [lia|].
  destruct (lookup_lt_is_Some_2 buf (S off)) as [b1 ->]; [lia|].
  destruct (lookup_lt_is_Some_2 buf (S (S off))) as [b2 ->]; [lia|].
  destruct (lookup_lt_is_Some_2 buf (S (S (S off)))) as [b3 ->]; [lia|].
  by eexists.
Qed.

Lemma load_int_is_Some (buf : list byte) (off : nat) :
  (off + 4 ≤ length buf)%nat → is_Some (load_int buf off).
Proof.
  intros H. unfold load_int.
  destruct (load_word_is_Some buf off H) as [x ->]. by eexists.
Qed.

Lemma load_short_take (buf : list byte) (n off : nat) :
  (off + 2 ≤ n)%nat → load_short (take n buf) off = load_short buf off.
Proof. intros H. unfold load_short. by rewrite !lookup_take_lt by lia. Qed.

Lemma load_word_take (buf : list byte) (n off : nat) :
  (off + 4 ≤ n)%nat → load_word (take n buf) off = load_word buf off.
Proof. intros H. unfold load_word. by rewrite !lookup_take_lt by lia. Qed.

Lemma load_int_take (buf : list byte) (n off : nat) :
  (off + 4 ≤ n)%nat → load_int (take n buf) off = load_int buf off.
Proof. intros H. unfold load_int. by rewrite load_word_take. Qed.

Lemma byte_val_range (b : byte) : 0 ≤ byte_val b < 256.
Proof. unfold byte_val. pose proof (Byte.to_N_bounded b). lia. Qed.

Lemma wrap_range (bits z : Z) :
  0 < bits → - 2 ^ (bits - 1) ≤ wrap bits z < 2 ^ (bits - 1).
Proof.
  intros Hb. unfold wrap.
  assert (2 ^ bits = 2 * 2 ^ (bits - 1)) as Hp.
  { rewrite <- Z.pow_succ_r by lia. f_equal. lia. }
  pose proof (Z.pow_pos_nonneg 2 (bits - 1)).
  pose proof (Z.mod_pos_bound (z + 2 ^ (bits - 1)) (2 ^ bits)). lia.
Qed.

Lemma load_short_range (buf : list byte) (off : nat) (s : Z) :
  load_short buf off = Some s → -32768 ≤ s ≤ 32767.
Proof.
  unfold load_short. intros H.
  destruct (buf !! off); [|done]. destruct (buf !! S off); [|done].
  simpl in H. injection H as <-.
  pose proof (wrap_range 16 (Z.lor (byte_val b) (byte_val b0 ≪ 8)) eq_refl).
  change (2 ^ (16 - 1)) with 32768 in *. lia.
Qed.

Lemma load_int_range (buf : list byte) (off : nat) (s : Z) :
  load_int buf off = Some s → -2147483648 ≤ s ≤ 2147483647.
Proof.
  unfold load_int. intros H. destruct (load_word buf off) as [x|]; [|done].
  injection H as <-. pose proof (wrap_range 32 x eq_refl).
  change (2 ^ (32 - 1)) with 2147483648 in *. lia.
Qed.

Lemma tag_at_0 (bytes : list byte) tag :
  tag_at (take 44 bytes) 0 tag = bool_decide (take 4 bytes = tag).
Proof. unfold tag_at. rewrite drop_0, take_take. done. Qed.

Lemma tag_at_8 (bytes : list byte) tag :
  tag_at (take 44 bytes) 8 tag = bool_decide (take 4 (drop 8 bytes) = tag).
Proof. unfold tag_at. rewrite !take_drop_commute, take_take. done. Qed.

Section SampleReads.
Context {F E : Type}.
Variable fo : float_ops F.
Implicit Types w : @world F E.

Lemma mix_frames_is_Some (sample : Z → option F) (n C : Z) :
  (∀ k, 0 ≤ k < n * C → is_Some (sample k)) →
  is_Some (mix_frames fo sample n C).
Proof.
  intros Hs. unfold mix_frames. apply mapM_is_Some, Forall_lookup.
  intros ii i Hi. apply lookup_seqZ in Hi as [-> Hi]. simpl.
  assert (is_Some (mapM (λ j, sample ((0 + Z.of_nat ii) * C + j)) (seqZ 0 C))) as [xs ->].
  { apply mapM_is_Some, Forall_lookup. intros jj j Hj.
    apply lookup_seqZ in Hj as [-> Hj]. simpl. apply Hs. nia. }
  by eexists.
Qed.

Lemma mix_frames_length (sample : Z → option F) (n C : Z) out :
  mix_frames fo sample n C = Some out → length out = Z.to_nat n.
Proof.
  intros H. apply length_mapM in H. by rewrite length_seqZ in H.
Qed.

Lemma mix_frames_lookup (sample : Z → option F) (n C : Z) out (i : Z) :
  mix_frames fo sample n C = Some out → 0 ≤ i < n →
  ∃ xs, mapM (λ j, sample (i * C + j)) (seqZ 0 C) = Some xs
        ∧ out !! Z.to_nat i = Some (mix fo xs C).
Proof.
  intros H Hi. apply mapM_Some_1 in H.
  assert (seqZ 0 n !! Z.to_nat i = Some i) as Hl.
  { apply lookup_seqZ. lia. }
  destruct (Forall2_lookup_l _ _ _ _ _ H Hl) as (y & Hy & Hf).
  destruct (mapM _ (seqZ 0 C)) as [xs|] eqn:Hxs; [|done].
  exists xs. split; [done|]. simpl in Hf. by injection Hf as <-.
Qed.

Lemma sample_of_is_Some (bits : Z) (data : list byte) (k : Z) :
  bits ∈ [8; 16; 24; 32] → 0 ≤ k →
  (k + 1) * (bits `quot` 8) ≤ Z.of_nat (length data) →
  is_Some (sample_of fo bits data k).
Proof.
  intros Hb Hk Hlen. unfold sample_of.
  repeat (apply elem_of_cons in Hb as [->|Hb]); [| | | |by apply elem_of_nil in Hb].
  - simpl. unfold sample_8. change (8 `quot` 8) with 1 in Hlen.
    destruct (load_uchar_is_Some data (Z.to_nat k)) as [b ->]; [lia|]. by eexists.
  - simpl. unfold sample_16. change (16 `quot` 8) with 2 in Hlen.
    destruct (load_short_is_Some data (Z.to_nat (2 * k))) as [b ->]; [lia|]. by eexists.
  - simpl. unfold sample_24. change (24 `quot` 8) with 3 in Hlen.
    destruct (load_uchar_is_Some data (Z.to_nat (3 * k))) as [b0 ->]; [lia|].
    destruct (load_uchar_is_Some data (Z.to_nat (3 * k + 1))) as [b1 ->]; [lia|].
    destruct (load_uchar_is_Some data (Z.to_nat (3 * k + 2))) as [b2 ->]; [lia|].
    by eexists.
  - simpl. unfold sample_32. change (32 `quot` 8) with 4 in Hlen.
    destruct (load_word_is_Some data (Z.to_nat (4 * k))) as [b ->]; [lia|]. by eexists.
Qed.

(** The sample count the header yields never reaches past the data. *)
Lemma samples_fit (bits C ds : Z) :
  bits ∈ [8; 16; 24; 32] → 0 < C → 0 < ds →
  ((ds `quot` (bits `quot` 8)) `quot` C) * C * (bits `quot` 8) ≤ ds.
Proof.
  intros Hb HC Hds.
  assert (0 < bits `quot` 8) as Hq.
  { repeat (apply elem_of_cons in Hb as [->|Hb]); [done..|by apply elem_of_nil in Hb]. }
  generalize dependent (bits `quot` 8). intros q Hq.
  rewrite (Z.quot_div_nonneg ds q) by lia.
  rewrite Z.quot_div_nonneg by (try apply Z.div_pos; lia).
  pose proof (Z.mul_div_le (ds `div` q) C HC) as H1.
  pose proof (Z.mul_div_le ds q Hq) as H2.
  generalize dependent (ds `div` q). intros a H1 H2.
  generalize dependent (a `div` C). intros b H1.
  assert (b * C * q ≤ a * q) by nia. lia.
Qed.

Lemma decode_frames_total (bits C ds : Z) (data : list byte) :
  bits ∈ [8; 16; 24; 32] → 0 < C → 0 < ds → Z.of_nat (length data) = ds →
  is_Some (mix_frames fo (sample_of fo bits data)
             ((ds `quot` (bits `quot` 8)) `quot` C) C).
Proof.
  intros Hb HC Hds Hlen. apply mix_frames_is_Some. intros k Hk.
  apply sample_of_is_Some; [done|lia|].
  pose proof (samples_fit bits C ds Hb HC Hds).
  assert (0 < bits `quot` 8) as Hq.
  { repeat (apply elem_of_cons in Hb as [->|Hb]); [done..|by apply elem_of_nil in Hb]. }
  nia.
Qed.

End SampleReads.

(** ** The decoder *)

Section StagingBuffer.
Context {F E : Type}.
Variable fo : float_ops F.
Implicit Types w : @world F E.

Lemma next_grant_cases (g : list bool) :
  ∃ b g', next_grant g = (b, g').
Proof. destruct g; simpl; eauto. Qed.

Lemma read_wav_data_total (fp : list byte) (bits C ds : Z) (o : wav_out) w :
  heap_wf w → bits ∈ [8; 16; 24; 32] → 0 < C → 0 < ds →
  ∃ r w', read_wav_data fo fp bits C ds o w = Ok r w' ∧ decode_post w r w'.
Proof.
  intros Hwf Hb HC Hds. unfold read_wav_data.
  set (n := (ds `quot` (bits `quot` 8)) `quot` C).
  destruct (Z.leb_spec n 0) as [Hn|Hn].
  { run. eexists _, _. split; [done|]. unfold decode_post; simpl; rewrite <- ?app_assoc.
    repeat split; eauto; try lia. }
  assert (heap w !! brk w = None) as Hfresh.
  { apply eq_None_not_Some. intros H%Hwf. lia. }
  assert (heap w !! Pos.succ (brk w) = None) as Hfresh'.
  { apply eq_None_not_Some. intros H%Hwf. lia. }
  run. destruct (next_grant (grants w)) as [[] g1]; run.
  2:{ eexists _, _. split; [done|]. unfold decode_post; simpl; rewrite <- ?app_assoc.
      repeat split; eauto; try lia. }
  destruct (next_grant g1) as [[] g2]; run.
  2:{ rewrite lookup_insert_eq. run.
      eexists _, _. split; [done|]. unfold decode_post; simpl; rewrite <- ?app_assoc.
      repeat split; eauto; try lia.
      rewrite delete_insert_eq. by apply delete_id. }
  rewrite lookup_insert_eq. run.
  destruct (Z.eqb_spec (Z.of_nat (length (take (Z.to_nat ds) fp))) ds) as [Hlen|Hlen]; run.
  2:{ rewrite lookup_insert_eq. run.
      rewrite lookup_delete_ne, lookup_insert_ne, lookup_insert_ne, lookup_insert_eq by lia.
      run. eexists _, _. split; [done|]. unfold decode_post; simpl; rewrite <- ?app_assoc.
      repeat split; eauto; try lia.
      apply map_eq. intros i.
      destruct (decide (i = brk w)) as [->|]; [by rewrite lookup_delete_eq|].
      rewrite lookup_delete_ne by done.
      destruct (decide (i = Pos.succ (brk w))) as [->|]; [by rewrite lookup_delete_eq|].
      by rewrite lookup_delete_ne, !lookup_insert_ne by done. }
  destruct (decode_frames_total fo bits C ds (take (Z.to_nat ds) fp) Hb HC Hds Hlen)
    as [out Hout].
  fold n in Hout. rewrite Hout. run.
  rewrite lookup_insert_ne, lookup_insert_ne, lookup_insert_eq by lia. run.
  rewrite lookup_insert_ne, lookup_insert_eq by lia. run.
  eexists _, _. split; [done|]. unfold decode_post; simpl; rewrite <- ?app_assoc.
  repeat split; eauto; try lia.
  exists (brk w), out. repeat split; try lia.
  - apply map_eq. intros i.
    destruct (decide (i = Pos.succ (brk w))) as [->|].
    { rewrite lookup_delete_eq, lookup_insert_ne by lia. done. }
    rewrite lookup_delete_ne by done.
    destruct (decide (i = brk w)) as [->|]; [by rewrite !lookup_insert_eq|].
    by rewrite !lookup_insert_ne by done.
  - apply mix_frames_length in Hout. lia.
Qed.

Lemma granted_S (n : nat) (g : list bool) :
  granted (S n) g = true →
  next_grant g = (true, drop 1 g) ∧ granted n (drop 1 g) = true.
Proof.
  unfold granted. destruct g as [|[] g]; simpl; try done.
  by rewrite take_nil.
Qed.

Lemma read_wav_data_ok (fp : list byte) (bits C ds : Z) (o : wav_out) w out :
  heap_wf w → 0 < (ds `quot` (bits `quot` 8)) `quot` C →
  granted 2 (grants w) = true →
  Z.of_nat (length (take (Z.to_nat ds) fp)) = ds →
  mix_frames fo (sample_of fo bits (take (Z.to_nat ds) fp))
    ((ds `quot` (bits `quot` 8)) `quot` C) C = Some out →
  ∃ w', read_wav_data fo fp bits C ds o w
        = Ok (true, set_pcm (Some (brk w))
                      (set_samples ((ds `quot` (bits `quot` 8)) `quot` C) o)) w'
        ∧ heap w' = <[brk w := BFloats out]> (heap w)
        ∧ brk w' = Pos.succ (Pos.succ (brk w))
        ∧ grants w' = drop 2 (grants w)
        ∧ fs w' = fs w ∧ engine_state w' = engine_state w
        ∧ trace w' = trace w ++
            [EvMalloc ((ds `quot` (bits `quot` 8)) `quot` C * 4) (Some (brk w));
             EvMalloc ds (Some (Pos.succ (brk w)));
             EvFread ds ds; EvFree (Pos.succ (brk w)); EvFclose].
Proof.
  intros Hwf Hn Hg Hlen Hout. unfold read_wav_data.
  set (n := (ds `quot` (bits `quot` 8)) `quot` C) in *.
  destruct (Z.leb_spec n 0) as [?|_]; [lia|].
  assert (heap w !! Pos.succ (brk w) = None) as Hfresh'.
  { apply eq_None_not_Some. intros H%Hwf. lia. }
  apply granted_S in Hg as [Hg1 Hg]. apply granted_S in Hg as [Hg2 _].
  rewrite drop_drop in Hg2. simpl in Hg2.
  run. rewrite Hg1. run. rewrite Hg2. run.
  rewrite lookup_insert_eq. run.
  rewrite Hlen, Z.eqb_refl. run. rewrite Hout. run.
  rewrite lookup_insert_ne, lookup_insert_ne, lookup_insert_eq by lia. run.
  rewrite lookup_insert_ne, lookup_insert_eq by lia. run.
  eexists. split; [done|]. simpl. rewrite <- !app_assoc. repeat split; try done.
  apply map_eq. intros i.
  destruct (decide (i = Pos.succ (brk w))) as [->|].
  { rewrite lookup_delete_eq, lookup_insert_ne by lia. done. }
  rewrite lookup_delete_ne by done.
  destruct (decide (i = brk w)) as [->|]; [by rewrite !lookup_insert_eq|].
  by rewrite !lookup_insert_ne by done.
Qed.

Lemma header_fields (bytes : list byte) :
  length (take 44 bytes) = 44%nat →
  ∃ rate C bits ds,
    load_int (take 44 bytes) 24 = Some rate ∧ load_short (take 44 bytes) 22 = Some C
    ∧ load_short (take 44 bytes) 34 = Some bits ∧ load_int (take 44 bytes) 40 = Some ds.
Proof.
  intros Hlen.
  destruct (load_int_is_Some (take 44 bytes) 24) as [rate ->]; [lia|].
  destruct (load_short_is_Some (take 44 bytes) 22) as [C ->]; [lia|].
  destruct (load_short_is_Some (take 44 bytes) 34) as [bits ->]; [lia|].
  destruct (load_int_is_Some (take 44 bytes) 40) as [ds ->]; [lia|].
  by eexists _, _, _, _.
Qed.

Lemma bits_check (bits : Z) :
  negb (bits =? 16) && negb (bits =? 32) && negb (bits =? 8) && negb (bits =? 24) = false
  ↔ bits ∈ [8; 16; 24; 32].
Proof.
  rewrite !elem_of_cons, elem_of_nil.
  destruct (Z.eqb_spec bits 16), (Z.eqb_spec bits 32), (Z.eqb_spec bits 8),
    (Z.eqb_spec bits 24); simpl; intuition congruence.
Qed.

Lemma read_wav_file_total (filename : string) (o : wav_out) w :
  heap_wf w →
  ∃ r w', read_wav_file fo filename o w = Ok r w' ∧ decode_post w r w'.
Proof.
  intros Hwf. unfold read_wav_file. run.
  destruct (fs w filename) as [bytes|] eqn:Hfs; run.
  2:{ eexists _, _. split; [done|]. unfold decode_post; simpl; rewrite <- ?app_assoc.
      repeat split; eauto; try lia. }
  change (Z.to_nat 44) with 44%nat.
  destruct (Z.eqb_spec (Z.of_nat (length (take 44 bytes))) 44) as [Hlen|Hlen]; run.
  2:{ eexists _, _. split; [done|]. unfold decode_post; simpl; rewrite <- ?app_assoc.
      repeat split; eauto; try lia. }
  destruct (tag_at (take 44 bytes) 0 tag_RIFF); run.
  2:{ eexists _, _. split; [done|]. unfold decode_post; simpl; rewrite <- ?app_assoc.
      repeat split; eauto; try lia. }
  destruct (tag_at (take 44 bytes) 8 tag_WAVE); run.
  2:{ eexists _, _. split; [done|]. unfold decode_post; simpl; rewrite <- ?app_assoc.
      repeat split; eauto; try lia. }
  destruct (header_fields bytes) as (rate & C & bits & ds & -> & -> & -> & ->); [lia|].
  destruct (Z.leb_spec ds 0) as [?|Hds]; run.
  { eexists _, _. split; [done|]. unfold decode_post; simpl; rewrite <- ?app_assoc.
    repeat split; eauto; try lia. }
  destruct (Z.leb_spec C 0) as [?|HC]; run.
  { eexists _, _. split; [done|]. unfold decode_post; simpl; rewrite <- ?app_assoc.
    repeat split; eauto; try lia. }
  destruct (negb (bits =? 16) && negb (bits =? 32) && negb (bits =? 8) && negb (bits =? 24))
    eqn:Hbits; run.
  { eexists _, _. split; [done|]. unfold decode_post; simpl; rewrite <- ?app_assoc.
    repeat split; eauto; try lia. }
  apply bits_check in Hbits.
  match goal with
  | |- ∃ r w', read_wav_data fo ?fp bits C ds ?o' ?w1 = _ ∧ _ =>
      destruct (read_wav_data_total fp bits C ds o' w1) as (r & w' & Hrun & Hpost);
        [|done..|]
  end.
  { intros a Ha. apply (Hwf a Ha). }
  exists r, w'. split; [done|].
  destruct Hpost as (? & ? & [t Ht] & ? & Hh). simpl in *.
  unfold decode_post. repeat split; try done.
  rewrite Ht, <- !app_assoc. eauto.
Qed.

End StagingBuffer.

Section BadHeader.
Context {F E CP : Type}.
Variable fo : float_ops F.
Variable eng : whisper_engine F E CP.
Implicit Types w : @world F E.

Lemma read_wav_file_bad_header w filename bytes o :
  fs w filename = Some bytes →
  (length bytes < 44)%nat ∨ take 4 bytes ≠ tag_RIFF ∨ take 4 (drop 8 bytes) ≠ tag_WAVE →
  ∃ w', read_wav_file fo filename o w = Ok (false, o) w' ∧ same_state w w'.
Proof.
  intros Hfs Hbad. unfold read_wav_file. run. rewrite Hfs. run.
  change (Z.to_nat 44) with 44%nat.
  destruct (Z.eqb_spec (Z.of_nat (length (take 44 bytes))) 44) as [Hlen|Hlen]; run.
  - rewrite tag_at_0, tag_at_8.
    rewrite length_take in Hlen.
    destruct Hbad as [Hshort|[Hr|Hv]]; [lia| |].
    + rewrite (bool_decide_eq_false_2 _ Hr). run. eexists; split; [done|]. by repeat split.
    + rewrite (bool_decide_eq_false_2 _ Hv), orb_true_r. run.
      eexists; split; [done|]. by repeat split.
  - eexists; split; [done|]. by repeat split.
Qed.

End BadHeader.

Lemma load_word_Some_length (buf : list byte) (off : nat) x :
  load_word buf off = Some x → (off + 4 ≤ length buf)%nat.
Proof.
  unfold load_word. intros H.
  destruct (buf !! off); [|done]. destruct (buf !! S off); [|done].
  destruct (buf !! S (S off)); [|done].
  destruct (buf !! S (S (S off))) eqn:H3; [|done].
  apply lookup_lt_Some in H3. lia.
Qed.

Lemma load_int_Some_length (buf : list byte) (off : nat) x :
  load_int buf off = Some x → (off + 4 ≤ length buf)%nat.
Proof.
  unfold load_int. destruct (load_word buf off) eqn:H; [|done].
  intros _. by eapply load_word_Some_length.
Qed.

Section Header.
Context {F E : Type}.
Variable fo : float_ops F.
Implicit Types w : @world F E.

(** The run of [read_wav_file] up to the end of the header checks. *)
Lemma read_wav_file_header (filename : string) (o : wav_out) w bytes rate C bits ds :
  fs w filename = Some bytes →
  take 4 bytes = tag_RIFF → take 4 (drop 8 bytes) = tag_WAVE →
  load_int bytes 24 = Some rate → load_short bytes 22 = Some C →
  load_short bytes 34 = Some bits → load_int bytes 40 = Some ds →
  read_wav_file fo filename o w =
  let w1 : @world F E :=
    {| heap := heap w; brk := brk w; grants := grants w; fs := fs w;
       engine_state := engine_state w;
       trace := trace w ++ [EvFopen filename true; EvFread 44 44] |} in
  if (ds <=? 0) || (C <=? 0)
     || (negb (bits =? 16) && negb (bits =? 32) && negb (bits =? 8) && negb (bits =? 24))
  then Ok (false, set_rate rate o)
          {| heap := heap w; brk := brk w; grants := grants w; fs := fs w;
             engine_state := engine_state w;
             trace := trace w ++ [EvFopen filename true; EvFread 44 44; EvFclose] |}
  else read_wav_data fo (drop 44 bytes) bits C ds (set_rate rate o) w1.
Proof.
  intros Hfs Hr Hv Hrate HC Hbits Hds.
  pose proof (load_int_Some_length _ _ _ Hds) as Hlen.
  unfold read_wav_file. run. rewrite Hfs. run.
  change (Z.to_nat 44) with 44%nat.
  rewrite length_take, Nat.min_l by lia. change (Z.of_nat 44 =? 44) with true. run.
  rewrite tag_at_0, tag_at_8, Hr, Hv, !bool_decide_eq_true_2 by done. run.
  rewrite !load_int_take, !load_short_take, Hrate, HC, Hbits, Hds by lia.
  change (Z.of_nat 44) with 44.
  destruct (ds <=? 0); run; [by rewrite <- !app_assoc|].
  destruct (C <=? 0); run; [by rewrite <- !app_assoc|].
  destruct (negb (bits =? 16) && negb (bits =? 32) && negb (bits =? 8) && negb (bits =? 24));
    run; by rewrite <- !app_assoc.
Qed.

Lemma wav_decode_Some (bytes : list byte) pcm n rate :
  wav_decode fo bytes = Some (pcm, n, rate) →
  ∃ C bits ds,
    take 4 bytes = tag_RIFF ∧ take 4 (drop 8 bytes) = tag_WAVE
    ∧ load_int bytes 24 = Some rate ∧ load_short bytes 22 = Some C
    ∧ load_short bytes 34 = Some bits ∧ load_int bytes 40 = Some ds
    ∧ 0 < ds ∧ 0 < C ∧ bits ∈ [8; 16; 24; 32]
    ∧ n = (ds `quot` (bits `quot` 8)) `quot` C ∧ 0 < n
    ∧ Z.of_nat (length (take (Z.to_nat ds) (drop 44 bytes))) = ds
    ∧ mix_frames fo (sample_of fo bits (take (Z.to_nat ds) (drop 44 bytes))) n C
      = Some pcm.
Proof.
  unfold wav_decode. intros H.
  destruct (decide (length (take 44 bytes) = 44%nat)) as [Hlen|?];
    [|by rewrite bool_decide_eq_false_2 in H].
  rewrite bool_decide_eq_true_2 in H by done.
  rewrite tag_at_0, tag_at_8 in H.
  destruct (decide (take 4 bytes = tag_RIFF)) as [Hr|?];
    [|by rewrite bool_decide_eq_false_2 in H].
  destruct (decide (take 4 (drop 8 bytes) = tag_WAVE)) as [Hv|?];
    [|by rewrite (bool_decide_eq_false_2 (take 4 (drop 8 bytes) = _)), andb_false_r in H].
  rewrite !bool_decide_eq_true_2 in H by done. simpl in H.
  rewrite !load_int_take, !load_short_take in H by lia.
  destruct (load_int bytes 24) as [rate'|]; [|done].
  destruct (load_short bytes 22) as [C|]; [|done].
  destruct (load_short bytes 34) as [bits|]; [|done].
  destruct (load_int bytes 40) as [ds|]; [|done]. simpl in H.
  destruct (Z.ltb_spec 0 ds); [|done].
  destruct (Z.ltb_spec 0 C); [|done].
  destruct (decide (bits ∈ [8; 16; 24; 32]));
    [rewrite bool_decide_eq_true_2 in H by done|by rewrite bool_decide_eq_false_2 in H].
  simpl in H.
  destruct (Z.ltb_spec 0 ((ds `quot` (bits `quot` 8)) `quot` C)); [|done].
  destruct (Z.eqb_spec (Z.of_nat (length (take (Z.to_nat ds) (drop 44 bytes)))) ds); [|done].
  simpl in H.
  destruct (mix_frames _ _ _ _) as [out|] eqn:Hout; [|done].
  simpl in H. injection H as -> <- ->.
  exists C, bits, ds. by repeat split.
Qed.

Lemma read_wav_file_decode w filename bytes o pcm n rate :
  fs w filename = Some bytes →
  wav_decode fo bytes = Some (pcm, n, rate) →
  heap_wf w → granted 2 (grants w) = true →
  ∃ w' t, read_wav_file fo filename o w
        = Ok (true, {| o_pcm := Some (brk w); o_samples := n; o_rate := rate |}) w'
        ∧ heap w' = <[brk w := BFloats pcm]> (heap w)
        ∧ brk w' = Pos.succ (Pos.succ (brk w))
        ∧ grants w' = drop 2 (grants w)
        ∧ fs w' = fs w ∧ engine_state w' = engine_state w
        ∧ trace w' = trace w ++ t.
Proof.
  intros Hfs Hdec Hwf Hg.
  apply wav_decode_Some in Hdec
    as (C & bits & ds & Hr & Hv & Hrate & HC & Hbits & Hds & ? & ? & Hb & -> & ? & Hlen & Hout).
  rewrite (read_wav_file_header _ _ _ _ _ _ _ _ Hfs Hr Hv Hrate HC Hbits Hds). simpl.
  destruct (Z.leb_spec ds 0); [lia|]. destruct (Z.leb_spec C 0); [lia|].
  apply bits_check in Hb. rewrite Hb. simpl.
  match goal with
  | |- ∃ w' t, read_wav_data fo ?fp bits C ds ?o' ?w1 = _ ∧ _ =>
      destruct (read_wav_data_ok fo fp bits C ds o' w1 pcm)
        as (w' & Hrun & Hh & Hbrk & Hgr & Hfs' & He & Ht); try done
  end.
  exists w'. eexists. split; [exact Hrun|]. simpl in *.
  repeat split; try done. rewrite Ht, <- app_assoc. done.
Qed.

End Header.

(** ** Samples *)

Lemma wrap_scale (v : Z) : wrap 32 (256 * v) = 256 * wrap 24 v.
Proof.
  unfold wrap.
  change (2 ^ (32 - 1)) with (256 * 2 ^ 23). change (2 ^ 32) with (256 * 2 ^ 24).
  change (2 ^ (24 - 1)) with (2 ^ 23).
  rewrite <- Z.mul_add_distr_l, Z.mul_mod_distr_l by done. lia.
Qed.

Lemma sample24_standard24 (b0 b1 b2 : Z) :
  sample24 b0 b1 b2 = 256 * standard24 b0 b1 b2.
Proof.
  unfold sample24, standard24. rewrite <- wrap_scale. f_equal.
  rewrite (Z.mul_comm 256). change 256 with (2 ^ 8).
  rewrite <- Z.shiftl_mul_pow2 by done.
  rewrite !Z.shiftl_lor, !Z.shiftl_shiftl by done. done.
Qed.

Lemma mapM_fmap_option {A B C} (f : A → option B) (g : B → C) (l : list A) :
  mapM (λ x, g <$> f x) l = fmap g <$> mapM f l.
Proof.
  induction l as [|x l IH]; [done|].
  simpl. destruct (f x) as [y|]; [|done]. simpl.
  rewrite IH. by destruct (mapM f l).
Qed.

Lemma foldl_Qplus (a : Q) (xs : list Q) :
  (foldl Qplus a xs == a + foldr Qplus 0 xs)%Q.
Proof.
  revert a. induction xs as [|x xs IH]; intros a; simpl; [lra|].
  rewrite IH. lra.
Qed.

Lemma foldr_Qplus_proper (xs ys : list Q) :
  Forall2 Qeq xs ys → (foldr Qplus 0 xs == foldr Qplus 0 ys)%Q.
Proof. induction 1 as [|x y xs ys Hxy _ IH]; simpl; [done|]. by rewrite Hxy, IH. Qed.

Section Frames.
Context {F E : Type}.
Variable fo : float_ops F.
Implicit Types w : @world F E.

Lemma frame_16_samples (data : list byte) (C i : Z) :
  mapM (λ j, sample_16 fo data (i * C + j)) (seqZ 0 C)
  = fmap (scale_16 fo) <$> frame_16 data C i.
Proof. unfold frame_16. rewrite <- mapM_fmap_option. done. Qed.

Lemma frame_24_samples (data : list byte) (C i : Z) :
  mapM (λ j, sample_24 fo data (i * C + j)) (seqZ 0 C)
  = fmap (scale_24 fo) <$> frame_24 data C i.
Proof.
  unfold frame_24. rewrite <- mapM_fmap_option. apply mapM_ext. intros j.
  unfold sample_24.
  destruct (load_uchar data (Z.to_nat (3 * (i * C + j)))); [|done].
  destruct (load_uchar data (Z.to_nat (3 * (i * C + j) + 1))); [|done].
  destruct (load_uchar data (Z.to_nat (3 * (i * C + j) + 2))); done.
Qed.

Lemma frame_16_take (data : list byte) (n : nat) (C i : Z) frame :
  frame_16 (take n data) C i = Some frame → frame_16 data C i = Some frame.
Proof.
  unfold frame_16. intros H. apply mapM_Some. apply mapM_Some in H.
  eapply Forall2_impl; [exact H|]. intros j s. simpl.
  unfold load_short.
  destruct (take n data !! Z.to_nat _) eqn:H0; [|done].
  destruct (take n data !! S _) eqn:H1; [|done].
  apply lookup_take_Some in H0 as [-> _]. apply lookup_take_Some in H1 as [-> _]. done.
Qed.

Lemma frame_24_take (data : list byte) (n : nat) (C i : Z) frame :
  frame_24 (take n data) C i = Some frame → frame_24 data C i = Some frame.
Proof.
  unfold frame_24. intros H. apply mapM_Some. apply mapM_Some in H.
  eapply Forall2_impl; [exact H|]. intros j s. simpl.
  unfold load_uchar.
  destruct (take n data !! Z.to_nat (3 * _)) eqn:H0; [|done].
  destruct (take n data !! Z.to_nat (3 * _ + 1)) eqn:H1; [|done].
  destruct (take n data !! Z.to_nat (3 * _ + 2)) eqn:H2; [|done].
  apply lookup_take_Some in H0 as [-> _]. apply lookup_take_Some in H1 as [-> _].
  apply lookup_take_Some in H2 as [-> _]. done.
Qed.

Lemma frame_16_range (data : list byte) (C i : Z) frame :
  frame_16 data C i = Some frame →
  length frame = Z.to_nat C ∧ Forall (λ s, -32768 ≤ s ≤ 32767) frame.
Proof.
  unfold frame_16. intros H. split.
  - apply length_mapM in H. by rewrite length_seqZ in H.
  - apply mapM_Some in H. apply Forall_lookup. intros k s Hs.
    destruct (Forall2_lookup_r _ _ _ _ _ H Hs) as (j & _ & Hj).
    by eapply load_short_range.
Qed.

End Frames.

Section Decoding.
Context {F E : Type}.
Variable fo : float_ops F.
Implicit Types w : @world F E.

(** A file with a valid header for [N] frames of [C] samples of [k] bytes
    decodes, and the samples are those of [mix_frames]. *)
Lemma read_wav_file_frames w filename bytes o (N C rate bits k : Z) :
  fs w filename = Some bytes →
  take 4 bytes = tag_RIFF → take 4 (drop 8 bytes) = tag_WAVE →
  load_short bytes 22 = Some C → load_int bytes 24 = Some rate →
  load_short bytes 34 = Some bits → load_int bytes 40 = Some (k * N * C) →
  bits ∈ [8; 16; 24; 32] → bits `quot` 8 = k →
  1 ≤ N → 1 ≤ C → 44 + k * N * C ≤ Z.of_nat (length bytes) →
  heap_wf w → granted 2 (grants w) = true →
  ∃ w' out,
    read_wav_file fo filename o w
    = Ok (true, {| o_pcm := Some (brk w); o_samples := N; o_rate := rate |}) w'
    ∧ heap w' !! brk w = Some (BFloats out)
    ∧ mix_frames fo (sample_of fo bits (take (Z.to_nat (k * N * C)) (drop 44 bytes))) N C
      = Some out.
Proof.
  intros Hfs Hr Hv HC Hrate Hbits Hds Hb Hk HN HC1 Hlen Hwf Hg.
  assert (0 < k) as Hk0.
  { subst k. repeat (apply elem_of_cons in Hb as [->|Hb]); [done..|by apply elem_of_nil in Hb]. }
  assert (0 < k * N * C) as Hds0 by nia.
  rewrite (read_wav_file_header _ _ _ _ _ _ _ _ _ Hfs Hr Hv Hrate HC Hbits Hds). simpl.
  destruct (Z.leb_spec (k * N * C) 0); [lia|]. destruct (Z.leb_spec C 0); [lia|].
  pose proof Hb as Hb'. apply bits_check in Hb'. rewrite Hb'. simpl.
  assert (((k * N * C) `quot` (bits `quot` 8)) `quot` C = N) as Hn.
  { rewrite Hk. replace (k * N * C) with ((N * C) * k) by lia.
    rewrite Z.quot_mul by lia. rewrite Z.quot_mul by lia. done. }
  assert (Z.of_nat (length (take (Z.to_nat (k * N * C)) (drop 44 bytes))) = k * N * C) as Hl.
  { rewrite length_take, length_drop. lia. }
  destruct (decode_frames_total fo bits C (k * N * C) _ Hb ltac:(lia) Hds0 Hl) as [out Hout].
  match goal with
  | |- ∃ w' out, read_wav_data fo ?fp bits C ?ds ?o' ?w1 = _ ∧ _ =>
      destruct (read_wav_data_ok fo fp bits C ds o' w1 out)
        as (w' & Hrun & Hh & _); try done
  end.
  { rewrite Hn. lia. }
  rewrite Hn in *. exists w', out. split; [exact Hrun|]. simpl in Hh.
  split; [|done]. rewrite Hh. apply lookup_insert_eq.
Qed.

End Decoding.

(** ** The invariant of a transcription call *)

Section CallInvariant.
Context {F E CP : Type}.
Variable fo : float_ops F.
Variable eng : whisper_engine F E CP.
Implicit Types w : @world F E.

Lemma release_result_inv w wp c rb w1 :
  heap_wf w → loaded_handle w wp c rb →
  release_result wp rb w = Ok () w1 → inv w wp c rb None w1.
Proof.
  intros Hwf [Hwp Hlive] Hrun.
  assert (wp < brk w)%positive as Hlt by (apply Hwf; by eexists).
  destruct rb as [old|]; run_in Hrun.
  - destruct (Hlive old eq_refl) as (cap & text & Hblk). rewrite Hblk in Hrun. run_in Hrun.
    assert (old ≠ wp) as Hne by congruence.
    rewrite lookup_delete_ne, Hwp in Hrun by done. injection Hrun as <-.
    split; [|done]. unfold core; simpl. split_and!; try done; try lia.
    + intros a [x Ha]. simpl in *. apply Hwf. map_cases Ha; by eexists.
    + by rewrite lookup_insert_eq.
    + intros b [= <-]. split_and!; [apply Hwf; by eexists| |by eexists].
      by rewrite lookup_insert_ne, lookup_delete_eq.
    + eauto.
    + intros x ? _ ?. rewrite lookup_insert_ne, lookup_delete_ne by congruence. done.
  - injection Hrun as <-. split; [|done]. unfold core. split_and!; try done; try lia.
    exists []. by rewrite app_nil_r.
Qed.

(** Worlds that differ from [w] in the engine state and by further
    events keep the invariant. *)
Lemma core_quiet w0 wp c old rb w w' :
  core w0 wp c old rb w →
  heap w' = heap w → (brk w ≤ brk w')%positive → (∃ t, trace w' = trace w ++ t) →
  core w0 wp c old rb w'.
Proof.
  intros (Hwf0 & Hwf & Hwp & Hbrk & Hh & Hrb & Hold & [t Ht] & Hfr) Heq Hb [t' Ht'].
  unfold core, heap_wf. rewrite Heq, Ht', Ht. split_and!; try done.
  - intros a Ha. specialize (Hwf a Ha). lia.
  - lia.
  - intros b Hb'. destruct (Hold b Hb') as (? & ? & t0 & Ht0).
    split_and!; try done. rewrite Ht in Ht0. apply app_inv_head in Ht0 as ->.
    rewrite <- app_assoc. simpl. eauto.
  - rewrite <- app_assoc. eauto.
Qed.

Lemma inv_quiet w0 wp c old rb w w' :
  inv w0 wp c old rb w →
  heap w' = heap w → (brk w ≤ brk w')%positive → (∃ t, trace w' = trace w ++ t) →
  inv w0 wp c old rb w'.
Proof.
  intros [Hc Hl] Heq Hb Ht. split; [by eapply core_quiet|]. by rewrite Heq.
Qed.

Lemma return_copy_inv w0 wp c old rb w msg r w' :
  core w0 wp c old rb w → (∀ b, rb = Some b → heap w !! b = None) →
  return_copy wp msg w = Ok r w' →
  ∃ rb', inv w0 wp c old rb' w' ∧ r = cptr_of rb'
         ∧ ∀ b, rb' = Some b →
             heap w' !! b = Some (BChars (Z.of_nat (String.length msg) + 1) msg).
Proof.
  intros (Hwf0 & Hwf & Hwp & Hbrk & Hh & Hrb & Hold & [t Ht] & Hfr) Hdead Hrun.
  assert (heap w !! brk w = None) as Hfresh.
  { apply eq_None_not_Some. intros H%Hwf. lia. }
  assert (∀ b, rb = Some b → heap w0 !! b = None) as Hdead0.
  { intros b Hb. apply eq_None_not_Some. intros H%Hwf0. specialize (Hrb b Hb). lia. }
  run_in Hrun. destruct (next_grant (grants w)) as [[] g]; run_in Hrun.
  - rewrite lookup_insert_ne, Hh in Hrun by lia. injection Hrun as <- <-.
    exists (Some (brk w)). split_and!; [split; [unfold core; simpl; split_and!|]|done|].
    + done.
    + intros a [x Ha]. simpl in *. map_cases Ha; try lia.
      assert (a < brk w)%positive by (apply Hwf; by eexists). lia.
    + done.
    + lia.
    + by rewrite lookup_insert_eq.
    + intros b [= <-]. lia.
    + intros b Hb. destruct (Hold b Hb) as (? & ? & t0 & Ht0).
      split_and!; [done| |].
      * map_cases_goal; try lia. done.
      * rewrite Ht in Ht0. apply app_inv_head in Ht0 as ->.
        rewrite Ht, <- !app_assoc. simpl. eauto.
    + rewrite Ht, <- !app_assoc. eauto.
    + intros x ? ? ?. map_cases_goal; try done.
      destruct (decide (rb = Some x)) as [Hx|Hx].
      * by rewrite (Hdead x Hx), (Hdead0 x Hx).
      * by apply Hfr.
    + simpl. intros b [= <-]. map_cases_goal; try lia. eauto.
    + simpl. intros b [= <-]. map_cases_goal; try lia. done.
  - rewrite Hh in Hrun. injection Hrun as <- <-.
    exists None. split_and!; [split; [unfold core; simpl; split_and!|]|done|done].
    + done.
    + intros a [x Ha]. simpl in *. map_cases Ha; try lia. apply Hwf. by eexists.
    + done.
    + lia.
    + by rewrite lookup_insert_eq.
    + done.
    + intros b Hb. destruct (Hold b Hb) as (? & ? & t0 & Ht0).
      split_and!; [done| |].
      * map_cases_goal; try lia. done.
      * rewrite Ht in Ht0. apply app_inv_head in Ht0 as ->.
        rewrite Ht, <- !app_assoc. simpl. eauto.
    + rewrite Ht, <- !app_assoc. eauto.
    + intros x ? ? ?. map_cases_goal; try done.
      destruct (decide (rb = Some x)) as [Hx|Hx].
      * by rewrite (Hdead x Hx), (Hdead0 x Hx).
      * by apply Hfr.
    + done.
Qed.

Lemma bind_Ok_inv {A B} (m : M (@world F E) A) (k : A → M (@world F E) B) w r w' :
  (m ≫= k) w = Ok r w' → ∃ a w1, m w = Ok a w1 ∧ k a w1 = Ok r w'.
Proof.
  unfold mbind, M_bind. destruct (m w) as [a w1|]; [|done]. eauto.
Qed.

Lemma strcat_inv w0 wp c old b w s w' :
  core w0 wp c old (Some b) w → strcat b s w = Ok () w' →
  inv w0 wp c old (Some b) w'.
Proof.
  intros (Hwf0 & Hwf & Hwp & Hbrk & Hh & Hrb & Hold & [t Ht] & Hfr) Hrun.
  specialize (Hrb b eq_refl).
  run_in Hrun. destruct (heap w !! b) as [[]|] eqn:Hb; try done.
  destruct (_ <=? cap); [|done]. injection Hrun as <-.
  split; [unfold core; simpl; split_and!|]; try done.
  - intros a [x Ha]. simpl in *. map_cases Ha; apply Hwf; by eexists.
  - rewrite lookup_insert_ne by lia. done.
  - by intros ? [= <-].
  - intros b' Hb'. destruct (Hold b' Hb') as (? & ? & ?).
    split_and!; try done. rewrite lookup_insert_ne by lia. done.
  - eauto.
  - intros x ? ? ?. rewrite lookup_insert_ne by congruence. by apply Hfr.
  - simpl. intros ? [= <-]. rewrite lookup_insert_eq. eauto.
Qed.

Lemma realloc_moved_inv w0 wp c old b w size q w1 w2 :
  inv w0 wp c old (Some b) w →
  realloc b size w = Ok (Some q) w1 →
  store_result_buffer wp (Some q) w1 = Ok () w2 →
  core w0 wp c old (Some q) w2.
Proof.
  intros [(Hwf0 & Hwf & Hwp & Hbrk & Hh & Hrb & Hold & [t Ht] & Hfr) Hl] Hrun Hst.
  specialize (Hrb b eq_refl). destruct (Hl b eq_refl) as (cap & text & Hb).
  assert (heap w !! brk w = None) as Hfresh.
  { apply eq_None_not_Some. intros H%Hwf. lia. }
  assert (b < brk w)%positive as Hblt by (apply Hwf; by eexists).
  assert (heap w0 !! b = None) as Hb0.
  { apply eq_None_not_Some. intros H%Hwf0. lia. }
  run_in Hrun. rewrite Hb in Hrun. run_in Hrun.
  destruct (next_grant (grants w)) as [[] g]; run_in Hrun; [|done].
  injection Hrun as <- <-. run_in Hst.
  rewrite lookup_delete_ne, lookup_insert_ne, Hh in Hst by lia.
  injection Hst as <-.
  unfold core; simpl; split_and!; try done.
  - intros a [x Ha]. simpl in *. map_cases Ha; try lia.
    assert (a < brk w)%positive by (apply Hwf; by eexists). lia.
  - lia.
  - by rewrite lookup_insert_eq.
  - intros ? [= <-]. lia.
  - intros b' Hb'. destruct (Hold b' Hb') as (? & ? & t0 & Ht0).
    split_and!; [done| |].
    + map_cases_goal; try lia; done.
    + rewrite Ht in Ht0. apply app_inv_head in Ht0 as ->.
      rewrite Ht, <- !app_assoc. simpl. eauto.
  - rewrite Ht, <- !app_assoc. eauto.
  - intros x ? ? ?. map_cases_goal; try done. apply Hfr; congruence.
Qed.

Lemma realloc_denied_inv w0 wp c old b w size w1 w2 :
  inv w0 wp c old (Some b) w →
  realloc b size w = Ok None w1 →
  free b w1 = Ok () w2 →
  core w0 wp c old (Some b) w2 ∧ heap w2 !! b = None.
Proof.
  intros [(Hwf0 & Hwf & Hwp & Hbrk & Hh & Hrb & Hold & [t Ht] & Hfr) Hl] Hrun Hfree.
  specialize (Hrb b eq_refl). destruct (Hl b eq_refl) as (cap & text & Hb).
  assert (b < brk w)%positive as Hblt by (apply Hwf; by eexists).
  run_in Hrun. rewrite Hb in Hrun. run_in Hrun.
  destruct (next_grant (grants w)) as [[] g]; run_in Hrun; [done|].
  injection Hrun as <-. run_in Hfree. rewrite Hb in Hfree. injection Hfree as <-.
  split; [|simpl; by rewrite lookup_delete_eq].
  unfold core; simpl; split_and!; try done.
  - intros a [x Ha]. simpl in *. map_cases Ha. apply Hwf; by eexists.
  - rewrite lookup_delete_ne by lia. done.
  - by intros ? [= <-].
  - intros b' Hb'. destruct (Hold b' Hb') as (? & ? & t0 & Ht0).
    split_and!; [done| |].
    + map_cases_goal; done.
    + rewrite Ht in Ht0. apply app_inv_head in Ht0 as ->.
      rewrite Ht, <- !app_assoc. simpl. eauto.
  - rewrite Ht, <- !app_assoc. eauto.
  - intros x ? ? ?. rewrite lookup_delete_ne by congruence. by apply Hfr.
Qed.

Lemma segments_loop_inv w0 wp c old n todo :
  ∀ bs rb w r w',
    inv w0 wp c old rb w →
    segments_loop eng wp c n todo bs w = Ok r w' →
    ∃ rb', inv w0 wp c old rb' w' ∧ r = cptr_of rb'.
Proof.
  induction todo as [|i rest IH]; intros bs rb w r w' Hinv Hrun.
  - simpl in Hrun. run_in Hrun.
    destruct Hinv as [Hc Hl]. pose proof Hc as (_ & _ & _ & _ & Hh & _).
    rewrite Hh in Hrun. injection Hrun as <- <-. exists rb. by split.
  - simpl in Hrun.
    apply bind_Ok_inv in Hrun as (seg & wa & Hseg & Hrun).
    assert (inv w0 wp c old rb wa) as Hinva.
    { run_in Hseg. injection Hseg as <- <-. eapply inv_quiet; [done|done|simpl; lia|simpl; eauto]. }
    clear Hinv Hseg.
    apply bind_Ok_inv in Hrun as ([c' rb'] & wb & Hload & Hrun).
    assert (wb = wa ∧ rb' = rb) as [-> ->].
    { destruct Hinva as [(_ & _ & _ & _ & Hh & _) _].
      run_in Hload. rewrite Hh in Hload. by injection Hload as <- <- <-. }
    clear Hload. destruct rb as [b|]; [|done].
    apply bind_Ok_inv in Hrun as (len & wb & Hlen & Hrun).
    assert (wb = wa) as ->.
    { run_in Hlen. destruct (heap wa !! b) as [[]|]; try done. by injection Hlen as <- <-. }
    clear Hlen.
    apply bind_Ok_inv in Hrun as (t & wb & Ht & Hrun).
    assert (wb = wa) as ->.
    { run_in Ht. destruct (in_int _); [|done]. by injection Ht as <- <-. }
    clear Ht.
    apply bind_Ok_inv in Hrun as (need & wb & Hneed & Hrun).
    assert (wb = wa) as ->.
    { run_in Hneed. destruct (in_int _); [|done]. by injection Hneed as <- <-. }
    clear Hneed.
    assert (∀ b' bs' wc,
      core w0 wp c old (Some b') wc →
      (strcat b' seg ≫= λ _,
         (if i <? n - 1 then strcat b' " " else mret ()) ≫= λ _,
           segments_loop eng wp c n rest bs') wc = Ok r w' →
      ∃ rb', inv w0 wp c old rb' w' ∧ r = cptr_of rb') as Happend.
    { intros b' bs' wc Hc Happ.
      apply bind_Ok_inv in Happ as ([] & wd & Hcat & Happ).
      pose proof (strcat_inv _ _ _ _ _ _ _ _ Hc Hcat) as Hinvd.
      apply bind_Ok_inv in Happ as ([] & we & Hsp & Happ).
      destruct (i <? n - 1).
      - pose proof (strcat_inv _ _ _ _ _ _ _ _ (proj1 Hinvd) Hsp) as Hinve.
        by eapply IH.
      - injection Hsp as <-. by eapply IH. }
    destruct (need >? bs).
    + apply bind_Ok_inv in Hrun as (bs' & wb & Hmul & Hrun).
      assert (wb = wa) as ->.
      { run_in Hmul. destruct (in_int _); [|done]. by injection Hmul as <- <-. }
      clear Hmul.
      apply bind_Ok_inv in Hrun as (nb & wb & Hre & Hrun).
      destruct nb as [q|].
      * apply bind_Ok_inv in Hrun as ([] & wc & Hst & Hrun).
        eapply Happend; [|exact Hrun].
        by eapply realloc_moved_inv.
      * apply bind_Ok_inv in Hrun as ([] & wc & Hfree & Hrun).
        destruct (realloc_denied_inv _ _ _ _ _ _ _ _ _ Hinva Hre Hfree) as [Hc Hdead].
        destruct (return_copy_inv _ _ _ _ _ _ _ _ _ Hc ltac:(by intros ? [= <-]) Hrun)
          as (rb' & ? & ? & _).
        eauto.
    + eapply Happend; [|exact Hrun]. apply Hinva.
Qed.

End CallInvariant.

Section CallPost.
Context {F E CP : Type}.
Variable fo : float_ops F.
Variable eng : whisper_engine F E CP.
Implicit Types w : @world F E.

Lemma malloc_result_inv w0 wp c old w size b w1 w2 w3 :
  inv w0 wp c old None w →
  malloc size w = Ok (Some b) w1 →
  store_result_buffer wp (Some b) w1 = Ok () w2 →
  store_nul b w2 = Ok () w3 →
  inv w0 wp c old (Some b) w3.
Proof.
  intros [(Hwf0 & Hwf & Hwp & Hbrk & Hh & Hrb & Hold & [t Ht] & Hfr) _] Hm Hst Hnul.
  assert (heap w !! brk w = None) as Hfresh.
  { apply eq_None_not_Some. intros H%Hwf. lia. }
  run_in Hm. destruct (next_grant (grants w)) as [[] g]; run_in Hm; [|done].
  injection Hm as <- <-. run_in Hst. rewrite lookup_insert_ne, Hh in Hst by lia.
  injection Hst as <-. run_in Hnul.
  rewrite lookup_insert_ne, lookup_insert_eq in Hnul by lia.
  destruct (1 <=? size); [|done]. injection Hnul as <-.
  split; [unfold core; simpl; split_and!|]; try done.
  - intros a [x Ha]. simpl in *. map_cases Ha; try lia.
    assert (a < brk w)%positive by (apply Hwf; by eexists). lia.
  - lia.
  - rewrite lookup_insert_ne, lookup_insert_eq by lia. done.
  - intros ? [= <-]. lia.
  - intros b' Hb'. destruct (Hold b' Hb') as (? & ? & t0 & Ht0).
    split_and!; [done| |].
    + map_cases_goal; try lia; done.
    + rewrite Ht in Ht0. apply app_inv_head in Ht0 as ->.
      rewrite Ht, <- !app_assoc. simpl. eauto.
  - rewrite Ht, <- !app_assoc. eauto.
  - intros x ? ? ?. map_cases_goal; try done. by apply Hfr.
  - simpl. intros ? [= <-]. rewrite lookup_insert_eq. eauto.
Qed.

Lemma malloc_denied_inv w0 wp c old w size w1 w2 :
  inv w0 wp c old None w →
  malloc size w = Ok None w1 →
  store_result_buffer wp None w1 = Ok () w2 →
  inv w0 wp c old None w2.
Proof.
  intros [(Hwf0 & Hwf & Hwp & Hbrk & Hh & Hrb & Hold & [t Ht] & Hfr) _] Hm Hst.
  run_in Hm. destruct (next_grant (grants w)) as [[] g]; run_in Hm; [done|].
  injection Hm as <-. run_in Hst. rewrite Hh in Hst. injection Hst as <-.
  split; [unfold core; simpl; split_and!|]; try done.
  - intros a [x Ha]. simpl in *. map_cases Ha; apply Hwf; by eexists.
  - by rewrite lookup_insert_eq.
  - intros b' Hb'. destruct (Hold b' Hb') as (? & ? & t0 & Ht0).
    split_and!; [done| |].
    + map_cases_goal; try lia; done.
    + rewrite Ht in Ht0. apply app_inv_head in Ht0 as ->.
      rewrite Ht, <- !app_assoc. simpl. eauto.
  - rewrite Ht, <- !app_assoc. eauto.
  - intros x ? ? ?. map_cases_goal; try done. by apply Hfr.
Qed.

Lemma collect_segments_inv w0 wp c old w r w' :
  inv w0 wp c old None w →
  collect_segments eng wp c w = Ok r w' →
  call_post w0 wp c old r w'.
Proof.
  intros Hinv Hrun. unfold collect_segments in Hrun.
  apply bind_Ok_inv in Hrun as (n & wa & Hn & Hrun).
  assert (inv w0 wp c old None wa) as Hinva.
  { run_in Hn. injection Hn as <- <-. eapply inv_quiet; [done|done|simpl; lia|simpl; eauto]. }
  clear Hinv Hn. destruct (n <=? 0).
  - destruct (return_copy_inv _ _ _ _ _ _ _ _ _ (proj1 Hinva) ltac:(done) Hrun)
      as (rb' & ? & ? & _).
    exists rb'. eauto.
  - apply bind_Ok_inv in Hrun as (p & wb & Hm & Hrun).
    apply bind_Ok_inv in Hrun as ([] & wc & Hst & Hrun).
    destruct p as [b|].
    + apply bind_Ok_inv in Hrun as ([] & wd & Hnul & Hrun).
      pose proof (malloc_result_inv _ _ _ _ _ _ _ _ _ _ Hinva Hm Hst Hnul) as Hinvd.
      destruct (segments_loop_inv eng _ _ _ _ _ _ _ _ _ _ _ Hinvd Hrun) as (rb' & ? & ?).
      exists rb'. eauto.
    + injection Hrun as <- <-. exists None. split; [|by right].
      by eapply malloc_denied_inv.
Qed.

Lemma transcribe_pcm_inv w wp c rb pcm n lang r w' :
  heap_wf w → loaded_handle w wp c rb → 0 < n →
  whisper_wrapper_transcribe_pcm_with_lang eng (Some wp) (Some pcm) n lang w = Ok r w' →
  call_post w wp c rb r w'.
Proof.
  intros Hwf Hh Hn Hrun. unfold whisper_wrapper_transcribe_pcm_with_lang in Hrun.
  apply bind_Ok_inv in Hrun as ([c' rb'] & wa & Hload & Hrun).
  assert (wa = w ∧ c' = Some c ∧ rb' = rb) as (-> & -> & ->).
  { destruct Hh as [Hh _]. run_in Hload. rewrite Hh in Hload.
    by injection Hload as <- <- <-. }
  clear Hload. destruct (Z.leb_spec n 0); [lia|].
  apply bind_Ok_inv in Hrun as ([] & w1 & Hrel & Hrun).
  pose proof (release_result_inv _ _ _ _ _ Hwf Hh Hrel) as Hinv.
  apply bind_Ok_inv in Hrun as (st & w2 & Hfull & Hrun).
  assert (inv w wp c rb None w2) as Hinv2.
  { run_in Hfull. destruct (whisper_full _ _ _ _ _ _) as [st' e'].
    run_in Hfull. injection Hfull as <- <-. eapply inv_quiet; [done|done|simpl; lia|simpl; eauto]. }
  destruct (negb (st =? 0)).
  - destruct (return_copy_inv _ _ _ _ _ _ _ _ _ (proj1 Hinv2) ltac:(done) Hrun)
      as (rb' & ? & ? & _).
    exists rb'. eauto.
  - by eapply collect_segments_inv.
Qed.

Lemma transcribe_file_inv w wp c rb path lang r w' :
  heap_wf w → loaded_handle w wp c rb →
  whisper_wrapper_transcribe_with_lang fo eng (Some wp) (Some path) lang w = Ok r w' →
  call_post w wp c rb r w'.
Proof.
  intros Hwf Hh Hrun. unfold whisper_wrapper_transcribe_with_lang in Hrun.
  apply bind_Ok_inv in Hrun as ([c' rb'] & wa & Hload & Hrun).
  assert (wa = w ∧ c' = Some c ∧ rb' = rb) as (-> & -> & ->).
  { destruct Hh as [Hh _]. run_in Hload. rewrite Hh in Hload.
    by injection Hload as <- <- <-. }
  clear Hload.
  apply bind_Ok_inv in Hrun as ([] & w1 & Hrel & Hrun).
  pose proof (release_result_inv _ _ _ _ _ Hwf Hh Hrel) as Hinv.
  apply bind_Ok_inv in Hrun as ([ok o] & w2 & Hdec & Hrun).
  pose proof Hinv as [(Hwf0 & Hwf1 & Hwp & Hbrk & Hhw & Hrb & Hold & [t Ht] & Hfr) _].
  destruct (read_wav_file_total fo path wav_out0 w1 Hwf1) as (r2 & w2' & Hdec' & Hpost).
  unfold wav_out0 in Hdec'. rewrite Hdec in Hdec'. injection Hdec' as <- <-.
  destruct Hpost as (Hfs & He & [t2 Ht2] & Hbrk2 & Hheap). simpl in Hheap.
  destruct ok; simpl in Hrun.
  - destruct Hheap as (a & out & Hpcm & Ha1 & Ha2 & Hheap & _).
    apply bind_Ok_inv in Hrun as (pcm & w3 & Hld & Hrun).
    assert (w3 = w2) as ->.
    { run_in Hld. destruct (o_pcm o); [|done].
      destruct (heap w2 !! _) as [[]|]; try done. by injection Hld as <- <-. }
    clear Hld.
    apply bind_Ok_inv in Hrun as (st & w3 & Hfull & Hrun).
    rewrite Hpcm in Hrun.
    assert (∀ w4, free a w3 = Ok () w4 → inv w wp c rb None w4) as Hfree.
    { intros w4 Hf. run_in Hfull. destruct (whisper_full _ _ _ _ _ _) as [st' e'].
      run_in Hfull. injection Hfull as <- <-. run_in Hf. rewrite Hheap in Hf.
      rewrite lookup_insert_eq in Hf. injection Hf as <-.
      assert (heap w1 !! a = None) as Hfresh.
      { apply eq_None_not_Some. intros H%Hwf1. lia. }
      eapply (inv_quiet _ _ _ _ _ w1); [done|simpl..].
      - rewrite delete_insert_eq. by apply delete_id.
      - done.
      - rewrite Ht2, <- !app_assoc. eauto. }
    destruct (negb (st =? 0)).
    + apply bind_Ok_inv in Hrun as ([] & w4 & Hf & Hrun).
      destruct (return_copy_inv _ _ _ _ _ _ _ _ _ (proj1 (Hfree _ Hf)) ltac:(done) Hrun)
        as (rb' & ? & ? & _).
      exists rb'. eauto.
    + apply bind_Ok_inv in Hrun as ([] & w4 & Hf & Hrun).
      eapply collect_segments_inv; [|exact Hrun]. by apply Hfree.
  - assert (inv w wp c rb None w2) as Hinv2.
    { eapply inv_quiet; [done|done|done|eauto]. }
    destruct (return_copy_inv _ _ _ _ _ _ _ _ _ (proj1 Hinv2) ltac:(done) Hrun)
      as (rb' & ? & ? & _).
    exists rb'. eauto.
Qed.

End CallPost.

(** ** Calls with a definite result *)

Section DefiniteCalls.
Context {F E CP : Type}.
Variable fo : float_ops F.
Variable eng : whisper_engine F E CP.
Implicit Types w : @world F E.

Lemma bind_Ok {A B} (m : M (@world F E) A) (k : A → M (@world F E) B) w a w1 :
  m w = Ok a w1 → (m ≫= k) w = k a w1.
Proof. intros H. unfold mbind, M_bind. by rewrite H. Qed.

Lemma release_result_run w wp c rb :
  heap_wf w → loaded_handle w wp c rb →
  ∃ w1, release_result wp rb w = Ok () w1 ∧ inv w wp c rb None w1 ∧ same_env w w1.
Proof.
  intros Hwf Hh.
  assert (∃ w1, release_result wp rb w = Ok () w1 ∧ same_env w w1) as (w1 & Hrun & Henv).
  { destruct Hh as [Hwp Hlive]. destruct rb as [old|]; run.
    - destruct (Hlive old eq_refl) as (cap & text & Hblk). rewrite Hblk. run.
      assert (old ≠ wp) by congruence.
      rewrite lookup_delete_ne, Hwp by done. by eexists.
    - by eexists. }
  exists w1. split_and!; try done. by eapply release_result_inv.
Qed.

Lemma return_copy_run w0 wp c old rb w msg :
  core w0 wp c old rb w → (∀ b, rb = Some b → heap w !! b = None) →
  granted 1 (grants w) = true →
  ∃ a w', return_copy wp msg w = Ok (CHeap a) w'
          ∧ inv w0 wp c old (Some a) w'
          ∧ heap w' !! a = Some (BChars (Z.of_nat (String.length msg) + 1) msg).
Proof.
  intros Hc Hdead Hg.
  assert (∃ w', return_copy wp msg w = Ok (CHeap (brk w)) w') as [w' Hrun].
  { destruct Hc as (_ & Hwf & _ & _ & Hh & _).
    apply granted_S in Hg as [Hg _]. run. rewrite Hg. run.
    assert (wp < brk w)%positive by (apply Hwf; by eexists).
    rewrite lookup_insert_ne, Hh by lia. by eexists. }
  destruct (return_copy_inv _ _ _ _ _ _ _ _ _ Hc Hdead Hrun) as (rb' & Hinv & Hr & Ht).
  destruct rb' as [a|]; [|done]. injection Hr as <-.
  exists (brk w), w'. split_and!; try done. by apply Ht.
Qed.

Lemma call_full_run c params pcm n w st e' :
  whisper_full eng c params pcm n (engine_state w) = (st, e') →
  ∃ w', call_full eng c params pcm n w = Ok st w'
        ∧ heap w' = heap w ∧ brk w' = brk w ∧ grants w' = grants w ∧ fs w' = fs w
        ∧ engine_state w' = e' ∧ ∃ t, trace w' = trace w ++ t.
Proof.
  intros H. unfold call_full. rewrite H. run. eexists. split; [done|].
  simpl. split_and!; eauto.
Qed.

Lemma call_n_segments_run c w :
  ∃ w', call_n_segments eng c w = Ok (whisper_full_n_segments eng c (engine_state w)) w'
        ∧ heap w' = heap w ∧ brk w' = brk w ∧ grants w' = grants w ∧ fs w' = fs w
        ∧ engine_state w' = engine_state w ∧ ∃ t, trace w' = trace w ++ t.
Proof. run. eexists. split; [done|]. simpl. split_and!; eauto. Qed.

Lemma inv_result w0 wp c old a w cap text :
  inv w0 wp c old (Some a) w → heap w !! a = Some (BChars cap text) →
  text_at w (CHeap a) = Some text ∧ handle_result w (Some wp) = Some a
  ∧ ∀ x, (brk w0 ≤ x)%positive → is_Some (heap w !! x) → x = a.
Proof.
  intros [(Hwf0 & Hwf & Hwp & Hbrk & Hh & Hrb & Hold & _ & Hfr) _] Ha.
  split_and!.
  - simpl. by rewrite Ha.
  - unfold handle_result, handle_at. simpl. by rewrite Hh.
  - intros x Hx Hlive. destruct (decide (x = a)) as [|Hne]; [done|].
    rewrite Hfr in Hlive.
    + apply Hwf0 in Hlive. lia.
    + lia.
    + congruence.
    + intros ->. destruct (Hold x eq_refl) as [? _]. lia.
Qed.

Lemma granted_drop (n m : nat) (g : list bool) :
  granted (n + m) g = true → granted n g = true ∧ granted m (drop n g) = true.
Proof.
  revert g. induction n as [|n IH]; intros g Hg; [done|].
  simpl in Hg. apply granted_S in Hg as [Hn Hg].
  destruct (IH _ Hg) as [H1 H2]. rewrite drop_drop in H2. split; [|done].
  destruct g as [|[] g]; try done.
Qed.

(** The PCM entry point up to the return of the engine. *)
Lemma transcribe_pcm_prefix w wp c rb pcm n lang st e' :
  heap_wf w → loaded_handle w wp c rb → 0 < n →
  whisper_full eng c
    (set_streaming (setup_params (whisper_full_default_params eng WHISPER_SAMPLING_GREEDY) lang))
    pcm n (engine_state w) = (st, e') →
  ∃ w2, whisper_wrapper_transcribe_pcm_with_lang eng (Some wp) (Some pcm) n lang w
        = (if negb (st =? 0) then return_copy wp msg_process
           else collect_segments eng wp c) w2
        ∧ inv w wp c rb None w2 ∧ grants w2 = grants w ∧ engine_state w2 = e'.
Proof.
  intros Hwf Hh Hn Hfull. unfold whisper_wrapper_transcribe_pcm_with_lang.
  rewrite (bind_Ok _ _ _ _ _ (load_wrapper_at _ _ _ _ (proj1 Hh))). simpl.
  destruct (Z.leb_spec n 0); [lia|].
  destruct (release_result_run w wp c rb Hwf Hh) as (w1 & Hrel & Hinv & Hg1 & Hfs1 & He1).
  rewrite (bind_Ok _ _ _ _ _ Hrel).
  rewrite <- He1 in Hfull.
  destruct (call_full_run _ _ _ _ _ _ _ Hfull) as (w2 & Hcall & Hh2 & Hb2 & Hg2 & _ & He2 & Ht2).
  rewrite (bind_Ok _ _ _ _ _ Hcall).
  exists w2. split_and!; [done| |congruence|done].
  eapply inv_quiet; [done|done|lia|done].
Qed.

(** The file entry point up to the release of the decoded samples. *)
Lemma transcribe_file_prefix w wp c rb path bytes pcm n rate lang st e' :
  heap_wf w → loaded_handle w wp c rb →
  fs w path = Some bytes → wav_decode fo bytes = Some (pcm, n, rate) →
  granted 2 (grants w) = true →
  whisper_full eng c
    (setup_params (whisper_full_default_params eng WHISPER_SAMPLING_GREEDY) lang)
    pcm n (engine_state w) = (st, e') →
  ∃ w4, whisper_wrapper_transcribe_with_lang fo eng (Some wp) (Some path) lang w
        = (if negb (st =? 0) then return_copy wp msg_process
           else collect_segments eng wp c) w4
        ∧ inv w wp c rb None w4 ∧ grants w4 = drop 2 (grants w) ∧ engine_state w4 = e'.
Proof.
  intros Hwf Hh Hfs Hdec Hg Hfull. unfold whisper_wrapper_transcribe_with_lang.
  rewrite (bind_Ok _ _ _ _ _ (load_wrapper_at _ _ _ _ (proj1 Hh))). simpl.
  destruct (release_result_run w wp c rb Hwf Hh) as (w1 & Hrel & Hinv & Hg1 & Hfs1 & He1).
  rewrite (bind_Ok _ _ _ _ _ Hrel).
  pose proof Hinv as [(_ & Hwf1 & _) _].
  rewrite <- Hfs1 in Hfs. rewrite <- Hg1 in Hg.
  destruct (read_wav_file_decode fo w1 path bytes wav_out0 pcm n rate Hfs Hdec Hwf1 Hg)
    as (w2 & t2 & Hrun2 & Hh2 & Hb2 & Hg2 & Hfs2 & He2 & Ht2).
  unfold wav_out0 in Hrun2. rewrite (bind_Ok _ _ _ _ _ Hrun2). simpl.
  assert (load_floats (Some (brk w1)) w2 = Ok pcm w2) as Hld.
  { unfold load_floats. by rewrite Hh2, lookup_insert_eq. }
  rewrite (bind_Ok _ _ _ _ _ Hld).
  rewrite <- He1, <- He2 in Hfull.
  destruct (call_full_run _ _ _ _ _ _ _ Hfull) as (w3 & Hcall & Hh3 & Hb3 & Hg3 & _ & He3 & Ht3).
  rewrite (bind_Ok _ _ _ _ _ Hcall).
  assert (∃ w4, free (brk w1) w3 = Ok () w4 ∧ heap w4 = heap w1 ∧ brk w4 = brk w3
                ∧ grants w4 = grants w3 ∧ engine_state w4 = engine_state w3
                ∧ ∃ t, trace w4 = trace w3 ++ t) as (w4 & Hfree & Hh4 & Hb4 & Hg4 & He4 & Ht4).
  { run. rewrite Hh3, Hh2, lookup_insert_eq. eexists. split; [done|]. simpl.
    split_and!; eauto. rewrite delete_insert_eq. apply delete_id.
    apply eq_None_not_Some. intros H%Hwf1. lia. }
  exists w4. split_and!.
  - destruct (negb (st =? 0)); by rewrite (bind_Ok _ _ _ _ _ Hfree).
  - eapply inv_quiet; [done|done|lia|].
    destruct Ht3 as [t3 Ht3], Ht4 as [t4 Ht4].
    rewrite Ht4, Ht3, Ht2, <- !app_assoc. eauto.
  - congruence.
  - congruence.
Qed.

(** The result of a call that ends in [return_copy]. *)
Lemma return_copy_result w0 wp c old w2 msg :
  inv w0 wp c old None w2 → granted 1 (grants w2) = true →
  ∃ a w', return_copy wp msg w2 = Ok (CHeap a) w'
          ∧ text_at w' (CHeap a) = Some msg
          ∧ handle_result w' (Some wp) = Some a
          ∧ ∀ x, (brk w0 ≤ x)%positive → is_Some (heap w' !! x) → x = a.
Proof.
  intros Hinv Hg.
  destruct (return_copy_run w0 wp c old None w2 msg (proj1 Hinv))
    as (a & w' & Hrun & Hinv' & Ha); [done|done|].
  exists a, w'. split; [done|]. by eapply inv_result.
Qed.

Lemma collect_no_speech w0 wp c old w2 :
  inv w0 wp c old None w2 → granted 1 (grants w2) = true →
  whisper_full_n_segments eng c (engine_state w2) ≤ 0 →
  ∃ a w', collect_segments eng wp c w2 = Ok (CHeap a) w'
          ∧ text_at w' (CHeap a) = Some msg_no_speech
          ∧ handle_result w' (Some wp) = Some a
          ∧ ∀ x, (brk w0 ≤ x)%positive → is_Some (heap w' !! x) → x = a.
Proof.
  intros Hinv Hg Hn. unfold collect_segments.
  destruct (call_n_segments_run c w2) as (w3 & Hcall & Hh3 & Hb3 & Hg3 & _ & _ & Ht3).
  rewrite (bind_Ok _ _ _ _ _ Hcall).
  apply Z.leb_le in Hn. rewrite Hn.
  apply (return_copy_result w0 wp c old); [|congruence].
  eapply inv_quiet; [done|done|lia|done].
Qed.

End DefiniteCalls.

Lemma wrap_small (z : Z) : 0 ≤ z ≤ 2147483647 → wrap 32 z = z.
Proof.
  intros H. unfold wrap. change (2 ^ (32 - 1)) with 2147483648.
  change (2 ^ 32) with 4294967296. rewrite Z.mod_small by lia. lia.
Qed.

Section Failures.
Context {F E CP : Type}.
Variable fo : float_ops F.
Variable eng : whisper_engine F E CP.
Implicit Types w : @world F E.

Lemma transcribe_file_corrupt w wp c rb path bytes lang :
  heap_wf w → loaded_handle w wp c rb →
  fs w path = Some bytes →
  (length bytes < 44)%nat ∨ take 4 bytes ≠ tag_RIFF ∨ take 4 (drop 8 bytes) ≠ tag_WAVE →
  granted 1 (grants w) = true →
  ∃ a w', whisper_wrapper_transcribe_with_lang fo eng (Some wp) (Some path) lang w
          = Ok (CHeap a) w'
          ∧ text_at w' (CHeap a) = Some msg_load
          ∧ handle_result w' (Some wp) = Some a
          ∧ ∀ x, (brk w ≤ x)%positive → is_Some (heap w' !! x) → x = a.
Proof.
  intros Hwf Hh Hfs Hbad Hg. unfold whisper_wrapper_transcribe_with_lang.
  rewrite (bind_Ok _ _ _ _ _ (load_wrapper_at _ _ _ _ (proj1 Hh))). simpl.
  destruct (release_result_run w wp c rb Hwf Hh) as (w1 & Hrel & Hinv & Hg1 & Hfs1 & He1).
  rewrite (bind_Ok _ _ _ _ _ Hrel).
  pose proof Hinv as [(_ & Hwf1 & _) _].
  rewrite <- Hfs1 in Hfs.
  destruct (read_wav_file_bad_header fo w1 path bytes wav_out0 Hfs Hbad) as (w2 & Hrun2 & Hh2 & Hb2 & Hg2 & _).
  destruct (read_wav_file_total fo path wav_out0 w1 Hwf1) as (r2 & w2' & Hrun2' & Hpost).
  rewrite Hrun2 in Hrun2'. injection Hrun2' as <- <-.
  destruct Hpost as (_ & _ & Ht2 & _).
  unfold wav_out0 in Hrun2. rewrite (bind_Ok _ _ _ _ _ Hrun2). simpl.
  apply (return_copy_result w wp c rb); [|congruence].
  eapply inv_quiet; [done|done|lia|done].
Qed.

(** An iteration of the concatenation loop that needs a larger buffer
    and is refused it. *)
Lemma growth_failure w wp c n i rest bs b cap text g :
  heap_wf w →
  heap w !! wp = Some (BWrapper (Some c) (Some b)) →
  heap w !! b = Some (BChars cap text) →
  bs < Z.of_nat (String.length text)
       + Z.of_nat (String.length (whisper_full_get_segment_text eng c i (engine_state w))) + 2
     ≤ INT_MAX →
  0 < bs → 2 * bs ≤ INT_MAX →
  grants w = false :: true :: g →
  ∃ a w', segments_loop eng wp c n (i :: rest) bs w = Ok (CHeap a) w'
          ∧ text_at w' (CHeap a) = Some msg_alloc
          ∧ handle_result w' (Some wp) = Some a
          ∧ heap w' !! b = None.
Proof.
  intros Hwf Hwp Hb Hneed Hbs Hbs2 Hg. unfold INT_MAX in *.
  set (seg := whisper_full_get_segment_text eng c i (engine_state w)) in *.
  assert (b ≠ wp) as Hne by congruence.
  assert (b < brk w)%positive as Hblt by (apply Hwf; by eexists).
  assert (wp < brk w)%positive as Hwlt by (apply Hwf; by eexists).
  cbn [segments_loop]. run. fold seg. rewrite Hwp. run. rewrite Hb. run.
  rewrite !wrap_small by lia.
  assert (in_int (Z.of_nat (String.length text) + Z.of_nat (String.length seg)) = true) as ->.
  { unfold in_int, INT_MIN, INT_MAX. lia. }
  run.
  assert (in_int (Z.of_nat (String.length text) + Z.of_nat (String.length seg) + 2) = true) as ->.
  { unfold in_int, INT_MIN, INT_MAX. lia. }
  run.
  assert ((Z.of_nat (String.length text) + Z.of_nat (String.length seg) + 2 >? bs) = true) as ->.
  { lia. }
  assert (in_int (bs * 2) = true) as ->.
  { unfold in_int, INT_MIN, INT_MAX. lia. }
  run. rewrite ?Hb. run. rewrite Hg. cbn [next_grant]. run. rewrite ?Hb. run.
  cbn [next_grant]. run.
  rewrite lookup_insert_ne, lookup_delete_ne, Hwp by lia.
  eexists _, _. split; [done|]. simpl.
  split_and!.
  - by rewrite lookup_insert_ne, lookup_insert_eq by lia.
  - unfold handle_result, handle_at. simpl. by rewrite lookup_insert_eq.
  - by rewrite !lookup_insert_ne, lookup_delete_eq by lia.
Qed.

End Failures.

(** ** The concatenation loop on short segments *)

Lemma string_app_cons (a : ascii) (s t : string) :
  String a s +:+ t = String a (s +:+ t).
Proof. reflexivity. Qed.

Lemma string_app_length (s t : string) :
  String.length (s +:+ t) = (String.length s + String.length t)%nat.
Proof.
  induction s as [|a s IH]; [done|]. rewrite string_app_cons. simpl. by f_equal.
Qed.

Lemma string_app_assoc (s t u : string) : (s +:+ t) +:+ u = s +:+ (t +:+ u).
Proof.
  induction s as [|a s IH]; [done|]. rewrite !string_app_cons. by f_equal.
Qed.

Lemma string_app_nil_r (s : string) : s +:+ "" = s.
Proof. induction s as [|a s IH]; [done|]. rewrite string_app_cons. by f_equal. Qed.

Lemma loop_text_joined (seg : Z → string) (n : Z) (m : nat) (k : Z) :
  k + Z.of_nat m = n → (0 < m)%nat →
  loop_text seg n (seqZ k (Z.of_nat m)) = joined (seg <$> seqZ k (Z.of_nat m)).
Proof.
  revert k. induction m as [|m IH]; intros k Hk Hm; [lia|].
  rewrite seqZ_cons by lia. replace (Z.pred (Z.of_nat (S m))) with (Z.of_nat m) by lia.
  destruct m as [|m].
  - simpl. destruct (Z.ltb_spec k (n - 1)); [lia|]. by rewrite !string_app_nil_r.
  - cbn [loop_text fmap list_fmap]. rewrite IH by lia.
    destruct (Z.ltb_spec k (n - 1)); [|lia].
    rewrite (seqZ_cons (Z.succ k)) by lia. done.
Qed.

Section Concatenation.
Context {F E CP : Type}.
Variable fo : float_ops F.
Variable eng : whisper_engine F E CP.
Implicit Types w : @world F E.

Lemma segments_loop_joined wp c n (seg : Z → string) todo :
  ∀ bs w b text,
    heap_wf w →
    heap w !! wp = Some (BWrapper (Some c) (Some b)) →
    heap w !! b = Some (BChars bs text) →
    Z.of_nat (String.length text) + 1 ≤ bs → 16384 ≤ bs →
    Forall (eq true) (grants w) →
    (∀ i, whisper_full_get_segment_text eng c i (engine_state w) = seg i) →
    Forall (λ i, Z.of_nat (String.length (seg i)) < 16384) todo →
    Z.of_nat (String.length text) + Z.of_nat (String.length (loop_text seg n todo)) + 2
      ≤ 1073741824 →
    ∃ a bs' w',
      segments_loop eng wp c n todo bs w = Ok (CHeap a) w'
      ∧ heap w' !! a = Some (BChars bs' (text +:+ loop_text seg n todo))
      ∧ handle_result w' (Some wp) = Some a.
Proof.
  induction todo as [|i rest IH]; intros bs w b text Hwf Hwp Hb Hcap Hbs Hgr Hseg Hlen Htot.
  - cbn [segments_loop]. run. rewrite Hwp. run. exists b, bs, w.
    split_and!; [done| |].
    + simpl. by rewrite string_app_nil_r.
    + unfold handle_result, handle_at. simpl. by rewrite Hwp.
  - apply Forall_cons in Hlen as [Hi Hlen].
    cbn [loop_text] in Htot |- *. rewrite !string_app_length in Htot.
    set (sp := if i <? n - 1 then " " else "") in *.
    assert (Z.of_nat (String.length sp) ≤ 1) as Hsp.
    { subst sp. destruct (i <? n - 1); simpl; lia. }
    assert (b ≠ wp) as Hne by congruence.
    assert (b < brk w)%positive as Hblt by (apply Hwf; by eexists).
    assert (wp < brk w)%positive as Hwlt by (apply Hwf; by eexists).
    cbn [segments_loop]. run. rewrite Hseg, Hwp. run. rewrite ?Hb. run.
    rewrite !wrap_small by lia.
    assert (in_int (Z.of_nat (String.length text) + Z.of_nat (String.length (seg i))) = true)
      as ->.
    { unfold in_int, INT_MIN, INT_MAX. lia. }
    run.
    assert (in_int (Z.of_nat (String.length text) + Z.of_nat (String.length (seg i)) + 2)
            = true) as ->.
    { unfold in_int, INT_MIN, INT_MAX. lia. }
    run.
    destruct (Z.gtb_spec
                (Z.of_nat (String.length text) + Z.of_nat (String.length (seg i)) + 2) bs)
      as [Hgrow|Hfit].
    + assert (in_int (bs * 2) = true) as ->.
      { unfold in_int, INT_MIN, INT_MAX. lia. }
      run.
      assert (next_grant (grants w) = (true, drop 1 (grants w))) as ->.
      { destruct (grants w) as [|[] g]; try done. by apply Forall_cons in Hgr as [? _]. }
      run.
      rewrite Hb. run.
      assert ((Z.of_nat (String.length text) + 1 <=? bs * 2) = true) as -> by lia.
      rewrite lookup_delete_ne, lookup_insert_ne, Hwp by lia. run.
      rewrite lookup_insert_ne, lookup_delete_ne, lookup_insert_eq by lia. run.
      assert ((Z.of_nat (String.length text) + Z.of_nat (String.length (seg i)) + 1 <=? bs * 2)
              = true) as -> by lia.
      run.
      assert (∀ w2 : @world F E,
                heap w2 = <[brk w := BChars (bs * 2) ((text +:+ seg i) +:+ sp)]>
                            (<[wp := BWrapper (Some c) (Some (brk w))]>
                               (delete b (<[brk w := BChars (bs * 2) text]> (heap w)))) →
                brk w2 = Pos.succ (brk w) → grants w2 = drop 1 (grants w) →
                engine_state w2 = engine_state w →
                ∃ a bs' w',
                  segments_loop eng wp c n rest (bs * 2) w2 = Ok (CHeap a) w'
                  ∧ heap w' !! a
                    = Some (BChars bs' (text +:+ seg i +:+ sp +:+ loop_text seg n rest))
                  ∧ handle_result w' (Some wp) = Some a) as Hk.
      { intros w2 Hh2 Hb2 Hg2 He2.
        destruct (IH (bs * 2) w2 (brk w) ((text +:+ seg i) +:+ sp))
          as (a & bs' & w' & Hrun & Ha & Hres).
        * intros x [y Hx]. rewrite Hb2. rewrite Hh2 in Hx. map_cases Hx; try lia.
          assert (x < brk w)%positive by (apply Hwf; by eexists). lia.
        * rewrite Hh2. rewrite lookup_insert_ne, lookup_insert_eq by lia. done.
        * rewrite Hh2. by rewrite lookup_insert_eq.
        * rewrite !string_app_length. lia.
        * lia.
        * rewrite Hg2. by apply Forall_drop.
        * intros j. rewrite He2. apply Hseg.
        * done.
        * rewrite !string_app_length. lia.
        * exists a, bs', w'. split; [done|]. split; [|done].
          rewrite Ha. by rewrite !string_app_assoc. }
      subst sp. destruct (i <? n - 1); run.
      * rewrite lookup_insert_eq. run. rewrite string_app_length.
        assert ((Z.of_nat (String.length text + String.length (seg i))
                 + Z.of_nat (String.length " ") + 1 <=? bs * 2) = true) as ->.
        { simpl. apply Z.leb_le. lia. }
        apply Hk; simpl; try done. by rewrite insert_insert_eq.
      * apply Hk; simpl; try done. by rewrite string_app_nil_r.
    + run. rewrite ?Hb. run.
      assert ((Z.of_nat (String.length text) + Z.of_nat (String.length (seg i)) + 1 <=? bs)
              = true) as -> by lia.
      run.
      assert (∀ w2 : @world F E,
                heap w2 = <[b := BChars bs ((text +:+ seg i) +:+ sp)]> (heap w) →
                brk w2 = brk w → grants w2 = grants w →
                engine_state w2 = engine_state w →
                ∃ a bs' w',
                  segments_loop eng wp c n rest bs w2 = Ok (CHeap a) w'
                  ∧ heap w' !! a
                    = Some (BChars bs' (text +:+ seg i +:+ sp +:+ loop_text seg n rest))
                  ∧ handle_result w' (Some wp) = Some a) as Hk.
      { intros w2 Hh2 Hb2 Hg2 He2.
        destruct (IH bs w2 b ((text +:+ seg i) +:+ sp))
          as (a & bs' & w' & Hrun & Ha & Hres).
        * intros x [y Hx]. rewrite Hb2. rewrite Hh2 in Hx. map_cases Hx; try lia.
          apply Hwf; by eexists.
        * rewrite Hh2. by rewrite lookup_insert_ne.
        * rewrite Hh2. by rewrite lookup_insert_eq.
        * rewrite !string_app_length. lia.
        * lia.
        * by rewrite Hg2.
        * intros j. rewrite He2. apply Hseg.
        * done.
        * rewrite !string_app_length. lia.
        * exists a, bs', w'. split; [done|]. split; [|done].
          rewrite Ha. by rewrite !string_app_assoc. }
      subst sp. destruct (i <? n - 1); run.
      * rewrite lookup_insert_eq. run. rewrite string_app_length.
        assert ((Z.of_nat (String.length text + String.length (seg i))
                 + Z.of_nat (String.length " ") + 1 <=? bs) = true) as ->.
        { simpl. apply Z.leb_le. lia. }
        apply Hk; simpl; try done. by rewrite insert_insert_eq.
      * apply Hk; simpl; try done. by rewrite string_app_nil_r.
Qed.

End Concatenation.

Section Transcripts.
Context {F E CP : Type}.
Variable fo : float_ops F.
Variable eng : whisper_engine F E CP.
Implicit Types w : @world F E.

Lemma segments_of_engine c (e : E) (segs : list string) :
  whisper_full_n_segments eng c e = Z.of_nat (length segs) →
  (∀ i s, segs !! i = Some s → whisper_full_get_segment_text eng c (Z.of_nat i) e = s) →
  (λ i, whisper_full_get_segment_text eng c i e)
    <$> seqZ 0 (whisper_full_n_segments eng c e) = segs.
Proof.
  intros Hn Hs. rewrite Hn. apply list_eq. intros i. rewrite list_lookup_fmap.
  destruct (segs !! i) as [s|] eqn:Hi.
  - rewrite lookup_seqZ_lt by (apply lookup_lt_Some in Hi; lia). simpl.
    rewrite Z.add_0_l. by rewrite (Hs i s Hi).
  - rewrite lookup_seqZ_ge; [done|]. apply lookup_ge_None in Hi. lia.
Qed.

Lemma collect_segments_joined w0 wp c old w2 (segs : list string) :
  inv w0 wp c old None w2 → Forall (eq true) (grants w2) →
  whisper_full_n_segments eng c (engine_state w2) = Z.of_nat (length segs) →
  segs ≠ [] →
  (∀ i s, segs !! i = Some s →
     whisper_full_get_segment_text eng c (Z.of_nat i) (engine_state w2) = s) →
  Forall (λ s, Z.of_nat (String.length s) < 16384) segs →
  Z.of_nat (String.length (joined segs)) + 2 ≤ 1073741824 →
  ∃ a w', collect_segments eng wp c w2 = Ok (CHeap a) w'
          ∧ text_at w' (CHeap a) = Some (joined segs)
          ∧ handle_result w' (Some wp) = Some a.
Proof.
  intros [(Hwf0 & Hwf & Hwp & Hbrk & Hh & _) _] Hgr Hn Hne Hs Hlen Htot.
  pose proof (segments_of_engine c (engine_state w2) segs Hn Hs) as Hsegs.
  set (seg := λ i, whisper_full_get_segment_text eng c i (engine_state w2)) in *.
  assert (0 < length segs)%nat as Hpos.
  { destruct segs; [done|simpl; lia]. }
  assert (wp < brk w2)%positive as Hwlt by (apply Hwf; by eexists).
  unfold collect_segments. run. rewrite Hn in Hsegs |- *.
  pose proof (loop_text_joined seg (Z.of_nat (length segs)) (length segs) 0
                ltac:(lia) Hpos) as Htext.
  rewrite Hsegs in Htext.
  destruct (Z.leb_spec (Z.of_nat (length segs)) 0); [lia|]. run.
  assert (next_grant (grants w2) = (true, drop 1 (grants w2))) as ->.
  { destruct (grants w2) as [|[] g]; try done. by apply Forall_cons in Hgr as [? _]. }
  run. rewrite lookup_insert_ne, Hh by lia. run.
  rewrite lookup_insert_ne, lookup_insert_eq by lia. run. change (1 <=? 1024 * 16) with true.
  run.
  match goal with
  | |- ∃ a w', segments_loop eng wp c ?n ?todo ?bs ?w3 = _ ∧ _ =>
      destruct (segments_loop_joined eng wp c n seg todo bs w3 (brk w2) "")
        as (a & bs' & w' & Hrun & Ha & Hres)
  end; simpl.
  - intros x [y Hx]. simpl in *. map_cases Hx; try lia.
    assert (x < brk w2)%positive by (apply Hwf; by eexists). lia.
  - rewrite lookup_insert_ne, lookup_insert_eq by lia. done.
  - by rewrite lookup_insert_eq.
  - lia.
  - lia.
  - by apply Forall_drop.
  - done.
  - apply Forall_lookup. intros k i Hk.
    assert (is_Some (segs !! k)) as [s Hk'].
    { apply lookup_lt_is_Some. apply lookup_lt_Some in Hk.
      rewrite length_seqZ in Hk. lia. }
    apply lookup_seqZ in Hk as [-> _]. simpl. rewrite Z.add_0_l.
    unfold seg. rewrite (Hs k s Hk').
    by apply (Forall_lookup_1 _ _ _ _ Hlen Hk').
  - rewrite Htext. lia.
  - exists a, w'. split; [done|]. split; [|done].
    simpl. rewrite Ha, Htext. done.
Qed.

(** The transcript of streamed samples when every segment is shorter than
    the initial buffer. *)
Lemma transcribe_pcm_joined w wp c rb pcm n lang e' (segs : list string) :
  heap_wf w → loaded_handle w wp c rb → 0 < n →
  whisper_full eng c
    (set_streaming (setup_params (whisper_full_default_params eng WHISPER_SAMPLING_GREEDY) lang))
    pcm n (engine_state w) = (0, e') →
  whisper_full_n_segments eng c e' = Z.of_nat (length segs) → segs ≠ [] →
  (∀ i s, segs !! i = Some s → whisper_full_get_segment_text eng c (Z.of_nat i) e' = s) →
  Forall (λ s, Z.of_nat (String.length s) < 16384) segs →
  Z.of_nat (String.length (joined segs)) + 2 ≤ 1073741824 →
  Forall (eq true) (grants w) →
  returned_text (whisper_wrapper_transcribe_pcm_with_lang eng (Some wp) (Some pcm) n lang w)
  = Some (joined segs).
Proof.
  intros Hwf Hh Hn Hfull Hseg Hne Hs Hlen Htot Hgr.
  destruct (transcribe_pcm_prefix eng w wp c rb pcm n lang 0 e' Hwf Hh Hn Hfull)
    as (w2 & -> & Hinv & Hg2 & He2). simpl.
  destruct (collect_segments_joined w wp c rb w2 segs) as (a & w' & -> & Ht & _);
    try done; by rewrite ?Hg2, ?He2.
Qed.

(** The transcript of a file when every segment is shorter than the
    initial buffer. *)
Lemma transcribe_file_joined w wp c rb path bytes pcm n rate lang e' (segs : list string) :
  heap_wf w → loaded_handle w wp c rb →
  fs w path = Some bytes → wav_decode fo bytes = Some (pcm, n, rate) →
  whisper_full eng c
    (setup_params (whisper_full_default_params eng WHISPER_SAMPLING_GREEDY) lang)
    pcm n (engine_state w) = (0, e') →
  whisper_full_n_segments eng c e' = Z.of_nat (length segs) → segs ≠ [] →
  (∀ i s, segs !! i = Some s → whisper_full_get_segment_text eng c (Z.of_nat i) e' = s) →
  Forall (λ s, Z.of_nat (String.length s) < 16384) segs →
  Z.of_nat (String.length (joined segs)) + 2 ≤ 1073741824 →
  Forall (eq true) (grants w) →
  returned_text (whisper_wrapper_transcribe_with_lang fo eng (Some wp) (Some path) lang w)
  = Some (joined segs).
Proof.
  intros Hwf Hh Hfs Hdec Hfull Hseg Hne Hs Hlen Htot Hgr.
  assert (granted 2 (grants w) = true) as Hg.
  { unfold granted. apply forallb_forall. intros x Hx.
    apply list_elem_of_In in Hx. apply list.elem_of_take in Hx as (i & Hx & _).
    by rewrite <- (Forall_lookup_1 _ _ _ _ Hgr Hx). }
  destruct (transcribe_file_prefix fo eng w wp c rb path bytes pcm n rate lang 0 e'
              Hwf Hh Hfs Hdec Hg Hfull)
    as (w4 & -> & Hinv & Hg4 & He4). simpl.
  destruct (collect_segments_joined w wp c rb w4 segs) as (a & w' & -> & Ht & _);
    try done; rewrite ?Hg4, ?He4; try done.
  by apply Forall_drop.
Qed.

End Transcripts.

(** * Single precision: what rounding preserves *)

Lemma digits2_pos_bounds (p : positive) :
  2 ^ (Zpos (digits2_pos p) - 1) ≤ Zpos p < 2 ^ Zpos (digits2_pos p).
Proof.
  induction p as [p IH|p IH|]; cbn [digits2_pos].
  - rewrite Pos2Z.inj_succ. replace (Z.succ (Zpos (digits2_pos p)) - 1) with (Zpos (digits2_pos p)) by lia.
    rewrite Z.pow_succ_r by lia.
    replace (2 ^ Zpos (digits2_pos p)) with (2 * 2 ^ (Zpos (digits2_pos p) - 1)) in *
      by (rewrite <- Z.pow_succ_r by lia; f_equal; lia).
    lia.
  - rewrite Pos2Z.inj_succ. replace (Z.succ (Zpos (digits2_pos p)) - 1) with (Zpos (digits2_pos p)) by lia.
    rewrite Z.pow_succ_r by lia.
    replace (2 ^ Zpos (digits2_pos p)) with (2 * 2 ^ (Zpos (digits2_pos p) - 1)) in *
      by (rewrite <- Z.pow_succ_r by lia; f_equal; lia).
    lia.
  - simpl. lia.
Qed.

Lemma Zdigits2_bounds (m : Z) :
  0 < m → 2 ^ (Zdigits2 m - 1) ≤ m < 2 ^ Zdigits2 m.
Proof. destruct m as [|p|p]; [lia| |lia]. intros _. apply digits2_pos_bounds. Qed.

Lemma Zdigits2_nonneg (m : Z) : 0 ≤ Zdigits2 m.
Proof. destruct m; simpl; lia. Qed.

Lemma Zdigits2_pos (m : Z) : 0 < m → 0 < Zdigits2 m.
Proof. destruct m; simpl; lia. Qed.

(** The number of digits is determined by the binade. *)
Lemma Zdigits2_unique (m d : Z) :
  0 < d → 2 ^ (d - 1) ≤ m < 2 ^ d → Zdigits2 m = d.
Proof.
  intros Hd [Hlo Hhi].
  assert (0 < m) as Hm by (pose proof (Z.pow_pos_nonneg 2 (d - 1)); lia).
  pose proof (Zdigits2_bounds m Hm) as [Hlo' Hhi'].
  pose proof (Zdigits2_pos m Hm) as Hpos.
  destruct (Z.lt_trichotomy (Zdigits2 m) d) as [Hlt|[Heq|Hgt]]; [|done|].
  - assert (2 ^ Zdigits2 m ≤ 2 ^ (d - 1)) by (apply Z.pow_le_mono_r; lia). lia.
  - assert (2 ^ d ≤ 2 ^ (Zdigits2 m - 1)) by (apply Z.pow_le_mono_r; lia). lia.
Qed.

Lemma fexp32 (e : Z) : fexp 24 128 e = Z.max (e - 24) (-149).
Proof. reflexivity. Qed.

(** ** Shifting a mantissa to the right *)

Lemma iter_pos_invariant {A} (f : A → A) (P : Z → A → Prop) :
  (∀ n x, 0 ≤ n → P n x → P (n + 1) (f x)) →
  ∀ p n x, 0 ≤ n → P n x → P (n + Zpos p) (SpecFloat.iter_pos f p x).
Proof.
  intros Hstep. induction p as [p IH|p IH|]; intros n x Hn HP; cbn [SpecFloat.iter_pos].
  - replace (n + Zpos p~1) with (n + 1 + Zpos p + Zpos p) by lia.
    apply IH; [lia|]. apply IH; [lia|]. by apply Hstep.
  - replace (n + Zpos p~0) with (n + Zpos p + Zpos p) by lia.
    apply IH; [lia|]. by apply IH.
  - by apply Hstep.
Qed.

Lemma halving_bounds (X m m' bit num : Z) :
  0 < X → m = 2 * m' + bit → 0 ≤ bit ≤ 1 →
  X * m ≤ num < X * (m + 1) →
  (2 * X * m' ≤ num < 2 * X * (m' + 1))
  ∧ (bit = 1 → 2 * X * m' < num)
  ∧ (X * m < num → 2 * X * m' < num)
  ∧ (bit = 0 → num = X * m → num = 2 * X * m').
Proof.
  intros HX -> Hbit Hb.
  assert (bit = 0 ∨ bit = 1) as [->| ->] by lia.
  - replace (X * (2 * m' + 0)) with (2 * X * m') in * by ring.
    replace (X * (2 * m' + 0 + 1)) with (2 * X * m' + X) in * by ring.
    replace (2 * X * (m' + 1)) with (2 * X * m' + 2 * X) by ring.
    split_and!; intros; lia.
  - replace (X * (2 * m' + 1)) with (2 * X * m' + X) in * by ring.
    replace (X * (2 * m' + 1 + 1)) with (2 * X * m' + 2 * X) in * by ring.
    replace (2 * X * (m' + 1)) with (2 * X * m' + 2 * X) by ring.
    split_and!; intros; lia.
Qed.

Lemma shr_1_approx (mrs : shr_record) (k num den : Z) :
  0 ≤ k → 0 < den → approx mrs k num den → approx (shr_1 mrs) (k + 1) num den.
Proof.
  intros Hk Hden (Hm & Hb & Hex & Hin). unfold approx.
  rewrite Z.pow_add_r, Z.pow_1_r by lia.
  pose proof (Z.pow_pos_nonneg 2 k ltac:(lia) Hk) as Hp.
  assert (0 < 2 ^ k * den) as HX by lia.
  replace (2 ^ k * 2 * den) with (2 * (2 ^ k * den)) by ring.
  set (X := 2 ^ k * den) in *. clearbody X.
  destruct mrs as [m r s]. unfold inexact in *. cbn [shr_m shr_r shr_s] in *.
  assert (∃ m' bit, m = 2 * m' + bit ∧ 0 ≤ bit ≤ 1 ∧ 0 ≤ m'
            ∧ shr_1 {| shr_m := m; shr_r := r; shr_s := s |}
              = {| shr_m := m'; shr_r := bool_decide (bit = 1); shr_s := r || s |})
    as (m' & bit & Hmm & Hbit & Hm' & ->).
  { destruct m as [|[p|p|]|p]; [| | | |lia]; cbn [shr_1].
    - exists 0, 0. by split_and!.
    - exists (Zpos p), 1. split_and!; try done; lia.
    - exists (Zpos p), 0. split_and!; try done; lia.
    - exists 0, 1. by split_and!. }
  cbn [shr_m shr_r shr_s].
  destruct (halving_bounds X m m' bit num HX Hmm Hbit Hb) as (Hb' & Hodd & Hstrict & Heven).
  split; [done|]. split; [done|]. split.
  - intros [Hbit0 Hf]%orb_false_iff. apply bool_decide_eq_false in Hbit0.
    apply Heven; [lia|]. by apply Hex.
  - intros [Hbit1|Hf]%orb_true_iff.
    + apply bool_decide_eq_true in Hbit1. by apply Hodd.
    + apply Hstrict. by apply Hin.
Qed.

Lemma shr_1_mantissa (mrs : shr_record) :
  0 ≤ shr_m mrs → 0 ≤ shr_m (shr_1 mrs) ∧ shr_m (shr_1 mrs) = shr_m mrs / 2.
Proof.
  destruct mrs as [m r s]. cbn [shr_m].
  destruct m as [|[p|p|]|p]; cbn [shr_1 shr_m]; intros Hm; [| | | |lia].
  - done.
  - split; [lia|]. rewrite Pos2Z.inj_xI. apply Z.div_unique with 1; lia.
  - split; [lia|]. rewrite Pos2Z.inj_xO. apply Z.div_unique with 0; lia.
  - done.
Qed.

Lemma shr_approx (mrs : shr_record) (p : positive) (num den : Z) :
  0 < den → approx mrs 0 num den →
  approx (SpecFloat.iter_pos shr_1 p mrs) (Zpos p) num den
  ∧ shr_m (SpecFloat.iter_pos shr_1 p mrs) = shr_m mrs / 2 ^ Zpos p.
Proof.
  intros Hden Happ.
  assert (∀ n x, 0 ≤ n →
            approx x n num den ∧ 0 ≤ shr_m x ∧ shr_m x = shr_m mrs / 2 ^ n →
            approx (shr_1 x) (n + 1) num den
            ∧ 0 ≤ shr_m (shr_1 x) ∧ shr_m (shr_1 x) = shr_m mrs / 2 ^ (n + 1)) as Hstep.
  { intros n x Hn (Ha & Hx & Hm). split; [by apply shr_1_approx|].
    destruct (shr_1_mantissa x Hx) as [Hx' Heq]. split; [done|].
    rewrite Heq, Hm, Z.pow_add_r, Z.pow_1_r by lia.
    rewrite Z.div_div; [done| |lia]. pose proof (Z.pow_pos_nonneg 2 n); lia. }
  destruct (iter_pos_invariant shr_1
              (λ n x, approx x n num den ∧ 0 ≤ shr_m x ∧ shr_m x = shr_m mrs / 2 ^ n)
              Hstep p 0 mrs) as (Ha & _ & Hm); [lia| |].
  - split; [done|]. split; [by destruct Happ|]. by rewrite Z.pow_0_r, Z.div_1_r.
  - rewrite Z.add_0_l in *. done.
Qed.

Lemma inexact_of_loc (m : Z) (l : location) :
  inexact (shr_record_of_loc m l) = false ↔ l = loc_Exact.
Proof. destruct l as [|[]]; cbn; split; done. Qed.

Lemma loc_of_inexact (mrs : shr_record) :
  loc_of_shr_record mrs = loc_Exact ↔ inexact mrs = false.
Proof. destruct mrs as [m [] []]; cbn; split; done. Qed.

Lemma shr_m_of_loc (m : Z) (l : location) : shr_m (shr_record_of_loc m l) = m.
Proof. by destruct l as [|[]]. Qed.

Lemma round_nearest_even_cases (m : Z) (l : location) :
  round_nearest_even m l = m ∨ (round_nearest_even m l = m + 1 ∧ l ≠ loc_Exact).
Proof.
  destruct l as [|[]]; cbn; auto.
  - destruct (Z.even m); auto.
Qed.

(** ** Rounding to 24 bits *)

Lemma pow2_pos (k : Z) : 0 ≤ k → 0 < 2 ^ k.
Proof. intros. by apply Z.pow_pos_nonneg. Qed.

Lemma pow2_split (a b : Z) : 0 ≤ a → 0 ≤ b → 2 ^ (a + b) = 2 ^ a * 2 ^ b.
Proof. intros. by apply Z.pow_add_r. Qed.

(** The first shift of [binary_round_aux] brings the mantissa to 24 bits. *)
Lemma shr_fexp_first (m0 e0 : Z) (l0 : location) (num den : Z) :
  0 ≤ m0 → 0 < den →
  den * m0 ≤ num < den * (m0 + 1) →
  (l0 = loc_Exact → num = den * m0) → (l0 ≠ loc_Exact → den * m0 < num) →
  e0 ≤ fexp 24 128 (Zdigits2 m0 + e0) →
  ∃ mrs e1,
    shr_fexp 24 128 m0 e0 l0 = (mrs, e1)
    ∧ e0 ≤ e1 ∧ -149 ≤ e1
    ∧ approx mrs (e1 - e0) num den
    ∧ shr_m mrs < 2 ^ 24 ∧ (2 ^ 23 ≤ shr_m mrs ∨ e1 = -149).
Proof.
  intros Hm Hden Hb Hex Hin Hpre. rewrite fexp32 in Hpre.
  unfold shr_fexp, shr. rewrite fexp32.
  pose proof (Zdigits2_nonneg m0) as Hd0.
  assert (m0 = 0 → Zdigits2 m0 = 0) as Hz by (by intros ->).
  assert (m0 = 0 ∨ 0 < m0) as Hm0 by lia.
  assert (m0 < 2 ^ Zdigits2 m0 ∧ (0 < m0 → 2 ^ (Zdigits2 m0 - 1) ≤ m0 ∧ 0 < Zdigits2 m0))
    as [Hhi Hlo].
  { destruct Hm0 as [->|Hpos]; [split; [done|lia]|].
    pose proof (Zdigits2_bounds m0 Hpos). pose proof (Zdigits2_pos m0 Hpos).
    split; [lia|]. intros _. split; [lia|done]. }
  set (d0 := Zdigits2 m0) in *. clearbody d0.
  set (f0 := Z.max (d0 + e0 - 24) (-149)) in *.
  assert (f0 = Z.max (d0 + e0 - 24) (-149)) as Hf0 by reflexivity. clearbody f0.
  assert (approx (shr_record_of_loc m0 l0) 0 num den) as Happ0.
  { unfold approx. rewrite shr_m_of_loc, Z.pow_0_r, !Z.mul_1_l.
    split; [done|]. split; [done|]. split.
    - intros H. apply Hex. by apply inexact_of_loc in H.
    - intros H. apply Hin. intros Hl.
      rewrite (proj2 (inexact_of_loc m0 l0) Hl) in H. discriminate H. }
  destruct (f0 - e0) as [|p|p] eqn:Hk; [| |lia].
  - exists (shr_record_of_loc m0 l0), e0. split; [done|].
    rewrite Z.sub_diag. split_and!; try done; try lia.
    + rewrite shr_m_of_loc.
      assert (2 ^ d0 ≤ 2 ^ 24) by (apply Z.pow_le_mono_r; lia). lia.
    + rewrite shr_m_of_loc.
      destruct (decide (e0 = -149)) as [|Hne]; [by right|left].
      assert (d0 = 24) as -> by lia.
      destruct Hm0 as [Hz0|Hpos]; [specialize (Hz Hz0); lia|].
      destruct (Hlo Hpos) as [? _]. done.
  - destruct (shr_approx (shr_record_of_loc m0 l0) p num den Hden Happ0) as [Happ Hmant].
    rewrite shr_m_of_loc in Hmant.
    exists (SpecFloat.iter_pos shr_1 p (shr_record_of_loc m0 l0)), (e0 + Zpos p).
    split; [done|]. replace (e0 + Zpos p - e0) with (Zpos p) by lia.
    split_and!; try done; try lia.
    + rewrite Hmant. apply Z.div_lt_upper_bound; [by apply pow2_pos|].
      rewrite <- pow2_split by lia.
      assert (2 ^ d0 ≤ 2 ^ (Zpos p + 24)) by (apply Z.pow_le_mono_r; lia). lia.
    + destruct (decide (e0 + Zpos p = -149)) as [|Hne]; [by right|left].
      assert (d0 = 24 + Zpos p) as -> by lia.
      destruct Hm0 as [Hz0|Hpos]; [specialize (Hz Hz0); lia|].
      destruct (Hlo Hpos) as [Hlow _].
      rewrite Hmant. apply Z.div_le_lower_bound; [by apply pow2_pos|].
      rewrite <- pow2_split by lia.
      replace (Zpos p + 23) with (24 + Zpos p - 1) by lia. done.
Qed.

(** The second shift only undoes a carry into the 25th bit. *)
Lemma shr_fexp_second (m2 e1 : Z) :
  0 ≤ m2 ≤ 2 ^ 24 → -149 ≤ e1 →
  ∃ m3 e3,
    shr_m (shr_fexp 24 128 m2 e1 loc_Exact).1 = m3
    ∧ (shr_fexp 24 128 m2 e1 loc_Exact).2 = e3
    ∧ e1 ≤ e3 ∧ m3 * 2 ^ (e3 - e1) = m2 ∧ 0 ≤ m3 < 2 ^ 24
    ∧ (e3 = e1 ∨ 2 ^ 23 ≤ m3).
Proof.
  intros Hm He. unfold shr_fexp, shr. rewrite fexp32.
  destruct (decide (m2 = 2 ^ 24)) as [->|Hne].
  - change (Zdigits2 (2 ^ 24)) with 25.
    replace (Z.max (25 + e1 - 24) (-149) - e1) with 1 by lia.
    exists (2 ^ 23), (e1 + 1). cbn [fst snd SpecFloat.iter_pos].
    split; [reflexivity|]. split; [reflexivity|]. split; [lia|].
    replace (e1 + 1 - e1) with 1 by lia. split; [reflexivity|].
    split; [split; [done|reflexivity]|]. by right.
  - assert (Zdigits2 m2 ≤ 24) as Hd.
    { assert (m2 = 0 ∨ 0 < m2) as [->|Hpos] by lia; [simpl; lia|].
      pose proof (Zdigits2_bounds m2 Hpos) as [Hlo _].
      destruct (Z.le_gt_cases (Zdigits2 m2) 24) as [|Hgt]; [done|].
      assert (2 ^ 24 ≤ 2 ^ (Zdigits2 m2 - 1)) by (apply Z.pow_le_mono_r; lia). lia. }
    destruct (Z.max (Zdigits2 m2 + e1 - 24) (-149) - e1) as [|p|p] eqn:Hk; [|lia|].
    + exists m2, e1. cbn [fst snd shr_m shr_record_of_loc].
      rewrite Z.sub_diag, Z.pow_0_r. split_and!; try done; try lia; by left.
    + exists m2, e1. cbn [fst snd shr_m shr_record_of_loc].
      rewrite Z.sub_diag, Z.pow_0_r. split_and!; try done; try lia; by left.
Qed.

(** What [binary_round_aux] returns: a mantissa [m1] of at most 24 bits
    below the number, rounded to [m1] or [m1 + 1]. *)
Lemma binary_round_aux_shape (sx : bool) (m0 e0 : Z) (l0 : location) (num den : Z) :
  0 ≤ m0 → 0 < den →
  den * m0 ≤ num < den * (m0 + 1) →
  (l0 = loc_Exact → num = den * m0) → (l0 ≠ loc_Exact → den * m0 < num) →
  e0 ≤ fexp 24 128 (Zdigits2 m0 + e0) →
  ∃ m1 e1 m3 e3,
    e0 ≤ e1 ∧ e1 ≤ e3 ∧ -149 ≤ e1
    ∧ 0 ≤ m1 < 2 ^ 24 ∧ (2 ^ 23 ≤ m1 ∨ e1 = -149)
    ∧ 2 ^ (e1 - e0) * den * m1 ≤ num < 2 ^ (e1 - e0) * den * (m1 + 1)
    ∧ (m3 * 2 ^ (e3 - e1) = m1
       ∨ (m3 * 2 ^ (e3 - e1) = m1 + 1 ∧ 2 ^ (e1 - e0) * den * m1 < num))
    ∧ 0 ≤ m3 < 2 ^ 24 ∧ (2 ^ 23 ≤ m3 ∨ e3 = -149)
    ∧ binary_round_aux 24 128 sx m0 e0 l0
      = match m3 with
        | 0 => S754_zero sx
        | Zpos p => if e3 <=? 104 then S754_finite sx p e3 else S754_infinity sx
        | Zneg _ => S754_nan
        end.
Proof.
  intros Hm Hden Hb Hex Hin Hpre.
  destruct (shr_fexp_first m0 e0 l0 num den Hm Hden Hb Hex Hin Hpre)
    as (mrs & e1 & Hfirst & He01 & He1 & (Hm1 & Hb1 & Hex1 & Hin1) & Hhi & Hlo).
  set (m1 := shr_m mrs) in *.
  set (m2 := round_nearest_even m1 (loc_of_shr_record mrs)).
  assert (m2 = m1 ∨ (m2 = m1 + 1 ∧ inexact mrs = true)) as Hm2.
  { destruct (round_nearest_even_cases m1 (loc_of_shr_record mrs)) as [?|[? Hl]]; [by left|].
    right. split; [done|]. destruct (inexact mrs) eqn:Hi; [done|].
    exfalso. apply Hl. by apply loc_of_inexact. }
  destruct (shr_fexp_second m2 e1) as (m3 & e3 & Hs1 & Hs2 & He13 & Hval & Hm3 & Hcarry);
    [lia|done|].
  exists m1, e1, m3, e3. split_and!; try done; try lia.
  - destruct Hm2 as [Heq|[Heq Hi]]; [left; congruence|right].
    split; [congruence|]. by apply Hin1.
  - destruct Hcarry as [->|?]; [|by left].
    rewrite Z.sub_diag, Z.pow_0_r, Z.mul_1_r in Hval.
    destruct Hlo as [?|?]; [left; lia|by right].
  - unfold binary_round_aux. rewrite Hfirst. fold m1. fold m2.
    destruct (shr_fexp 24 128 m2 e1 loc_Exact) as [mrs'' e''].
    cbn [fst snd] in Hs1, Hs2. rewrite Hs1, Hs2. reflexivity.
Qed.

(** ** Rounding stays between representable numbers *)

Lemma binade_le (x y a b : Z) :
  0 ≤ a → 0 ≤ b → 2 ^ 23 ≤ x → y ≤ 2 ^ 24 → x * 2 ^ a ≤ y * 2 ^ b → a ≤ b + 1.
Proof.
  intros Ha Hb Hx Hy Hle.
  pose proof (pow2_pos a Ha). pose proof (pow2_pos b Hb).
  assert (2 ^ (23 + a) ≤ 2 ^ (24 + b)) as Hp.
  { rewrite !pow2_split by lia. nia. }
  apply Z.pow_le_mono_r_iff in Hp; lia.
Qed.

Lemma binade_lt (x y a b : Z) :
  0 ≤ a → 0 ≤ b → 2 ^ 23 ≤ x → y ≤ 2 ^ 24 → x * 2 ^ a < y * 2 ^ b → a ≤ b.
Proof.
  intros Ha Hb Hx Hy Hlt.
  pose proof (pow2_pos a Ha). pose proof (pow2_pos b Hb).
  assert (2 ^ (23 + a) < 2 ^ (24 + b)) as Hp.
  { rewrite !pow2_split by lia. nia. }
  apply Z.pow_lt_mono_r_iff in Hp; lia.
Qed.

Section Bounds.
Variables (m1 e1 m3 e3 e0 num den c : Z).
Hypothesis Hden : 0 < den.
Hypothesis He : e0 ≤ e1 ∧ e1 ≤ e3 ∧ -149 ≤ e1 ∧ c ≤ e0.
Hypothesis Hm1 : 0 ≤ m1 < 2 ^ 24 ∧ (2 ^ 23 ≤ m1 ∨ e1 = -149).
Hypothesis Hnum : 2 ^ (e1 - e0) * den * m1 ≤ num < 2 ^ (e1 - e0) * den * (m1 + 1).
Hypothesis Hround :
  m3 * 2 ^ (e3 - e1) = m1
  ∨ (m3 * 2 ^ (e3 - e1) = m1 + 1 ∧ 2 ^ (e1 - e0) * den * m1 < num).
Hypothesis Hm3 : 0 ≤ m3 < 2 ^ 24 ∧ (2 ^ 23 ≤ m3 ∨ e3 = -149).

Lemma rounded_value : m3 * 2 ^ (e3 - c) = m3 * 2 ^ (e3 - e1) * 2 ^ (e1 - c).
Proof.
  replace (e3 - c) with ((e3 - e1) + (e1 - c)) by lia.
  rewrite pow2_split by lia. ring.
Qed.

Lemma below_scaled : den * (m1 * 2 ^ (e1 - c)) ≤ num * 2 ^ (e0 - c).
Proof.
  replace (e1 - c) with ((e1 - e0) + (e0 - c)) by lia. rewrite pow2_split by lia.
  pose proof (pow2_pos (e0 - c) ltac:(lia)).
  replace (den * (m1 * (2 ^ (e1 - e0) * 2 ^ (e0 - c))))
    with ((2 ^ (e1 - e0) * den * m1) * 2 ^ (e0 - c)) by ring.
  apply Z.mul_le_mono_nonneg_r; lia.
Qed.

Lemma above_scaled : num * 2 ^ (e0 - c) < den * ((m1 + 1) * 2 ^ (e1 - c)).
Proof.
  replace (e1 - c) with ((e1 - e0) + (e0 - c)) by lia. rewrite pow2_split by lia.
  pose proof (pow2_pos (e0 - c) ltac:(lia)).
  replace (den * ((m1 + 1) * (2 ^ (e1 - e0) * 2 ^ (e0 - c))))
    with ((2 ^ (e1 - e0) * den * (m1 + 1)) * 2 ^ (e0 - c)) by ring.
  apply Z.mul_lt_mono_pos_r; lia.
Qed.

Lemma below_scaled_strict :
  2 ^ (e1 - e0) * den * m1 < num → den * (m1 * 2 ^ (e1 - c)) < num * 2 ^ (e0 - c).
Proof.
  intros Hlt.
  replace (e1 - c) with ((e1 - e0) + (e0 - c)) by lia. rewrite pow2_split by lia.
  pose proof (pow2_pos (e0 - c) ltac:(lia)).
  replace (den * (m1 * (2 ^ (e1 - e0) * 2 ^ (e0 - c))))
    with ((2 ^ (e1 - e0) * den * m1) * 2 ^ (e0 - c)) by ring.
  apply Z.mul_lt_mono_pos_r; lia.
Qed.

(** A representable number above the exact value is above the rounded
    one. *)
Lemma rounded_upper (N E : Z) :
  0 < N ≤ 2 ^ 24 → -149 ≤ E → c ≤ E →
  num * 2 ^ (e0 - c) ≤ N * 2 ^ (E - c) * den →
  m3 * 2 ^ (e3 - c) ≤ N * 2 ^ (E - c) ∧ (0 < m3 → e3 ≤ E + 1).
Proof.
  intros HN HE HcE Hle.
  pose proof (pow2_pos (e1 - c) ltac:(lia)) as Hp1.
  pose proof (pow2_pos (E - c) ltac:(lia)) as HpE.
  pose proof (pow2_pos (e3 - c) ltac:(lia)) as Hp3.
  assert (m3 * 2 ^ (e3 - c) ≤ N * 2 ^ (E - c)) as Hmain.
  { rewrite rounded_value. pose proof below_scaled as Hbelow.
    destruct Hround as [->|[-> Hstrict]].
    - apply (Z.mul_le_mono_pos_l _ _ den); [done|]. lia.
    - apply below_scaled_strict in Hstrict.
      assert (m1 * 2 ^ (e1 - c) < N * 2 ^ (E - c)) as Hlt.
      { apply (Z.mul_lt_mono_pos_l den); [done|]. lia. }
      assert (e1 ≤ E) as He1E.
      { destruct Hm1 as [_ [H23|Heq]]; [|lia].
        assert (e1 - c ≤ E - c); [|lia].
        apply (binade_lt m1 N); lia. }
      replace (E - c) with ((E - e1) + (e1 - c)) in * by lia.
      rewrite pow2_split in * by lia.
      pose proof (pow2_pos (E - e1) ltac:(lia)).
      assert (m1 < N * 2 ^ (E - e1)) as Hint.
      { apply (Z.mul_lt_mono_pos_r (2 ^ (e1 - c))); [done|]. lia. }
      replace (N * (2 ^ (E - e1) * 2 ^ (e1 - c))) with ((N * 2 ^ (E - e1)) * 2 ^ (e1 - c)) by ring.
      apply Z.mul_le_mono_nonneg_r; lia. }
  split; [done|]. intros Hpos.
  destruct Hm3 as [_ [H23|Heq]]; [|lia].
  assert (e3 - c ≤ E - c + 1); [|lia].
  apply (binade_le m3 N); lia.
Qed.

(** A representable number below the exact value is below the rounded
    one. *)
Lemma rounded_lower (N E : Z) :
  0 ≤ N ≤ 2 ^ 24 → -149 ≤ E → c ≤ E →
  N * 2 ^ (E - c) * den ≤ num * 2 ^ (e0 - c) →
  N * 2 ^ (E - c) ≤ m3 * 2 ^ (e3 - c).
Proof.
  intros HN HE HcE Hle.
  pose proof (pow2_pos (e1 - c) ltac:(lia)) as Hp1.
  pose proof (pow2_pos (E - c) ltac:(lia)) as HpE.
  assert (m1 * 2 ^ (e1 - c) ≤ m3 * 2 ^ (e3 - c)) as Hfloor.
  { rewrite rounded_value. apply Z.mul_le_mono_nonneg_r; [lia|].
    destruct Hround as [->|[-> _]]; lia. }
  destruct (Z.le_gt_cases (N * 2 ^ (E - c)) (m1 * 2 ^ (e1 - c))) as [|Hgt]; [lia|].
  exfalso. pose proof above_scaled as Habove.
  assert (N * 2 ^ (E - c) < (m1 + 1) * 2 ^ (e1 - c)) as Hlt.
  { apply (Z.mul_lt_mono_pos_l den); [done|]. lia. }
  destruct (Z.le_gt_cases e1 E) as [He1E|He1E].
  - replace (E - c) with ((E - e1) + (e1 - c)) in * by lia.
    rewrite pow2_split in * by lia.
    replace (N * (2 ^ (E - e1) * 2 ^ (e1 - c))) with ((N * 2 ^ (E - e1)) * 2 ^ (e1 - c))
      in * by ring.
    apply Z.mul_lt_mono_pos_r in Hgt; [|done].
    apply Z.mul_lt_mono_pos_r in Hlt; [|done]. lia.
  - destruct Hm1 as [_ [H23|?]]; [|lia].
    assert (e1 - c ≤ E - c); [|lia].
    apply (binade_lt m1 N); lia.
Qed.

End Bounds.

(** ** Dyadic numbers *)

Lemma Qpow2_pos (e : Z) : (0 < 2 ^ e)%Q.
Proof. by apply Qpower_0_lt. Qed.

Lemma Qpow2_plus (a b : Z) : (2 ^ (a + b) == 2 ^ a * 2 ^ b)%Q.
Proof. by apply Qpower_plus. Qed.

Lemma Qpow2_Z (k : Z) : 0 ≤ k → (2 ^ k == inject_Z (2 ^ k))%Q.
Proof. intros Hk. rewrite Zpower_Qpower by done. reflexivity. Qed.

Lemma dyadic_scale (c m e : Z) : c ≤ e → (dyadic m e == dyadic (m * 2 ^ (e - c)) c)%Q.
Proof.
  intros Hc. unfold dyadic.
  replace e with ((e - c) + c) at 1 by lia.
  rewrite Qpow2_plus, inject_Z_mult, Qpow2_Z by lia. ring.
Qed.

Lemma dyadic_le_same (c a b : Z) : (dyadic a c <= dyadic b c)%Q ↔ a ≤ b.
Proof.
  unfold dyadic. pose proof (Qpow2_pos c) as Hp. rewrite Zle_Qle. split; intros H.
  - by apply Qmult_le_r in H.
  - by apply Qmult_le_r.
Qed.

Lemma dyadic_le (c m1 e1 m2 e2 : Z) :
  c ≤ e1 → c ≤ e2 →
  (dyadic m1 e1 <= dyadic m2 e2)%Q ↔ m1 * 2 ^ (e1 - c) ≤ m2 * 2 ^ (e2 - c).
Proof.
  intros H1 H2. rewrite (dyadic_scale c m1 e1), (dyadic_scale c m2 e2) by done.
  apply dyadic_le_same.
Qed.

Lemma dyadic_0 (e : Z) : (dyadic 0 e == 0)%Q.
Proof. unfold dyadic. ring. Qed.

Lemma dyadic_opp (m e : Z) : (dyadic (- m) e == - dyadic m e)%Q.
Proof. unfold dyadic. rewrite inject_Z_opp. ring. Qed.

Lemma dyadic_mult_Z (m e k : Z) : (dyadic m e * inject_Z k == dyadic (m * k) e)%Q.
Proof. unfold dyadic. rewrite inject_Z_mult. ring. Qed.

Lemma dyadic_nonneg (m e : Z) : 0 ≤ m → (0 <= dyadic m e)%Q.
Proof.
  intros Hm. rewrite <- (dyadic_0 e). by apply dyadic_le_same.
Qed.

Lemma b32_rep_opp (q : Q) : b32_rep q → b32_rep (- q).
Proof.
  intros (N & E & HN & HE & Hq). exists (- N), E. split; [lia|]. split; [done|].
  by rewrite Hq, dyadic_opp.
Qed.

Lemma b32_rep_0 : b32_rep 0.
Proof. exists 0, 0. split; [lia|]. split; [lia|]. by rewrite dyadic_0. Qed.

Lemma b32_rep_Z (z : Z) : - 2 ^ 24 ≤ z ≤ 2 ^ 24 → b32_rep (inject_Z z).
Proof.
  intros Hz. exists z, 0. split; [done|]. split; [lia|]. unfold dyadic.
  change (2 ^ 0)%Q with 1%Q. ring.
Qed.

(** ** [binary_round_aux] rounds *)

Section RoundSound.
Variables (sx : bool) (m0 e0 : Z) (l0 : location) (num den : Z) (v : Q).
Hypothesis Hm : 0 ≤ m0.
Hypothesis Hden : 0 < den.
Hypothesis Hb : den * m0 ≤ num < den * (m0 + 1).
Hypothesis Hex : l0 = loc_Exact → num = den * m0.
Hypothesis Hin : l0 ≠ loc_Exact → den * m0 < num.
Hypothesis Hpre : e0 ≤ fexp 24 128 (Zdigits2 m0 + e0).
Hypothesis Hv : (v * inject_Z den == dyadic num e0)%Q.

Lemma exact_nonneg : (0 <= v)%Q.
Proof.
  assert (0 < inject_Z den)%Q as Hd by (rewrite <- (Zlt_Qlt 0); done).
  apply (Qmult_le_r _ _ _ Hd). rewrite Hv, Qmult_0_l.
  apply dyadic_nonneg. nia.
Qed.

Lemma exact_scaled (N E : Z) :
  ((v <= dyadic N E)%Q ↔ num * 2 ^ (e0 - Z.min e0 E) ≤ N * 2 ^ (E - Z.min e0 E) * den)
  ∧ ((dyadic N E <= v)%Q ↔ N * 2 ^ (E - Z.min e0 E) * den ≤ num * 2 ^ (e0 - Z.min e0 E)).
Proof.
  assert (0 < inject_Z den)%Q as Hd by (rewrite <- (Zlt_Qlt 0); done).
  split.
  - rewrite <- (Qmult_le_r _ _ _ Hd), Hv, dyadic_mult_Z.
    rewrite (dyadic_le (Z.min e0 E)) by lia.
    replace (N * den * 2 ^ (E - Z.min e0 E)) with (N * 2 ^ (E - Z.min e0 E) * den) by ring.
    done.
  - rewrite <- (Qmult_le_r _ _ _ Hd), Hv, dyadic_mult_Z.
    rewrite (dyadic_le (Z.min e0 E)) by lia.
    replace (N * den * 2 ^ (E - Z.min e0 E)) with (N * 2 ^ (E - Z.min e0 E) * den) by ring.
    done.
Qed.

Lemma round_mag :
  ∃ m3 e3,
    0 ≤ m3
    ∧ binary_round_aux 24 128 sx m0 e0 l0
      = match m3 with
        | 0 => S754_zero sx
        | Zpos p => if e3 <=? 104 then S754_finite sx p e3 else S754_infinity sx
        | Zneg _ => S754_nan
        end
    ∧ ((v == 0)%Q → m3 = 0)
    ∧ (∀ N E, 0 < N ≤ 2 ^ 24 → -149 ≤ E → (v <= dyadic N E)%Q →
         (dyadic m3 e3 <= dyadic N E)%Q ∧ (0 < m3 → e3 ≤ E + 1))
    ∧ (∀ N E, 0 ≤ N ≤ 2 ^ 24 → -149 ≤ E → (dyadic N E <= v)%Q →
         (dyadic N E <= dyadic m3 e3)%Q).
Proof.
  destruct (binary_round_aux_shape sx m0 e0 l0 num den Hm Hden Hb Hex Hin Hpre)
    as (m1 & e1 & m3 & e3 & He01 & He13 & He1 & Hm1 & Hcan1 & Hnum & Hround & Hm3 & Hcan3
        & Hres).
  exists m3, e3. split; [lia|]. split; [done|]. split; [|split].
  - intros Hv0.
    assert (num = 0) as ->.
    { assert (num ≤ 0); [|nia].
      apply (dyadic_le_same e0). rewrite <- Hv, Hv0, dyadic_0. by rewrite Qmult_0_l. }
    pose proof (pow2_pos (e1 - e0) ltac:(lia)). pose proof (pow2_pos (e3 - e1) ltac:(lia)).
    assert (m1 = 0) as -> by nia.
    destruct Hround as [?|[_ ?]]; nia.
  - intros N E HN HE Hle. apply (proj1 (exact_scaled N E)) in Hle.
    destruct (rounded_upper m1 e1 m3 e3 e0 num den (Z.min e0 E) Hden) with (N := N) (E := E)
      as [Hup Hfin]; try done; try lia.
    split; [|done]. apply (dyadic_le (Z.min e0 E)); [lia..|done].
  - intros N E HN HE Hle. apply (proj2 (exact_scaled N E)) in Hle.
    apply (dyadic_le (Z.min e0 E)); [lia..|].
    apply (rounded_lower m1 e1 m3 e3 e0 num den (Z.min e0 E) Hden) with (N := N) (E := E);
      try done; lia.
Qed.

Lemma round_sound : rounds_to (if sx then - v else v) (binary_round_aux 24 128 sx m0 e0 l0).
Proof.
  destruct round_mag as (m3 & e3 & Hm3 & Hres & Hzero & Hupper & Hlower).
  pose proof exact_nonneg as Hv0.
  assert (∀ lo hi, b32_rep lo → b32_rep hi → (lo <= v <= hi)%Q →
            (m3 = 0 ∨ (0 < m3 ∧ e3 ≤ 104)) ∧ (lo <= dyadic m3 e3 <= hi)%Q) as Hmag.
  { intros lo hi (Nl & El & HNl & HEl & Hlo) (Nh & Eh & HNh & HEh & Hhi) [Hle1 Hle2].
    destruct (Z.le_gt_cases Nh 0) as [Hneg|Hpos].
    - assert (hi <= 0)%Q as Hhi0.
      { rewrite Hhi, <- (dyadic_0 Eh). by apply dyadic_le_same. }
      assert (v == 0)%Q as Hvz by (apply Qle_antisym; [by apply Qle_trans with hi|done]).
      rewrite (Hzero Hvz), dyadic_0. split; [by left|]. rewrite Hvz in Hle1, Hle2. done.
    - rewrite Hhi in Hle2. destruct (Hupper Nh Eh ltac:(lia) ltac:(lia) Hle2) as [Hup Hfin].
      split.
      { destruct (decide (m3 = 0)) as [|Hne]; [by left|right]. split; [lia|].
        specialize (Hfin ltac:(lia)). lia. }
      split; [|by rewrite Hhi].
      destruct (Z.le_gt_cases Nl 0) as [Hneg|Hpos'].
      + apply Qle_trans with 0%Q; [|by apply dyadic_nonneg].
        rewrite Hlo, <- (dyadic_0 El). by apply dyadic_le_same.
      + rewrite Hlo. apply Hlower; [lia|lia|]. by rewrite <- Hlo. }
  intros lo hi Hlo Hhi Hbnd. rewrite Hres. destruct sx.
  - destruct (Hmag (- hi)%Q (- lo)%Q) as [Hfin [Hq1 Hq2]];
      [by apply b32_rep_opp|by apply b32_rep_opp|split; lra|].
    destruct Hfin as [->|[Hpos Hfin]].
    + exists 0%Q. split; [done|]. rewrite dyadic_0 in Hq1, Hq2. split; lra.
    + destruct m3 as [|p|p]; [lia| |lia].
      assert ((e3 <=? 104) = true) as -> by lia. cbn [b32_real cond_Zopp].
      eexists. split; [reflexivity|].
      change (- Zpos p) with (- (Zpos p)). rewrite dyadic_opp. split; lra.
  - destruct (Hmag lo hi Hlo Hhi Hbnd) as [Hfin [Hq1 Hq2]].
    destruct Hfin as [->|[Hpos Hfin]].
    + exists 0%Q. split; [done|]. rewrite dyadic_0 in Hq1, Hq2. done.
    + destruct m3 as [|p|p]; [lia| |lia].
      assert ((e3 <=? 104) = true) as -> by lia. cbn [b32_real cond_Zopp].
      eexists. split; [reflexivity|]. done.
Qed.

End RoundSound.

(** ** The operations of the decoder round *)

Lemma rounds_to_proper (v v' : Q) (x : spec_float) :
  (v == v')%Q → rounds_to v x → rounds_to v' x.
Proof.
  intros Heq H lo hi Hlo Hhi Hb. apply H; [done..|]. by rewrite Heq.
Qed.

Lemma rounds_to_value (v : Q) (x : spec_float) : b32_real x = Some v → rounds_to v x.
Proof. intros Hx lo hi _ _ Hb. by exists v. Qed.

Lemma rounds_to_exact (v : Q) (x : spec_float) :
  rounds_to v x → b32_rep v → ∃ q, b32_real x = Some q ∧ (q == v)%Q.
Proof.
  intros H Hrep. destruct (H v v Hrep Hrep) as (q & Hq & H1 & H2); [split; apply Qle_refl|].
  exists q. split; [done|]. by apply Qle_antisym.
Qed.

Lemma iter_xO (m d : positive) : Zpos (Pos.iter xO m d) = Zpos m * 2 ^ Zpos d.
Proof.
  induction d as [|d IH] using Pos.peano_ind.
  - cbn [Pos.iter]. rewrite Pos2Z.inj_xO. change (2 ^ 1) with 2. ring.
  - rewrite Pos.iter_succ, Pos2Z.inj_xO, IH, Pos2Z.inj_succ, Z.pow_succ_r by lia. ring.
Qed.

Lemma Zdigits2_shift (m d : Z) : 0 < m → 0 ≤ d → Zdigits2 (m * 2 ^ d) = Zdigits2 m + d.
Proof.
  intros Hm Hd. pose proof (Zdigits2_bounds m Hm) as [Hlo Hhi].
  pose proof (Zdigits2_pos m Hm). pose proof (pow2_pos d Hd).
  apply Zdigits2_unique; [lia|].
  replace (Zdigits2 m + d - 1) with ((Zdigits2 m - 1) + d) by lia.
  rewrite !pow2_split by lia. nia.
Qed.

Lemma shl_align_value (mx : positive) (ex ex' : Z) :
  ∃ d, 0 ≤ d ∧ ex - d = (shl_align mx ex ex').2
       ∧ Zpos (shl_align mx ex ex').1 = Zpos mx * 2 ^ d
       ∧ (ex' ≤ ex → d = ex - ex') ∧ (ex ≤ ex' → d = 0).
Proof.
  unfold shl_align. destruct (ex' - ex) as [|p|p] eqn:Hd; cbn [fst snd].
  - exists 0. rewrite Z.pow_0_r. split_and!; try lia.
  - exists 0. rewrite Z.pow_0_r. split_and!; try lia.
  - exists (Zpos p). rewrite iter_xO. split_and!; try lia.
Qed.

Lemma binary_round_sound (sx : bool) (mx : positive) (ex : Z) :
  rounds_to (dyadic (cond_Zopp sx (Zpos mx)) ex) (binary_round 24 128 sx mx ex).
Proof.
  unfold binary_round.
  destruct (shl_align_value mx ex (fexp 24 128 (Zpos (digits2_pos mx) + ex)))
    as (d & Hd & He & Hmz & Hshift & Hkeep).
  destruct (shl_align mx ex _) as [mz ez]. cbn [fst snd] in *.
  eapply rounds_to_proper;
    [|apply (round_sound sx (Zpos mz) ez loc_Exact (Zpos mz) 1 (dyadic (Zpos mz) ez))].
  - rewrite Hmz, <- He. rewrite (dyadic_scale (ex - d) _ ex) by lia.
    replace (ex - (ex - d)) with d by lia.
    destruct sx; cbn [cond_Zopp]; [|reflexivity].
    change (- Zpos mx) with (- (Zpos mx)).
    rewrite Z.mul_opp_l, dyadic_opp. reflexivity.
  - lia.
  - lia.
  - lia.
  - intros _. lia.
  - intros H. by destruct H.
  - rewrite Hmz, <- He.
    replace (Zdigits2 (Zpos mx * 2 ^ d)) with (Zdigits2 (Zpos mx) + d)
      by (symmetry; apply Zdigits2_shift; lia).
    replace (Zdigits2 (Zpos mx) + d + (ex - d)) with (Zpos (digits2_pos mx) + ex)
      by (cbn [Zdigits2]; lia).
    destruct (Z.le_gt_cases (fexp 24 128 (Zpos (digits2_pos mx) + ex)) ex) as [Hle|Hgt].
    + rewrite (Hshift Hle). lia.
    + rewrite (Hkeep ltac:(lia)). lia.
  - change (inject_Z 1) with 1%Q. ring.
Qed.

Lemma binary_normalize_sound (m e : Z) (szero : bool) :
  rounds_to (dyadic m e) (binary_normalize 24 128 m e szero).
Proof.
  destruct m as [|p|p]; cbn [binary_normalize].
  - apply (rounds_to_proper 0); [by rewrite dyadic_0|]. by apply rounds_to_value.
  - apply (binary_round_sound false).
  - apply (binary_round_sound true).
Qed.

Lemma dyadic_plus (a b c : Z) : (dyadic (a + b) c == dyadic a c + dyadic b c)%Q.
Proof. unfold dyadic. rewrite inject_Z_plus. ring. Qed.

Lemma dyadic_minus (a b c : Z) : (dyadic (a - b) c == dyadic a c - dyadic b c)%Q.
Proof. unfold dyadic, Z.sub. rewrite inject_Z_plus, inject_Z_opp. ring. Qed.

Lemma cond_Zopp_mul (s : bool) (m k : Z) : cond_Zopp s (m * k) = cond_Zopp s m * k.
Proof. destruct s; cbn [cond_Zopp]; lia. Qed.

(** The operand [m * 2^e] brought to the exponent [ez] of the sum. *)
Lemma aligned_value (s : bool) (m : positive) (e ez : Z) :
  ez ≤ e →
  (dyadic (cond_Zopp s (Zpos (shl_align m e ez).1)) ez == dyadic (cond_Zopp s (Zpos m)) e)%Q.
Proof.
  intros Hle. destruct (shl_align_value m e ez) as (d & Hd & _ & Hm & Hshift & _).
  rewrite Hm, (Hshift Hle), cond_Zopp_mul. by rewrite <- dyadic_scale.
Qed.

Lemma SFadd_sound (x y : spec_float) (vx vy : Q) :
  b32_real x = Some vx → b32_real y = Some vy →
  rounds_to (vx + vy) (SFadd 24 128 x y).
Proof.
  intros Hx Hy.
  destruct x as [sx|sx| |sx mx ex], y as [sy|sy| |sy my ey]; try discriminate;
    cbn [b32_real] in Hx, Hy; injection Hx as <-; injection Hy as <-; cbn [SFadd].
  - apply (rounds_to_proper 0); [ring|]. apply rounds_to_value. by destruct sx, sy.
  - eapply rounds_to_proper; [|by apply rounds_to_value]. ring.
  - eapply rounds_to_proper; [|by apply rounds_to_value]. ring.
  - eapply rounds_to_proper; [|apply binary_normalize_sound].
    rewrite dyadic_plus, !aligned_value by lia. reflexivity.
Qed.

Lemma SFsub_sound (x y : spec_float) (vx vy : Q) :
  b32_real x = Some vx → b32_real y = Some vy →
  rounds_to (vx - vy) (SFsub 24 128 x y).
Proof.
  intros Hx Hy.
  destruct x as [sx|sx| |sx mx ex], y as [sy|sy| |sy my ey]; try discriminate;
    cbn [b32_real] in Hx, Hy; injection Hx as <-; injection Hy as <-; cbn [SFsub].
  - apply (rounds_to_proper 0); [ring|]. apply rounds_to_value. by destruct sx, sy.
  - eapply rounds_to_proper; [|by apply rounds_to_value].
    destruct sy; cbn [cond_Zopp negb].
    + change (- Zpos my) with (- (Zpos my)). rewrite dyadic_opp. ring.
    + change (Zneg my) with (- (Zpos my)). rewrite dyadic_opp. ring.
  - eapply rounds_to_proper; [|by apply rounds_to_value]. ring.
  - eapply rounds_to_proper; [|apply binary_normalize_sound].
    rewrite dyadic_minus, !aligned_value by lia. reflexivity.
Qed.

Lemma new_location_exact (m2 r : Z) : new_location m2 r = loc_Exact ↔ r = 0.
Proof.
  unfold new_location, new_location_even, new_location_odd.
  destruct (Z.even m2), (Z.eqb_spec r 0) as [->|Hne]; split; try done.
  all: destruct (_ ?= _); done.
Qed.

Lemma quotient_digits (m' m2 q r d1 d2 : Z) :
  0 < m2 → m' = m2 * q + r → 0 ≤ r < m2 →
  0 ≤ d1 → 2 ^ d1 ≤ m' → m2 < 2 ^ d2 → 0 < d2 →
  d1 - d2 + 1 ≤ Zdigits2 q.
Proof.
  intros Hm2 Hdiv Hr Hd1 Hlo Hhi Hd2.
  pose proof (Zdigits2_nonneg q).
  destruct (Z.le_gt_cases d2 d1) as [Hle|Hgt]; [|lia].
  assert (2 ^ (d1 - d2) ≤ q) as Hq.
  { destruct (Z.le_gt_cases (2 ^ (d1 - d2)) q) as [|Hlt]; [done|exfalso].
    assert (2 ^ d1 = 2 ^ (d1 - d2) * 2 ^ d2) as Hsplit.
    { rewrite <- pow2_split by lia. f_equal. lia. }
    pose proof (pow2_pos (d1 - d2) ltac:(lia)). pose proof (pow2_pos d2 ltac:(lia)).
    assert (q + 1 ≤ 2 ^ (d1 - d2)) by lia.
    assert (m2 * (q + 1) ≤ 2 ^ d2 * 2 ^ (d1 - d2)); [|nia].
    apply Z.mul_le_mono_nonneg; nia. }
  pose proof (pow2_pos (d1 - d2) ltac:(lia)).
  pose proof (Zdigits2_bounds q ltac:(lia)) as [_ Hqhi].
  assert (2 ^ (d1 - d2) < 2 ^ Zdigits2 q) as Hp by lia.
  apply Z.pow_lt_mono_r_iff in Hp; lia.
Qed.

Lemma SFdiv_sound (x y : spec_float) (vx vy : Q) :
  b32_real x = Some vx → b32_real y = Some vy → ¬ (vy == 0)%Q →
  rounds_to (vx / vy) (SFdiv 24 128 x y).
Proof.
  intros Hx Hy Hnz.
  destruct y as [sy|sy| |sy my ey]; try discriminate.
  { injection Hy as <-. by destruct Hnz. }
  destruct x as [sx|sx| |sx mx ex]; try discriminate;
    cbn [b32_real] in Hx, Hy; injection Hx as <-; injection Hy as <-; cbn [SFdiv].
  { apply (rounds_to_proper 0); [|by apply rounds_to_value]. field. done. }
  unfold SFdiv_core_binary.
  set (d1 := Zdigits2 (Zpos mx)). set (d2 := Zdigits2 (Zpos my)).
  set (e' := Z.min (fexp 24 128 (d1 + ex - (d2 + ey))) (ex - ey)).
  set (s := ex - ey - e').
  assert (0 ≤ s) as Hs by (unfold s, e'; lia).
  set (m' := match s with Zpos _ => Z.shiftl (Zpos mx) s | 0 => Zpos mx | Zneg _ => 0 end).
  assert (m' = Zpos mx * 2 ^ s) as Hm'.
  { unfold m'. destruct s as [|p|p] eqn:Hsp; [rewrite Z.pow_0_r; lia| |lia].
    by rewrite Z.shiftl_mul_pow2. }
  clearbody m'.
  pose proof (Z_div_mod m' (Zpos my) ltac:(lia)) as Hdm.
  destruct (Z.div_eucl m' (Zpos my)) as [q r]. destruct Hdm as [Hdiv Hr].
  pose proof (pow2_pos s Hs) as Hps.
  assert (0 ≤ q) as Hq by nia.
  eapply rounds_to_proper;
    [|apply (round_sound (xorb sx sy) q e' (new_location (Zpos my) r) m' (Zpos my)
               (dyadic (Zpos mx) ex / dyadic (Zpos my) ey))].
  - assert (¬ (dyadic (Zpos my) ey == 0)%Q) as Hy0.
    { intros H0. apply Hnz. destruct sy; cbn [cond_Zopp]; [|done].
      change (- Zpos my) with (- (Zpos my)). rewrite dyadic_opp, H0. ring. }
    destruct sx, sy; cbn [xorb cond_Zopp];
      rewrite ?(dyadic_opp (Zpos mx)), ?(dyadic_opp (Zpos my));
      change (Zneg mx) with (- (Zpos mx)); change (Zneg my) with (- (Zpos my));
      rewrite ?(dyadic_opp (Zpos mx)), ?(dyadic_opp (Zpos my)); field; try done.
    all: intros H0; apply Hy0; lra.
  - done.
  - lia.
  - nia.
  - intros Hl. apply new_location_exact in Hl. nia.
  - intros Hl. assert (r ≠ 0) by (intros ->; apply Hl; by apply new_location_exact). nia.
  - pose proof (Zdigits2_bounds (Zpos mx) ltac:(lia)) as [Hlo1 Hhi1].
    pose proof (Zdigits2_bounds (Zpos my) ltac:(lia)) as [Hlo2 Hhi2].
    pose proof (Zdigits2_pos (Zpos mx) ltac:(lia)).
    pose proof (Zdigits2_pos (Zpos my) ltac:(lia)).
    fold d1 in Hlo1, Hhi1, H. fold d2 in Hlo2, Hhi2, H0.
    assert (d1 - 1 + s - d2 + 1 ≤ Zdigits2 q) as Hdq.
    { apply (quotient_digits m' (Zpos my) q r); try done; try lia.
      rewrite Hm', pow2_split by lia.
      apply Z.mul_le_mono_nonneg_r; lia. }
    unfold s in Hdq. unfold e' in *. rewrite !fexp32 in *. lia.
  - assert (¬ (dyadic (Zpos my) ey == 0)%Q) as Hy0.
    { intros H0. unfold dyadic in H0. pose proof (Qpow2_pos ey).
      assert (0 < inject_Z (Zpos my))%Q by (rewrite <- (Zlt_Qlt 0); lia).
      assert (0 < inject_Z (Zpos my) * 2 ^ ey)%Q by (apply Qmult_lt_0_compat; done).
      lra. }
    assert (0 < inject_Z (Zpos my))%Q as Hpos by (rewrite <- (Zlt_Qlt 0); lia).
    assert (2 ^ ex == 2 ^ s * 2 ^ e' * 2 ^ ey)%Q as Hpow.
    { rewrite <- !Qpow2_plus. replace (s + e' + ey) with ex by (unfold s; lia). reflexivity. }
    assert (¬ (inject_Z (Zpos my) == 0)%Q) as Hmy.
    { intros H0. rewrite H0 in Hpos. by apply Qlt_irrefl in Hpos. }
    unfold dyadic. rewrite Hm', inject_Z_mult, <- (Qpow2_Z s), Hpow by lia.
    field. split; [|done]. pose proof (Qpow2_pos ey). lra.
Qed.

(** ** The decoder in single precision *)

Lemma b32_of_Z_sound (z : Z) : rounds_to (inject_Z z) (b32_of_Z z).
Proof.
  unfold b32_of_Z. eapply rounds_to_proper; [|apply binary_normalize_sound].
  unfold dyadic. change (2 ^ 0)%Q with 1%Q. ring.
Qed.

Lemma b32_of_Z_exact (z : Z) :
  b32_rep (inject_Z z) → ∃ q, b32_real (b32_of_Z z) = Some q ∧ (q == inject_Z z)%Q.
Proof. intros Hrep. by apply rounds_to_exact; [apply b32_of_Z_sound|]. Qed.

Lemma b32_rep_dyadic (N E : Z) (q : Q) :
  - 2 ^ 24 ≤ N ≤ 2 ^ 24 → -149 ≤ E ≤ 103 → (q == dyadic N E)%Q → b32_rep q.
Proof. intros. by exists N, E. Qed.

(** [x / (float)k] for an integer constant [k] that a single holds. *)
Lemma b32_div_Z (x : spec_float) (vx : Q) (k : Z) :
  b32_real x = Some vx → 1 ≤ k → b32_rep (inject_Z k) →
  rounds_to (vx / inject_Z k) (SFdiv 24 128 x (b32_of_Z k)).
Proof.
  intros Hx Hk Hrep. destruct (b32_of_Z_exact k Hrep) as (qk & Hqk & Heq).
  assert (0 < inject_Z k)%Q as Hpos by (rewrite <- (Zlt_Qlt 0); lia).
  eapply rounds_to_proper; [|apply (SFdiv_sound x (b32_of_Z k) vx qk Hx Hqk)].
  - by rewrite Heq.
  - rewrite Heq. lra.
Qed.

Lemma Qmake_dyadic (z : Z) (k : positive) :
  (z # 2 ^ k == dyadic z (- Zpos k))%Q.
Proof.
  unfold dyadic. rewrite Qpower_opp, Qpow2_Z by lia.
  rewrite (Qmake_Qdiv z (2 ^ k)), Pos2Z.inj_pow. reflexivity.
Qed.

Lemma sample16_b32 (s : Z) :
  -32768 ≤ s ≤ 32767 →
  ∃ q, b32_real (scale_16 binary32_ops s) = Some q ∧ (q == s # 32768)%Q.
Proof.
  intros Hs. destruct (b32_of_Z_exact s) as (qs & Hqs & Heq); [apply b32_rep_Z; lia|].
  unfold scale_16. cbn [f_div f_of_Z binary32_ops].
  apply rounds_to_exact.
  - eapply rounds_to_proper; [|apply (b32_div_Z _ qs 32768 Hqs); [lia|apply b32_rep_Z; lia]].
    rewrite Heq. by rewrite (Qmake_Qdiv s 32768).
  - apply (b32_rep_dyadic s (-15)); [lia|lia|]. apply (Qmake_dyadic s 15).
Qed.

Lemma sample8_b32 (b : Z) :
  0 ≤ b ≤ 255 →
  ∃ q, b32_real (scale_8 binary32_ops b) = Some q ∧ (q == (b - 128) # 128)%Q.
Proof.
  intros Hb. destruct (b32_of_Z_exact b) as (qb & Hqb & Heqb); [apply b32_rep_Z; lia|].
  destruct (b32_of_Z_exact 128) as (q128 & Hq128 & Heq128); [apply b32_rep_Z; lia|].
  unfold scale_8. cbn [f_div f_sub f_of_Z binary32_ops].
  destruct (rounds_to_exact (inject_Z (b - 128)) (SFsub 24 128 (b32_of_Z b) (b32_of_Z 128)))
    as (qd & Hqd & Heqd).
  { eapply rounds_to_proper; [|apply (SFsub_sound _ _ qb q128 Hqb Hq128)].
    rewrite Heqb, Heq128. unfold Z.sub. rewrite inject_Z_plus, inject_Z_opp. reflexivity. }
  { apply b32_rep_Z. lia. }
  apply rounds_to_exact.
  - eapply rounds_to_proper; [|apply (b32_div_Z _ qd 128 Hqd); [lia|apply b32_rep_Z; lia]].
    rewrite Heqd. by rewrite (Qmake_Qdiv (b - 128) 128).
  - apply (b32_rep_dyadic (b - 128) (-7)); [lia|lia|]. apply (Qmake_dyadic (b - 128) 7).
Qed.

Lemma b32_rep_2_31 : b32_rep (inject_Z 2147483648).
Proof. apply (b32_rep_dyadic (2 ^ 24) 7); [lia|lia|]. reflexivity. Qed.

Lemma sample24_b32 (z : Z) :
  -2147483648 ≤ z ≤ 2147483647 →
  ∃ q, b32_real (SFdiv 24 128 (b32_of_Z z) (b32_of_Z 2147483648)) = Some q
       ∧ (-1 <= q <= 1)%Q.
Proof.
  intros Hz.
  destruct (b32_of_Z_sound z (- inject_Z 2147483648)%Q (inject_Z 2147483648))
    as (qz & Hqz & Hlo & Hhi).
  { apply b32_rep_opp, b32_rep_2_31. }
  { apply b32_rep_2_31. }
  { rewrite <- inject_Z_opp, <- !Zle_Qle. lia. }
  apply (b32_div_Z _ qz 2147483648 Hqz); [lia|apply b32_rep_2_31| | |].
  - apply (b32_rep_Z (-1)). lia.
  - apply (b32_rep_Z 1). lia.
  - assert (0 < inject_Z 2147483648)%Q by done.
    split; [apply Qle_shift_div_l|apply Qle_shift_div_r]; try done; lra.
Qed.

Lemma b32_sum_bounds (xs : list spec_float) :
  ∀ (acc : spec_float) (a : Q) (k : Z),
    b32_real acc = Some a → (- inject_Z k <= a <= inject_Z k)%Q →
    0 ≤ k → k + Z.of_nat (length xs) ≤ 2 ^ 24 →
    Forall b32_unit xs →
    ∃ a', b32_real (foldl (SFadd 24 128) acc xs) = Some a'
          ∧ (- inject_Z (k + Z.of_nat (length xs)) <= a'
             <= inject_Z (k + Z.of_nat (length xs)))%Q.
Proof.
  induction xs as [|x xs IH]; intros acc a k Hacc Ha Hk Hlen Hxs.
  - exists a. cbn [foldl length]. by rewrite Z.add_0_r.
  - apply Forall_cons in Hxs as [(q & Hq & Hq1) Hxs]. cbn [length] in *.
    rewrite Nat2Z.inj_succ in *.
    destruct (SFadd_sound acc x a q Hacc Hq (- inject_Z (k + 1))%Q (inject_Z (k + 1)))
      as (a1 & Ha1 & Hb1).
    { apply b32_rep_opp, b32_rep_Z. lia. }
    { apply b32_rep_Z. lia. }
    { rewrite inject_Z_plus. change (inject_Z 1) with 1%Q. split; lra. }
    destruct (IH (SFadd 24 128 acc x) a1 (k + 1) Ha1 Hb1) as (a' & Ha' & Hb'); [lia|lia|done|].
    exists a'. cbn [foldl]. split; [done|].
    replace (k + Z.succ (Z.of_nat (length xs))) with (k + 1 + Z.of_nat (length xs)) by lia.
    done.
Qed.

Lemma b32_mix_bounds (xs : list spec_float) (C : Z) :
  1 ≤ C ≤ 2 ^ 24 → length xs = Z.to_nat C → Forall b32_unit xs →
  b32_unit (mix binary32_ops xs C).
Proof.
  intros HC Hlen Hxs. unfold mix. cbn [f_div f_add f_of_Z binary32_ops].
  destruct (b32_sum_bounds xs (b32_of_Z 0) 0%Q 0) as (a & Ha & Hb); try done.
  { rewrite Hlen. lia. }
  rewrite Hlen, Z2Nat.id, Z.add_0_l in Hb by lia.
  assert (0 < inject_Z C)%Q as Hpos by (rewrite <- (Zlt_Qlt 0); lia).
  apply (b32_div_Z _ a C Ha); [lia|apply b32_rep_Z; lia| | |].
  - apply (b32_rep_Z (-1)). lia.
  - apply (b32_rep_Z 1). lia.
  - split; [apply Qle_shift_div_l|apply Qle_shift_div_r]; try done; lra.
Qed.

(** The sum of up to 512 16-bit samples is exact. *)
Lemma b32_sum16_exact (frame : list Z) :
  ∀ (acc : spec_float) (qa : Q) (A : Z),
    b32_real acc = Some qa → (qa == A # 32768)%Q →
    Forall (λ s, -32768 ≤ s ≤ 32767) frame →
    Z.abs A + 32768 * Z.of_nat (length frame) ≤ 2 ^ 24 →
    ∃ q, b32_real (foldl (SFadd 24 128) acc (scale_16 binary32_ops <$> frame)) = Some q
         ∧ (q == (A + foldr Z.add 0%Z frame) # 32768)%Q.
Proof.
  induction frame as [|s frame IH]; intros acc qa A Hacc Hqa Hr Hlen.
  - exists qa. cbn [fmap list_fmap foldl foldr]. by rewrite Z.add_0_r.
  - apply Forall_cons in Hr as [Hs Hr]. cbn [length] in Hlen. rewrite Nat2Z.inj_succ in Hlen.
    destruct (sample16_b32 s Hs) as (qs & Hqs & Heqs).
    destruct (rounds_to_exact ((A + s) # 32768) (SFadd 24 128 acc (scale_16 binary32_ops s)))
      as (q1 & Hq1 & Heq1).
    { eapply rounds_to_proper; [|apply (SFadd_sound _ _ qa qs Hacc Hqs)].
      rewrite Hqa, Heqs. unfold Qeq, Qplus. simpl. lia. }
    { apply (b32_rep_dyadic (A + s) (-15)); [lia|lia|]. apply (Qmake_dyadic (A + s) 15). }
    destruct (IH _ q1 (A + s) Hq1 Heq1 Hr) as (q & Hq & Heq); [lia|].
    exists q. cbn [fmap list_fmap foldl foldr]. split; [done|].
    by rewrite Heq, Z.add_assoc.
Qed.

Lemma sum_of_quotients (frame : list Z) :
  (foldr Qplus 0 ((λ s, s # 32768) <$> frame) == foldr Z.add 0%Z frame # 32768)%Q.
Proof.
  induction frame as [|s frame IH]; cbn [fmap list_fmap foldr]; [done|].
  rewrite IH. unfold Qeq, Qplus. simpl. lia.
Qed.

Lemma sum16_range (frame : list Z) :
  Forall (λ s, -32768 ≤ s ≤ 32767) frame →
  Z.abs (foldr Z.add 0%Z frame) ≤ 32768 * Z.of_nat (length frame).
Proof.
  induction 1 as [|s frame Hs _ IH]; cbn [foldr length]; [lia|].
  rewrite Nat2Z.inj_succ. lia.
Qed.

(** Up to 512 channels the mix of a 16-bit frame is the average, rounded
    once. *)
Lemma b32_mix16 (frame : list Z) (C : Z) :
  length frame = Z.to_nat C → 1 ≤ C ≤ 512 →
  Forall (λ s, -32768 ≤ s ≤ 32767) frame →
  rounds_to (average ((λ s, s # 32768) <$> frame))
    (mix binary32_ops (scale_16 binary32_ops <$> frame) C).
Proof.
  intros Hlen HC Hr. unfold mix. cbn [f_div f_add f_of_Z binary32_ops].
  destruct (b32_sum16_exact frame (b32_of_Z 0) 0%Q 0) as (q & Hq & Heq); try done.
  { rewrite Hlen. lia. }
  eapply rounds_to_proper; [|apply (b32_div_Z _ q C Hq); [lia|apply b32_rep_Z; lia]].
  unfold average. rewrite length_fmap, Hlen, Z2Nat.id by lia.
  by rewrite Heq, Z.add_0_l, sum_of_quotients.
Qed.

(** With a power of two as the channel count the average is a single. *)
Lemma average16_rep (frame : list Z) (C k : Z) :
  length frame = Z.to_nat C → 0 ≤ k → C = 2 ^ k → C ≤ 512 →
  Forall (λ s, -32768 ≤ s ≤ 32767) frame →
  b32_rep (average ((λ s, s # 32768) <$> frame)).
Proof.
  intros Hlen Hk HC H512 Hr.
  pose proof (sum16_range frame Hr) as Hsum. rewrite Hlen in Hsum.
  pose proof (pow2_pos k Hk) as Hpos.
  rewrite Z2Nat.id in Hsum by lia.
  assert (k ≤ 9) as Hk9.
  { destruct (Z.le_gt_cases k 9) as [|Hgt]; [done|].
    assert (2 ^ 10 ≤ 2 ^ k) by (apply Z.pow_le_mono_r; lia). lia. }
  apply (b32_rep_dyadic (foldr Z.add 0%Z frame) (-15 - k)); [lia|lia|].
  unfold average. rewrite length_fmap, Hlen, Z2Nat.id, sum_of_quotients by lia.
  unfold dyadic. subst C. unfold Z.sub.
  rewrite Qpow2_plus, Qpower_opp, (Qpow2_Z k) by lia.
  rewrite (Qmake_Qdiv _ 32768). change (2 ^ (-15))%Q with (/ inject_Z 32768)%Q.
  field.
  assert (0 < inject_Z (2 ^ k))%Q as Hq by (rewrite <- (Zlt_Qlt 0); done).
  intros H0. rewrite H0 in Hq. by apply Qlt_irrefl in Hq.
Qed.

(** * The claims *)

Section Claims.
Context {F E CP : Type}.
Variable fo : float_ops F.
Variable eng : whisper_engine F E CP.
Implicit Types w : @world F E.

(** C9. The short forms are the language-detecting variants:
    [whisper_wrapper_transcribe] is [whisper_wrapper_transcribe_with_lang]
    with [true], and [whisper_wrapper_transcribe_pcm] is
    [whisper_wrapper_transcribe_pcm_with_lang] with [true]; they return the
    same pointer and leave the same world. *)
Theorem C9_short_forms (wrapper : option addr) (audio_path : option string)
    (pcm : option (list F)) (n : Z) w :
  whisper_wrapper_transcribe fo eng wrapper audio_path w
  = whisper_wrapper_transcribe_with_lang fo eng wrapper audio_path true w
  ∧ whisper_wrapper_transcribe_pcm eng wrapper pcm n w
  = whisper_wrapper_transcribe_pcm_with_lang eng wrapper pcm n true w.
Proof. split; reflexivity. Qed.

(** C10. [whisper_wrapper_free(NULL)] returns without changing the world,
    and [whisper_wrapper_is_loaded] changes nothing and answers [true]
    exactly when the handle is not null and its context is not null. *)
Theorem C10_null_handle w :
  whisper_wrapper_free eng None w = Ok tt w
  ∧ ∀ wrapper, valid_handle w wrapper →
      ∃ b, whisper_wrapper_is_loaded wrapper w = Ok b w
           ∧ (b = true ↔ wrapper ≠ None ∧ handle_ctx w wrapper ≠ None).
Proof.
  split; [done|].
  intros wrapper [->|[[c rb] H]].
  - exists false. split; [done|]. split; [done|]. by intros [? _].
  - pose proof H as H'. apply handle_at_Some in H' as (p & -> & Hp).
    exists (bool_decide (c ≠ None)). split.
    + unfold whisper_wrapper_is_loaded. simpl. unfold mbind, M_bind.
      by rewrite (load_wrapper_at _ _ _ _ Hp).
    + unfold handle_ctx. rewrite H. simpl. rewrite bool_decide_eq_true.
      split; [by intros ?|by intros [_ ?]].
Qed.

(** C4. With a null handle, a handle without a context, a null path, null
    samples or a sample count that is not positive, either transcription
    function returns the literal ["Error: Invalid parameters"] and leaves
    the world as it was: nothing is released, nothing is logged, neither
    the decoder nor the engine runs. *)
Theorem C4_invalid_parameters w wrapper (audio_path : option string)
    (pcm : option (list F)) (n : Z) (lang : bool) :
  valid_handle w wrapper →
  (wrapper = None ∨ handle_ctx w wrapper = None ∨ audio_path = None →
   whisper_wrapper_transcribe_with_lang fo eng wrapper audio_path lang w
   = Ok (CLit "Error: Invalid parameters") w)
  ∧ (wrapper = None ∨ handle_ctx w wrapper = None ∨ pcm = None ∨ n ≤ 0 →
     whisper_wrapper_transcribe_pcm_with_lang eng wrapper pcm n lang w
     = Ok (CLit "Error: Invalid parameters") w).
Proof.
  intros Hv.
  assert (wrapper = None ∨ ∃ p c rb, wrapper = Some p ∧ heap w !! p = Some (BWrapper c rb)
          ∧ handle_ctx w wrapper = c) as Hcases.
  { destruct Hv as [->|[[c rb] H]]; [by left|right].
    pose proof H as H'. apply handle_at_Some in H' as (p & -> & Hp).
    exists p, c, rb. repeat split; try done. unfold handle_ctx. by rewrite H. }
  clear Hv. split; intros Hbad.
  - destruct Hcases as [->|(p & c & rb & -> & Hp & Hc)]; [done|].
    unfold whisper_wrapper_transcribe_with_lang, mbind, M_bind.
    rewrite (load_wrapper_at _ _ _ _ Hp). simpl.
    destruct c as [c|]; [|done].
    destruct audio_path; [|done].
    rewrite Hc in Hbad. by destruct Hbad as [?|[?|?]].
  - destruct Hcases as [->|(p & c & rb & -> & Hp & Hc)]; [done|].
    unfold whisper_wrapper_transcribe_pcm_with_lang, mbind, M_bind.
    rewrite (load_wrapper_at _ _ _ _ Hp). simpl.
    destruct c as [c|]; [|done].
    destruct pcm; [|done].
    destruct (Z.leb_spec n 0); [done|].
    rewrite Hc in Hbad. destruct Hbad as [?|[?|[?|?]]]; try done. lia.
Qed.

(** C6. A file that yields fewer than 44 header bytes, or whose header
    lacks ["RIFF"] at offset 0 or ["WAVE"] at offset 8, makes
    [read_wav_file] return [false]; the out-parameters are untouched (so
    [*pcm] is never set) and nothing was allocated. *)
Theorem C6_bad_header w filename bytes o :
  fs w filename = Some bytes →
  (length bytes < 44)%nat ∨ take 4 bytes ≠ tag_RIFF ∨ take 4 (drop 8 bytes) ≠ tag_WAVE →
  ∃ w', read_wav_file fo filename o w = Ok (false, o) w' ∧ same_state w w'.
Proof. apply read_wav_file_bad_header. Qed.

(** C7. A header whose data size is not positive, whose channel count is
    not positive, whose bits per sample are none of 8, 16, 24, 32, or whose
    sample count [data_size / (bits_per_sample/8) / channels] is not
    positive makes [read_wav_file] return [false] after the 44 header
    bytes and before any read of sample data; [*pcm] is untouched and
    nothing was allocated. *)
Theorem C7_invalid_header w filename bytes o ds C bits rate :
  fs w filename = Some bytes →
  take 4 bytes = tag_RIFF → take 4 (drop 8 bytes) = tag_WAVE →
  load_int bytes 24 = Some rate → load_short bytes 22 = Some C →
  load_short bytes 34 = Some bits → load_int bytes 40 = Some ds →
  ds ≤ 0 ∨ C ≤ 0 ∨ bits ∉ [8; 16; 24; 32]
  ∨ (ds `quot` (bits `quot` 8)) `quot` C ≤ 0 →
  ∃ o' w', read_wav_file fo filename o w = Ok (false, o') w'
           ∧ o_pcm o' = o_pcm o ∧ same_state w w'
           ∧ trace w' = trace w ++ [EvFopen filename true; EvFread 44 44; EvFclose].
Proof.
  intros Hfs Hr Hv Hrate HC Hbits Hds Hbad.
  rewrite (read_wav_file_header fo _ _ _ _ _ _ _ _ Hfs Hr Hv Hrate HC Hbits Hds). simpl.
  destruct (Z.leb_spec ds 0) as [?|Hds0]; simpl.
  { eexists _, _. split; [done|]. by repeat split. }
  destruct (Z.leb_spec C 0) as [?|HC0]; simpl.
  { eexists _, _. split; [done|]. by repeat split. }
  destruct (negb (bits =? 16) && negb (bits =? 32) && negb (bits =? 8) && negb (bits =? 24))
    eqn:Hb; simpl.
  { eexists _, _. split; [done|]. by repeat split. }
  apply bits_check in Hb.
  destruct Hbad as [?|[?|[?|Hn]]]; [lia|lia|done|].
  unfold read_wav_data. apply Z.leb_le in Hn. rewrite Hn. run.
  eexists _, _. split; [done|]. simpl. rewrite <- !app_assoc. by repeat split.
Qed.

(** C5. A 16-bit file of [N] frames of [C] channels decodes to exactly [N]
    samples.  Sample [i] is the mix of frame [i] in single precision: its
    [C] interleaved 16-bit values, each divided by 32768, added up in order
    and divided by [C].  It stands for a number between -1 and 1.  Up to
    512 channels the quotients and their sum are exact, so that the sample
    is the average of the quotients rounded once; it is the average itself
    when [C] is a power of two, for two channels in particular. *)
Theorem C5_wav16_average (w : @world spec_float E) filename bytes o (N C rate : Z) :
  fs w filename = Some bytes →
  take 4 bytes = tag_RIFF → take 4 (drop 8 bytes) = tag_WAVE →
  load_short bytes 22 = Some C → load_int bytes 24 = Some rate →
  load_short bytes 34 = Some 16 → load_int bytes 40 = Some (2 * N * C) →
  1 ≤ N → 1 ≤ C → 44 + 2 * N * C ≤ Z.of_nat (length bytes) →
  heap_wf w → granted 2 (grants w) = true →
  ∃ (w' : @world spec_float E) a out,
    read_wav_file binary32_ops filename o w
    = Ok (true, {| o_pcm := Some a; o_samples := N; o_rate := rate |}) w'
    ∧ heap w' !! a = Some (BFloats out)
    ∧ Z.of_nat (length out) = N
    ∧ ∀ i, 0 ≤ i < N →
        ∃ (frame : list Z) (x : spec_float) (q : Q),
          frame_16 (drop 44 bytes) C i = Some frame
          ∧ Z.of_nat (length frame) = C
          ∧ out !! Z.to_nat i = Some x
          ∧ x = mix binary32_ops
                  ((λ s, SFdiv 24 128 (b32_of_Z s) (b32_of_Z 32768)) <$> frame) C
          ∧ b32_real x = Some q
          ∧ (-1 <= q <= 1)%Q
          ∧ (C ≤ 512 → rounds_to (average ((λ s, s # 32768) <$> frame)) x)
          ∧ (∀ k, 0 ≤ k → C = 2 ^ k → C ≤ 512 →
               (q == average ((λ s, s # 32768) <$> frame))%Q).
Proof.
  intros Hfs Hr Hv HC Hrate Hbits Hds HN HC1 Hlen Hwf Hg.
  destruct (read_wav_file_frames binary32_ops w filename bytes o N C rate 16 2)
    as (w' & out & Hrun & Hh & Hout); try done.
  { set_solver. }
  exists w', (brk w), out. split; [done|]. split; [done|].
  split. { apply mix_frames_length in Hout. lia. }
  intros i Hi.
  destruct (mix_frames_lookup binary32_ops _ _ _ _ i Hout Hi) as (xs & Hxs & Hi').
  change (sample_of binary32_ops 16) with (sample_16 binary32_ops) in Hxs.
  rewrite frame_16_samples in Hxs.
  destruct (frame_16 _ C i) as [frame|] eqn:Hframe; [|done].
  injection Hxs as <-. apply frame_16_take in Hframe.
  destruct (frame_16_range _ _ _ _ Hframe) as [Hfl Hfr].
  pose proof (load_short_range _ _ _ HC) as HCr.
  destruct (b32_mix_bounds (scale_16 binary32_ops <$> frame) C) as (q & Hq & Hq1).
  { lia. }
  { by rewrite length_fmap. }
  { apply Forall_fmap. eapply Forall_impl; [exact Hfr|]. intros s Hs. cbv beta in Hs. cbn.
    destruct (sample16_b32 s Hs) as (qs & Hqs & Heq). exists qs. split; [done|].
    rewrite Heq. split; unfold Qle; cbn [Qnum Qden]; lia. }
  exists frame, (mix binary32_ops (scale_16 binary32_ops <$> frame) C), q.
  split; [done|]. split; [lia|]. split; [done|]. split; [done|]. split; [done|].
  split; [done|]. split.
  - intros H512. apply b32_mix16; [done|lia|done].
  - intros k Hk Hpow H512.
    destruct (rounds_to_exact (average ((λ s, s # 32768) <$> frame))
                (mix binary32_ops (scale_16 binary32_ops <$> frame) C))
      as (q' & Hq' & Heq).
    + apply b32_mix16; [done|lia|done].
    + by apply (average16_rep frame C k).
    + rewrite Hq in Hq'. by injection Hq' as <-.
Qed.

(** C2. In a 24-bit file every sample is put together from its three
    bytes as the 32-bit integer [(b0 << 8) | (b1 << 16) | (b2 << 24)],
    which is 256 times the signed 24-bit value of the bytes, and is
    divided by 2147483648 before the channels of its frame are mixed. *)
Theorem C2_wav24_sample w filename bytes o (N C rate : Z) :
  fs w filename = Some bytes →
  take 4 bytes = tag_RIFF → take 4 (drop 8 bytes) = tag_WAVE →
  load_short bytes 22 = Some C → load_int bytes 24 = Some rate →
  load_short bytes 34 = Some 24 → load_int bytes 40 = Some (3 * N * C) →
  1 ≤ N → 1 ≤ C → 44 + 3 * N * C ≤ Z.of_nat (length bytes) →
  heap_wf w → granted 2 (grants w) = true →
  ∃ w' a out,
    read_wav_file fo filename o w
    = Ok (true, {| o_pcm := Some a; o_samples := N; o_rate := rate |}) w'
    ∧ heap w' !! a = Some (BFloats out)
    ∧ Z.of_nat (length out) = N
    ∧ ∀ i, 0 ≤ i < N →
        ∃ frame : list (Z * Z * Z),
          frame_24 (drop 44 bytes) C i = Some frame
          ∧ Z.of_nat (length frame) = C
          ∧ out !! Z.to_nat i
            = Some (mix fo
                ((λ '(b0, b1, b2),
                    f_div fo
                      (f_of_Z fo (wrap 32 (Z.lor (Z.lor (b0 ≪ 8) (b1 ≪ 16)) (b2 ≪ 24))))
                      (f_of_Z fo 2147483648)) <$> frame) C)
          ∧ Forall (λ '(b0, b1, b2),
                wrap 32 (Z.lor (Z.lor (b0 ≪ 8) (b1 ≪ 16)) (b2 ≪ 24))
                = 256 * standard24 b0 b1 b2) frame.
Proof.
  intros Hfs Hr Hv HC Hrate Hbits Hds HN HC1 Hlen Hwf Hg.
  destruct (read_wav_file_frames fo w filename bytes o N C rate 24 3)
    as (w' & out & Hrun & Hh & Hout); try done.
  { set_solver. }
  exists w', (brk w), out. split; [done|]. split; [done|].
  split. { apply mix_frames_length in Hout. lia. }
  intros i Hi.
  destruct (mix_frames_lookup fo _ _ _ _ i Hout Hi) as (xs & Hxs & Hi').
  change (sample_of fo 24) with (sample_24 fo) in Hxs.
  rewrite frame_24_samples in Hxs.
  destruct (frame_24 _ C i) as [frame|] eqn:Hframe; [|done].
  injection Hxs as <-. apply frame_24_take in Hframe.
  exists frame. split; [done|]. split.
  { apply length_mapM in Hframe. rewrite length_seqZ in Hframe. lia. }
  split.
  - rewrite Hi'. do 2 f_equal. apply list_fmap_ext. by intros _ [[b0 b1] b2] _.
  - apply Forall_forall. intros [[b0 b1] b2] _. apply sample24_standard24.
Qed.

(** C3. A transcription call that passes the parameter check releases
    the previous result buffer first: its release is the first event of
    the call and the buffer is dead afterwards.  When the call completes,
    the handle's result buffer is null or a block allocated during this
    call, and the pointer returned is that buffer (or the out-of-memory
    literal, with a null buffer).  On a file with a bad header the call
    completes with a fresh copy of ["Error: Failed to load audio file"]
    in place of the previous result. *)
Theorem C3_result_fresh w wp c rb :
  heap_wf w → loaded_handle w wp c rb →
  (∀ path pcm n lang r w',
     whisper_wrapper_transcribe_with_lang fo eng (Some wp) (Some path) lang w = Ok r w'
     ∨ (0 < n
        ∧ whisper_wrapper_transcribe_pcm_with_lang eng (Some wp) (Some pcm) n lang w
          = Ok r w') →
     (∀ old, rb = Some old →
        heap w' !! old = None ∧ ∃ t, trace w' = trace w ++ EvFree old :: t)
     ∧ ∃ rb', handle_at w' (Some wp) = Some (Some c, rb')
          ∧ (r = cptr_of rb' ∨ (r = CLit msg_alloc ∧ rb' = None))
          ∧ ∀ b, rb' = Some b →
              (brk w ≤ b)%positive ∧ ∃ cap text, heap w' !! b = Some (BChars cap text))
  ∧ (∀ path bytes lang,
       fs w path = Some bytes →
       (length bytes < 44)%nat ∨ take 4 bytes ≠ tag_RIFF
       ∨ take 4 (drop 8 bytes) ≠ tag_WAVE →
       granted 1 (grants w) = true →
       ∃ a w',
         whisper_wrapper_transcribe_with_lang fo eng (Some wp) (Some path) lang w
         = Ok (CHeap a) w'
         ∧ text_at w' (CHeap a) = Some "Error: Failed to load audio file"
         ∧ handle_result w' (Some wp) = Some a
         ∧ (brk w ≤ a)%positive
         ∧ ∀ old, rb = Some old → heap w' !! old = None).
Proof.
  intros Hwf Hh.
  assert (∀ r w', call_post w wp c rb r w' →
    (∀ old, rb = Some old →
        heap w' !! old = None ∧ ∃ t, trace w' = trace w ++ EvFree old :: t)
     ∧ ∃ rb', handle_at w' (Some wp) = Some (Some c, rb')
          ∧ (r = cptr_of rb' ∨ (r = CLit msg_alloc ∧ rb' = None))
          ∧ ∀ b, rb' = Some b →
              (brk w ≤ b)%positive ∧ ∃ cap text, heap w' !! b = Some (BChars cap text))
    as Hpost.
  { intros r w' (rb' & [(_ & _ & _ & _ & Hwp & Hrb & Hold & _) Hlive] & Hr). split.
    - intros old Ho. destruct (Hold old Ho) as (_ & ? & ?). done.
    - exists rb'. split_and!; [|done|].
      + unfold handle_at. simpl. by rewrite Hwp.
      + intros b Hb. split; [by apply Hrb|by apply Hlive]. }
  split.
  - intros path pcm n lang r w' [Hrun|[Hn Hrun]]; apply Hpost.
    + by eapply transcribe_file_inv.
    + by eapply transcribe_pcm_inv.
  - intros path bytes lang Hfs Hbad Hg.
    destruct (transcribe_file_corrupt fo eng w wp c rb path bytes lang Hwf Hh Hfs Hbad Hg)
      as (a & w' & Hrun & Ht & Hres & _).
    exists a, w'. split_and!; try done.
    + destruct (Hpost _ _ (transcribe_file_inv fo eng _ _ _ _ _ _ _ _ Hwf Hh Hrun))
        as (_ & rb' & Hat & _ & Hfresh).
      unfold handle_result in Hres. rewrite Hat in Hres. simpl in Hres.
      by apply Hfresh.
    + intros old Ho.
      destruct (Hpost _ _ (transcribe_file_inv fo eng _ _ _ _ _ _ _ _ Hwf Hh Hrun))
        as (Hold & _).
      by apply Hold.
Qed.

(** C8. Once the engine has run: a nonzero status of [whisper_full] makes
    the call return a copy of
    ["Error: Failed to process audio with whisper"]; status zero with no
    segment makes it return a copy of ["No speech detected"]; a [realloc]
    that fails while the result grows makes the loop release the text
    built so far and return a copy of the out-of-memory sentinel.  After a
    file call no block allocated during the call is live other than the
    result buffer, so the decoded samples have been released. *)
Theorem C8_failure_sentinels w wp c rb :
  heap_wf w → loaded_handle w wp c rb →
  (∀ path bytes pcm n rate lang st e',
     fs w path = Some bytes → wav_decode fo bytes = Some (pcm, n, rate) →
     whisper_full eng c
       (setup_params (whisper_full_default_params eng WHISPER_SAMPLING_GREEDY) lang)
       pcm n (engine_state w) = (st, e') →
     granted 3 (grants w) = true →
     st ≠ 0 ∨ whisper_full_n_segments eng c e' ≤ 0 →
     ∃ a w',
       whisper_wrapper_transcribe_with_lang fo eng (Some wp) (Some path) lang w
       = Ok (CHeap a) w'
       ∧ text_at w' (CHeap a)
         = Some (if decide (st = 0) then "No speech detected"
                 else "Error: Failed to process audio with whisper")
       ∧ handle_result w' (Some wp) = Some a
       ∧ ∀ x, (brk w ≤ x)%positive → is_Some (heap w' !! x) → x = a)
  ∧ (∀ pcm n lang st e',
       0 < n →
       whisper_full eng c
         (set_streaming
            (setup_params (whisper_full_default_params eng WHISPER_SAMPLING_GREEDY) lang))
         pcm n (engine_state w) = (st, e') →
       granted 1 (grants w) = true →
       st ≠ 0 ∨ whisper_full_n_segments eng c e' ≤ 0 →
       ∃ a w',
         whisper_wrapper_transcribe_pcm_with_lang eng (Some wp) (Some pcm) n lang w
         = Ok (CHeap a) w'
         ∧ text_at w' (CHeap a)
           = Some (if decide (st = 0) then "No speech detected"
                   else "Error: Failed to process audio with whisper")
         ∧ handle_result w' (Some wp) = Some a)
  ∧ (∀ (w1 : @world F E) n i rest bs b cap text g,
       heap_wf w1 →
       heap w1 !! wp = Some (BWrapper (Some c) (Some b)) →
       heap w1 !! b = Some (BChars cap text) →
       bs < Z.of_nat (String.length text)
            + Z.of_nat (String.length
                          (whisper_full_get_segment_text eng c i (engine_state w1))) + 2
          ≤ INT_MAX →
       0 < bs → 2 * bs ≤ INT_MAX →
       grants w1 = false :: true :: g →
       ∃ a w',
         segments_loop eng wp c n (i :: rest) bs w1 = Ok (CHeap a) w'
         ∧ text_at w' (CHeap a)
           = Some "Error: Failed to allocate memory for transcription"
         ∧ handle_result w' (Some wp) = Some a
         ∧ heap w' !! b = None)
  ∧ (∀ path lang r w',
       whisper_wrapper_transcribe_with_lang fo eng (Some wp) (Some path) lang w = Ok r w' →
       ∀ x, (brk w ≤ x)%positive → is_Some (heap w' !! x) →
            handle_result w' (Some wp) = Some x).
Proof.
  intros Hwf Hh. split_and!.
  - intros path bytes pcm n rate lang st e' Hfs Hdec Hfull Hg Hcase.
    apply (granted_drop 2 1) in Hg as [Hg2 Hg1].
    destruct (transcribe_file_prefix fo eng w wp c rb path bytes pcm n rate lang st e'
                Hwf Hh Hfs Hdec Hg2 Hfull) as (w4 & -> & Hinv & Hg4 & He4).
    destruct (decide (st = 0)) as [->|Hst].
    + simpl. destruct Hcase as [?|Hn]; [done|].
      apply (collect_no_speech eng w wp c rb); [done|congruence|by rewrite He4].
    + apply Z.eqb_neq in Hst. rewrite Hst. simpl.
      apply (return_copy_result w wp c rb); [done|congruence].
  - intros pcm n lang st e' Hn Hfull Hg Hcase.
    destruct (transcribe_pcm_prefix eng w wp c rb pcm n lang st e' Hwf Hh Hn Hfull)
      as (w2 & -> & Hinv & Hg2 & He2).
    destruct (decide (st = 0)) as [->|Hst].
    + simpl. destruct Hcase as [?|Hseg]; [done|].
      destruct (collect_no_speech eng w wp c rb w2) as (a & w' & ? & ? & ? & _);
        [done|congruence|by rewrite He2|]. eauto.
    + apply Z.eqb_neq in Hst. rewrite Hst. simpl.
      destruct (return_copy_result w wp c rb w2 msg_process) as (a & w' & ? & ? & ? & _);
        [done|congruence|]. eauto.
  - intros w1 n i rest bs b cap text g. apply growth_failure.
  - intros path lang r w' Hrun x Hx Hlive.
    destruct (transcribe_file_inv fo eng _ _ _ _ _ _ _ _ Hwf Hh Hrun)
      as (rb' & [(Hwf0 & _ & Hwp & _ & Hhw & _ & Hold & _ & Hfr) _] & _).
    unfold handle_result, handle_at. simpl. rewrite Hhw. simpl.
    destruct (decide (rb' = Some x)) as [|Hne]; [done|].
    rewrite Hfr in Hlive.
    + apply Hwf0 in Hlive. lia.
    + lia.
    + done.
    + intros ->. destruct (Hold x eq_refl) as [? _]. lia.
Qed.

End Claims.

(** * The claims on sample worlds *)

Lemma boot_wf {F : Type} g files status script :
  heap_wf (@boot F g files status script).
Proof. intros a [x Ha]. simpl in Ha. by rewrite lookup_empty in Ha. Qed.

Lemma session_wf {F : Type} g files status script :
  heap_wf (@session F g files status script).
Proof.
  intros a [x Ha]. simpl in *.
  apply lookup_insert_Some in Ha as [[<- _]|[_ Ha]]; [done|].
  apply lookup_singleton_Some in Ha as [<- _]. done.
Qed.

Lemma session_loaded {F : Type} g files status script :
  loaded_handle (@session F g files status script) 1 1 (Some 2%positive).
Proof.
  split; [done|]. intros b [= <-]. by eexists _, _.
Qed.

Lemma session_valid {F : Type} g files status script :
  valid_handle (@session F g files status script) (Some 1%positive).
Proof. right. by eexists. Qed.

(** C1. A single segment of 32768 characters: the loop doubles the
    16 KiB buffer once, to 32768 bytes, and [strcat] then writes the
    segment and its terminator, 32769 bytes, past the end of the buffer.
    Both entry points leave the defined behaviour of C instead of
    returning the text. *)
Theorem C1_long_segment_overflow :
  whisper_wrapper_transcribe_pcm (stub_engine Q) (Some 1%positive) (Some [(1 # 2)%Q]) 1
    (session [] no_files 0 [string_repeat "a" (Z.to_nat 32768)])
  = Undef OutOfBounds
  ∧ whisper_wrapper_transcribe exact_ops (stub_engine Q) (Some 1%positive) (Some "a.wav")
      (session [] (one_file "a.wav" wav16_mono) 0 [string_repeat "a" (Z.to_nat 32768)])
    = Undef OutOfBounds.
Proof. split; vm_compute; reflexivity. Qed.

(** One character less fits the doubled buffer exactly. *)
Example longest_single_segment :
  bool_decide
    (returned_text
       (whisper_wrapper_transcribe_pcm (stub_engine Q) (Some 1%positive) (Some [(1 # 2)%Q]) 1
          (session [] no_files 0 [string_repeat "a" (Z.to_nat 32767)]))
     = Some (string_repeat "a" (Z.to_nat 32767)))
  = true.
Proof. vm_compute. reflexivity. Qed.

Example three_segments :
  returned_text
    (whisper_wrapper_transcribe_pcm (stub_engine Q) (Some 1%positive) (Some [(1 # 2)%Q]) 1
       (session [] no_files 0 ["Hello"; "world"; "again"]))
  = Some "Hello world again".
Proof. vm_compute. reflexivity. Qed.

Lemma C3_result_fresh_witness :
  ∃ r w',
    whisper_wrapper_transcribe_pcm_with_lang (stub_engine Q) (Some 1%positive)
      (Some [(1 # 2)%Q]) 1 true (session [] no_files 0 ["Hello"; "world"]) = Ok r w'
    ∧ heap w' !! 2%positive = None
    ∧ ∃ rb', handle_at w' (Some 1%positive) = Some (Some 1%positive, rb')
             ∧ r = cptr_of rb'.
Proof.
  destruct (whisper_wrapper_transcribe_pcm_with_lang (stub_engine Q) (Some 1%positive)
              (Some [(1 # 2)%Q]) 1 true (session [] no_files 0 ["Hello"; "world"]))
    as [r w'|] eqn:Hrun; [|vm_compute in Hrun; discriminate].
  exists r, w'. split; [reflexivity|].
  destruct (proj1 (C3_result_fresh exact_ops (stub_engine Q) _ 1%positive 1%positive
                     (Some 2%positive) (session_wf _ _ _ _) (session_loaded _ _ _ _))
              "" [(1 # 2)%Q] 1 true r w' (or_intror (conj eq_refl Hrun)))
    as [Hold (rb' & Hat & Hr & _)].
  split; [apply (Hold 2%positive eq_refl)|].
  exists rb'. split; [exact Hat|].
  destruct Hr as [Hr|[Hr _]]; [exact Hr|].
  vm_compute in Hrun. injection Hrun as <- _. discriminate.
Defined.

Lemma C4_invalid_parameters_witness :
  whisper_wrapper_transcribe_pcm_with_lang (stub_engine Q) (Some 1%positive)
    (Some [(1 # 2)%Q]) 0 true (session [] no_files 0 ["Hello"])
  = Ok (CLit "Error: Invalid parameters") (session [] no_files 0 ["Hello"]).
Proof.
  apply (proj2 (C4_invalid_parameters exact_ops (stub_engine Q)
                  (session [] no_files 0 ["Hello"]) (Some 1%positive) None
                  (Some [(1 # 2)%Q]) 0 true (session_valid _ _ _ _))).
  right; right; right. lia.
Defined.

Lemma C10_null_handle_witness :
  ∃ b, whisper_wrapper_is_loaded (Some 1%positive)
         (@session Q [] no_files 0 ["Hello"]) = Ok b (session [] no_files 0 ["Hello"])
       ∧ (b = true ↔ Some 1%positive ≠ None
                     ∧ handle_ctx (@session Q [] no_files 0 ["Hello"]) (Some 1%positive)
                       ≠ None).
Proof.
  exact (proj2 (C10_null_handle (stub_engine Q) (session [] no_files 0 ["Hello"]))
           (Some 1%positive) (session_valid _ _ _ _)).
Defined.

Lemma C6_bad_header_witness :
  ∃ w', read_wav_file binary32_ops "a.wav" wav_out0
          (@boot spec_float [] (one_file "a.wav" (take 10 wav16_mono)) 0 [])
        = Ok (false, wav_out0) w'
        ∧ same_state (boot [] (one_file "a.wav" (take 10 wav16_mono)) 0 []) w'.
Proof.
  apply (C6_bad_header binary32_ops _ "a.wav" (take 10 wav16_mono)); [reflexivity|].
  left. vm_compute. lia.
Defined.

Lemma C7_invalid_header_witness :
  ∃ o' w', read_wav_file binary32_ops "a.wav" wav_out0
             (@boot spec_float [] (one_file "a.wav" wav12) 0 [])
           = Ok (false, o') w'
           ∧ o_pcm o' = None
           ∧ trace w' = [EvFopen "a.wav" true; EvFread 44 44; EvFclose].
Proof.
  destruct (C7_invalid_header binary32_ops
              (@boot spec_float [] (one_file "a.wav" wav12) 0 [])
              "a.wav" wav12 wav_out0 4 1 12 16000)
    as (o' & w' & Hrun & Hpcm & _ & Htr);
    [reflexivity|reflexivity|reflexivity|reflexivity|reflexivity|reflexivity|reflexivity| |].
  - right; right; left. intros H.
    repeat (apply elem_of_cons in H as [H|H]; [discriminate H|]).
    by apply elem_of_nil in H.
  - exists o', w'. split; [exact Hrun|]. split; [exact Hpcm|exact Htr].
Defined.

Lemma C5_wav16_average_witness :
  ∃ w' a out,
    read_wav_file binary32_ops "a.wav" wav_out0
      (@boot spec_float [] (one_file "a.wav" wav16_stereo) 0 [])
    = Ok (true, {| o_pcm := Some a; o_samples := 2; o_rate := 16000 |}) w'
    ∧ heap w' !! a = Some (BFloats out)
    ∧ Z.of_nat (length out) = 2.
Proof.
  destruct (C5_wav16_average
              (@boot spec_float [] (one_file "a.wav" wav16_stereo) 0 [])
              "a.wav" wav16_stereo wav_out0 2 2 16000)
    as (w' & a & out & Hrun & Hh & Hlen & _);
    [reflexivity|reflexivity|reflexivity|reflexivity|reflexivity|reflexivity|reflexivity
    |lia|lia|vm_compute; discriminate|apply boot_wf|reflexivity|].
  exists w', a, out. split; [exact Hrun|]. split; [exact Hh|exact Hlen].
Defined.

(** The equality of C5 does not extend to three channels.  One frame
    holding 1, 0 and 0: the average of the quotients is 1/98304, which no
    single holds; the decoder returns 11184811 / 2^40, the single next
    above it. *)
Lemma C5_three_channels_counterexample :
  ∃ x q,
    decoded (read_wav_file binary32_ops "a.wav" wav_out0
               (@boot spec_float [] (one_file "a.wav" wav16_three) 0 []))
    = Some [x]
    ∧ frame_16 (drop 44 wav16_three) 3 0 = Some [1; 0; 0]
    ∧ b32_real x = Some q
    ∧ (average [1 # 32768; 0 # 32768; 0 # 32768] < q)%Q.
Proof.
  exists (S754_finite false 11184811 (-40)), (dyadic 11184811 (-40)).
  split; [vm_compute; reflexivity|]. split; [vm_compute; reflexivity|].
  split; [reflexivity|]. vm_compute. reflexivity.
Qed.

Lemma C2_wav24_sample_witness :
  ∃ w' a out,
    read_wav_file binary32_ops "a.wav" wav_out0
      (@boot spec_float [] (one_file "a.wav" wav24_mono) 0 [])
    = Ok (true, {| o_pcm := Some a; o_samples := 2; o_rate := 16000 |}) w'
    ∧ heap w' !! a = Some (BFloats out)
    ∧ Z.of_nat (length out) = 2.
Proof.
  destruct (C2_wav24_sample binary32_ops
              (@boot spec_float [] (one_file "a.wav" wav24_mono) 0 [])
              "a.wav" wav24_mono wav_out0 2 1 16000)
    as (w' & a & out & Hrun & Hh & Hlen & _);
    [reflexivity|reflexivity|reflexivity|reflexivity|reflexivity|reflexivity|reflexivity
    |lia|lia|vm_compute; discriminate|apply boot_wf|reflexivity|].
  exists w', a, out. split; [exact Hrun|]. split; [exact Hh|exact Hlen].
Defined.

Lemma C8_failure_sentinels_witness :
  ∃ a w',
    whisper_wrapper_transcribe_with_lang exact_ops (stub_engine Q) (Some 1%positive)
      (Some "a.wav") true (session [] (one_file "a.wav" wav16_mono) 1 [])
    = Ok (CHeap a) w'
    ∧ text_at w' (CHeap a) = Some "Error: Failed to process audio with whisper"
    ∧ handle_result w' (Some 1%positive) = Some a.
Proof.
  destruct (wav_decode exact_ops wav16_mono) as [[[pcm n] rate]|] eqn:Hdec;
    [|vm_compute in Hdec; discriminate Hdec].
  destruct (proj1 (C8_failure_sentinels exact_ops (stub_engine Q)
                     (session [] (one_file "a.wav" wav16_mono) 1 [])
                     1%positive 1%positive (Some 2%positive)
                     (session_wf _ _ _ _) (session_loaded _ _ _ _))
              "a.wav" wav16_mono pcm n rate true 1
              {| stub_status := 1; stub_script := []; stub_segments := [] |})
    as (a & w' & Hrun & Ht & Hres & _);
    [reflexivity|exact Hdec|reflexivity|reflexivity|left; discriminate|].
  exists a, w'. split; [exact Hrun|]. split; [exact Ht|exact Hres].
Defined.

(** C8 needs its hypothesis on the allocator.  The engine reports status
    1 and the allocator refuses the copy of the sentinel: the call returns
    the null pointer, not the text. *)
Lemma C8_sentinel_copy_counterexample :
  ∃ w' params,
    whisper_wrapper_transcribe_pcm_with_lang (stub_engine Q) (Some 1%positive)
      (Some [(1 # 2)%Q]) 1 true (session [false] no_files 1 []) = Ok CNull w'
    ∧ trace w' = [EvFree 2%positive; EvWhisperFull 1%positive params 1 1;
                  EvStrdup "Error: Failed to process audio with whisper" None]
    ∧ returned_text (Ok CNull w') = None.
Proof. eexists _, _. split; [vm_compute; reflexivity|]. split; reflexivity. Qed.

(** ** Sample runs *)

(** What the decoder computes in single precision: the stereo frames
    (0.5, -1.0) and (32767/32768, 1/32768) mix to -0.25 and 0.5. *)
Example wav16_stereo_binary32 :
  decoded (read_wav_file binary32_ops "a.wav" wav_out0
             (@boot spec_float [] (one_file "a.wav" wav16_stereo) 0 []))
  = Some [S754_finite true 8388608 (-25); S754_finite false 8388608 (-24)].
Proof. vm_compute. reflexivity. Qed.

(** The bytes 01 00 40 give [0x40000100 / 2^31], 256 times the 24-bit
    value 0x400001 over [2^31]; ff ff ff gives [-256 / 2^31]. *)
Example wav24_mono_exact :
  decoded (read_wav_file exact_ops "a.wav" wav_out0
             (@boot Q [] (one_file "a.wav" wav24_mono) 0 []))
  = Some [(1073742080 # 2147483648)%Q; (-256 # 2147483648)%Q]
  ∧ sample24 1 0 64 = 1073742080 ∧ standard24 1 0 64 = 4194305
  ∧ sample24 255 255 255 = -256 ∧ standard24 255 255 255 = -1.
Proof. vm_compute. repeat split; reflexivity. Qed.

(** A sample count of zero never reaches the engine. *)
Example pcm_zero_samples :
  whisper_wrapper_transcribe_pcm (stub_engine Q) (Some 1%positive) (Some []) 0
    (session [] no_files 0 ["Hello"])
  = Ok (CLit "Error: Invalid parameters") (session [] no_files 0 ["Hello"]).
Proof. reflexivity. Qed.

(** A refused [realloc]: the first segment does not fit the initial
    buffer, the allocator grants the buffer, refuses to grow it and grants
    the copy of the sentinel. *)
Example growth_refused :
  returned_text
    (whisper_wrapper_transcribe_pcm (stub_engine Q) (Some 1%positive) (Some [(1 # 2)%Q]) 1
       (session [true; false; true] no_files 0
          [string_repeat "a" (Z.to_nat 16383); "tail"]))
  = Some "Error: Failed to allocate memory for transcription".
Proof. vm_compute. reflexivity. Qed.

(** A header of 12 bits per sample is rejected, and the transcription
    call turns that into the sentinel text. *)
Example unsupported_depth :
  returned_text
    (whisper_wrapper_transcribe exact_ops (stub_engine Q) (Some 1%positive) (Some "a.wav")
       (session [] (one_file "a.wav" wav12) 0 ["Hello"]))
  = Some "Error: Failed to load audio file".
Proof. vm_compute. reflexivity. Qed.

(** Creating a handle and transcribing a file. *)
Example create_and_transcribe :
  returned_text
    ((wrapper ← whisper_wrapper_create (stub_engine Q) "model.bin";
      whisper_wrapper_transcribe exact_ops (stub_engine Q) wrapper (Some "a.wav"))
       (boot [] (one_file "a.wav" wav16_mono) 0 ["Hello"; "world"]))
  = Some "Hello world".
Proof. vm_compute. reflexivity. Qed.

(** * Further properties *)

(** ** The life cycle of a handle *)

Section LifeCycle.
Context {F E CP : Type}.
Variable fo : float_ops F.
Variable eng : whisper_engine F E CP.
Implicit Types w : @world F E.

Lemma fresh_brk w : heap_wf w → heap w !! brk w = None.
Proof. intros Hwf. apply eq_None_not_Some. intros H%Hwf. lia. Qed.

Lemma heap_wf_alloc w (b : @block F) (w' : @world F E) :
  heap_wf w → heap w' = <[brk w := b]> (heap w) → brk w' = Pos.succ (brk w) → heap_wf w'.
Proof.
  intros Hwf Hh Hb a [x Ha]. rewrite Hb. rewrite Hh in Ha.
  apply lookup_insert_Some in Ha as [[<- _]|[_ Ha]]; [lia|].
  assert (a < brk w)%positive by (apply Hwf; by eexists). lia.
Qed.

Lemma create_loaded w model_path c e' :
  heap_wf w → granted 1 (grants w) = true →
  whisper_init_from_file_with_params eng model_path
    (whisper_context_default_params eng) (engine_state w) = (Some c, e') →
  ∃ w',
    whisper_wrapper_create eng model_path w = Ok (Some (brk w)) w'
    ∧ heap w' = <[brk w := BWrapper (Some c) None]> (heap w)
    ∧ brk w' = Pos.succ (brk w)
    ∧ engine_state w' = e'.
Proof.
  intros Hwf Hg Hinit. apply granted_S in Hg as [Hg _].
  unfold whisper_wrapper_create. run. rewrite Hg. run. rewrite Hinit. run.
  rewrite lookup_insert_eq. run.
  eexists. split; [reflexivity|]. simpl. by rewrite insert_insert_eq.
Qed.

Lemma create_refused w model_path :
  granted 1 (grants w) = false →
  ∃ w', whisper_wrapper_create eng model_path w = Ok None w'
        ∧ heap w' = heap w ∧ engine_state w' = engine_state w.
Proof.
  intros Hg. unfold whisper_wrapper_create. run.
  assert (next_grant (grants w) = (false, drop 1 (grants w))) as ->.
  { unfold granted in Hg. destruct (grants w) as [|[] g]; done. }
  run. by eexists.
Qed.

Lemma create_not_loaded w model_path e' :
  heap_wf w → granted 1 (grants w) = true →
  whisper_init_from_file_with_params eng model_path
    (whisper_context_default_params eng) (engine_state w) = (None, e') →
  ∃ w', whisper_wrapper_create eng model_path w = Ok None w' ∧ heap w' = heap w.
Proof.
  intros Hwf Hg Hinit. apply granted_S in Hg as [Hg _].
  unfold whisper_wrapper_create. run. rewrite Hg. run. rewrite Hinit. run.
  rewrite lookup_insert_eq. run. rewrite lookup_insert_eq. run.
  eexists. split; [reflexivity|]. simpl.
  rewrite insert_insert_eq, delete_insert_eq. apply delete_id. by apply fresh_brk.
Qed.

Lemma whisper_wrapper_free_run w wp (ctx : option positive) (rb : option positive) :
  heap w !! wp = Some (BWrapper ctx rb) →
  (∀ b, rb = Some b → b ≠ wp ∧ is_Some (heap w !! b)) →
  ∃ w', whisper_wrapper_free eng (Some wp) w = Ok tt w'
        ∧ heap w' = delete wp (match rb with Some b => delete b (heap w) | None => heap w end)
        ∧ brk w' = brk w ∧ grants w' = grants w
        ∧ engine_state w'
          = match ctx with
            | Some c => whisper_free eng c (engine_state w)
            | None => engine_state w
            end
        ∧ trace w' = trace w ++ match ctx with Some c => [EvWhisperFree c] | None => [] end
                             ++ match rb with Some b => [EvFree b] | None => [] end
                             ++ [EvFree wp].
Proof.
  intros Hwp Hrb. unfold whisper_wrapper_free. run. rewrite Hwp. run.
  destruct ctx as [c|], rb as [b|]; run.
  - destruct (Hrb b eq_refl) as [Hne [x Hb]]. rewrite Hb. run.
    rewrite lookup_delete_ne, Hwp by done.
    eexists. split; [reflexivity|]. simpl. by rewrite <- ?app_assoc.
  - rewrite Hwp. eexists. split; [reflexivity|]. simpl. by rewrite <- ?app_assoc.
  - destruct (Hrb b eq_refl) as [Hne [x Hb]]. rewrite Hb. run.
    rewrite lookup_delete_ne, Hwp by done.
    eexists. split; [reflexivity|]. simpl. by rewrite <- ?app_assoc.
  - rewrite Hwp. eexists. split; [reflexivity|]. simpl. by rewrite <- ?app_assoc.
Qed.

(** X1. [whisper_wrapper_create] always returns.  It returns null exactly
    when the allocator refuses the handle or the engine fails to load the
    model, and then the heap is as before (the storage of the handle has
    been released); when the allocator refuses, the state of the engine is
    untouched.
    Otherwise it returns a fresh handle that holds the engine's context
    and a null result buffer, for which [whisper_wrapper_is_loaded]
    answers [true]. *)
Theorem X1_create_outcome w model_path :
  heap_wf w →
  ∃ r w',
    whisper_wrapper_create eng model_path w = Ok r w'
    ∧ (r = None ↔
       granted 1 (grants w) = false
       ∨ (whisper_init_from_file_with_params eng model_path
            (whisper_context_default_params eng) (engine_state w)).1 = None)
    ∧ (granted 1 (grants w) = false → engine_state w' = engine_state w)
    ∧ match r with
      | None => heap w' = heap w
      | Some p =>
          ∃ c, (whisper_init_from_file_with_params eng model_path
                  (whisper_context_default_params eng) (engine_state w)).1 = Some c
               ∧ heap w !! p = None
               ∧ heap w' = <[p := BWrapper (Some c) None]> (heap w)
               ∧ heap_wf w' ∧ loaded_handle w' p c None
               ∧ whisper_wrapper_is_loaded (Some p) w' = Ok true w'
      end.
Proof.
  intros Hwf. destruct (granted 1 (grants w)) eqn:Hg.
  - destruct (whisper_init_from_file_with_params eng model_path
                (whisper_context_default_params eng) (engine_state w)) as [[c|] e'] eqn:Hinit.
    + destruct (create_loaded w model_path c e' Hwf Hg Hinit) as (w' & Hrun & Hh & Hb & He).
      exists (Some (brk w)), w'. split; [done|]. split_and!; [|done|].
      { split; [done|]. by intros [?|?]. }
      exists c. split_and!; try done.
      * by apply fresh_brk.
      * by eapply heap_wf_alloc.
      * split; [by rewrite Hh, lookup_insert_eq|done].
      * unfold whisper_wrapper_is_loaded. run. by rewrite Hh, lookup_insert_eq.
    + destruct (create_not_loaded w model_path e' Hwf Hg Hinit) as (w' & Hrun & Hh).
      exists None, w'. split; [done|]. split_and!; try done.
      split; [by right|done].
  - destruct (create_refused w model_path Hg) as (w' & Hrun & Hh & He).
    exists None, w'. split; [done|]. split_and!; try done.
    split; [by left|done].
Qed.

(** X2. [whisper_wrapper_free] on a live handle releases the engine
    context if there is one, then the result buffer if there is one, then
    the handle itself, in this order and each once; no other block and
    nothing of the allocator changes. *)
Theorem X2_free_releases w wp (ctx : option positive) (rb : option positive) :
  heap w !! wp = Some (BWrapper ctx rb) →
  (∀ b, rb = Some b → b ≠ wp ∧ is_Some (heap w !! b)) →
  ∃ w', whisper_wrapper_free eng (Some wp) w = Ok tt w'
        ∧ heap w' = delete wp (match rb with Some b => delete b (heap w) | None => heap w end)
        ∧ brk w' = brk w ∧ grants w' = grants w
        ∧ engine_state w'
          = match ctx with
            | Some c => whisper_free eng c (engine_state w)
            | None => engine_state w
            end
        ∧ trace w' = trace w ++ match ctx with Some c => [EvWhisperFree c] | None => [] end
                             ++ match rb with Some b => [EvFree b] | None => [] end
                             ++ [EvFree wp].
Proof. apply whisper_wrapper_free_run. Qed.

(** X3. Creating a handle and freeing what was returned leaves the heap
    as it was, whatever the allocator and the engine answer; a context the
    engine handed out is given back to it. *)
Theorem X3_create_free_round_trip w model_path :
  heap_wf w →
  ∃ w' t,
    (wrapper ← whisper_wrapper_create eng model_path;
     whisper_wrapper_free eng wrapper) w = Ok tt w'
    ∧ heap w' = heap w
    ∧ trace w' = trace w ++ t
    ∧ ∀ c, EvInit model_path (Some c) ∈ t → EvWhisperFree c ∈ t.
Proof.
  intros Hwf. pose proof (fresh_brk w Hwf) as Hfresh.
  unfold whisper_wrapper_create, whisper_wrapper_free. run.
  destruct (next_grant (grants w)) as [[] g]; run.
  2:{ eexists _, _. split; [reflexivity|]. simpl. split_and!; try done.
      intros c Hc. in_trace Hc. }
  destruct (whisper_init_from_file_with_params _ _ _ _) as [[c|] e']; run;
    rewrite lookup_insert_eq; run; rewrite lookup_insert_eq; run.
  - rewrite lookup_insert_eq.
    eexists _, _. split; [reflexivity|]. simpl. rewrite <- !app_assoc. simpl.
    split_and!; try done.
    + rewrite insert_insert_eq, delete_insert_eq. by apply delete_id.
    + intros c' Hc. in_trace Hc.
  - eexists _, _. split; [reflexivity|]. simpl. rewrite <- !app_assoc. simpl.
    split_and!; try done.
    + rewrite insert_insert_eq, delete_insert_eq. by apply delete_id.
    + intros c' Hc. in_trace Hc.
Qed.

(** X4. After any completed transcription call on a loaded handle,
    [whisper_wrapper_free] succeeds and leaves exactly the blocks the heap
    held before the call, less the handle and its earlier result: nothing
    the call allocated outlives the handle, and no other block was
    touched. *)
Theorem X4_transcribe_then_free w wp c rb path pcm n lang r w' :
  heap_wf w → loaded_handle w wp c rb →
  whisper_wrapper_transcribe_with_lang fo eng (Some wp) (Some path) lang w = Ok r w'
  ∨ (0 < n
     ∧ whisper_wrapper_transcribe_pcm_with_lang eng (Some wp) (Some pcm) n lang w = Ok r w') →
  ∃ w'', whisper_wrapper_free eng (Some wp) w' = Ok tt w''
         ∧ ∀ x, heap w'' !! x = if decide (x = wp ∨ rb = Some x) then None else heap w !! x.
Proof.
  intros Hwf Hh Hrun.
  assert (call_post w wp c rb r w') as (rb' & Hinv & _).
  { destruct Hrun as [Hrun|[Hn Hrun]].
    - by eapply transcribe_file_inv.
    - by eapply transcribe_pcm_inv. }
  destruct Hinv as [(Hwf0 & Hwf' & Hwp & Hbrk & Hhw & Hrb & Hold & _ & Hfr) Hlive].
  destruct (whisper_wrapper_free_run w' wp (Some c) rb' Hhw) as (w'' & Hfree & Hheap & _).
  { intros b ->. destruct (Hlive b eq_refl) as (cap & text & Hb).
    split; [congruence|by eexists]. }
  exists w''. split; [done|]. intros x. rewrite Hheap.
  destruct (decide (x = wp)) as [->|Hx].
  { rewrite lookup_delete_eq. rewrite decide_True; [done|by left]. }
  rewrite lookup_delete_ne by done.
  destruct (decide (rb = Some x)) as [->|Hxo].
  { rewrite decide_True by (by right).
    destruct (Hold x eq_refl) as (? & Hdead & _).
    destruct rb' as [b|]; [|done].
    destruct (decide (x = b)) as [->|]; [by rewrite lookup_delete_eq|].
    by rewrite lookup_delete_ne. }
  rewrite decide_False by (intros [?|?]; done).
  destruct rb' as [b|].
  - destruct (decide (x = b)) as [->|Hxb].
    + rewrite lookup_delete_eq. symmetry. apply eq_None_not_Some. intros H%Hwf0.
      specialize (Hrb b eq_refl). lia.
    + rewrite lookup_delete_ne by done. apply Hfr; congruence.
  - apply Hfr; congruence.
Qed.

End LifeCycle.

(** ** Every path through the decoder *)

Lemma next_grant_drop (g : list bool) : (next_grant g).2 = drop 1 g.
Proof. by destruct g. Qed.

Section Paths.
Context {F E : Type}.
Variable fo : float_ops F.
Implicit Types w : @world F E.

Lemma read_wav_data_paths (fp : list byte) (bits C ds : Z) (o : wav_out) w :
  heap_wf w → bits ∈ [8; 16; 24; 32] → 0 < C → 0 < ds →
  ∃ r w' mid,
    read_wav_data fo fp bits C ds o w = Ok r w'
    ∧ trace w' = trace w ++ mid ++ [EvFclose]
    ∧ forallb decoder_event mid = true
    ∧ (∃ k, grants w' = drop k (grants w))
    ∧ o_rate r.2 = o_rate o
    ∧ o_samples r.2 = (ds `quot` (bits `quot` 8)) `quot` C
    ∧ if r.1 then
        0 < (ds `quot` (bits `quot` 8)) `quot` C
        ∧ Z.of_nat (length (take (Z.to_nat ds) fp)) = ds
        ∧ o_pcm r.2 = Some (brk w)
        ∧ ∃ out, heap w' !! brk w = Some (BFloats out)
                 ∧ mix_frames fo (sample_of fo bits (take (Z.to_nat ds) fp))
                     ((ds `quot` (bits `quot` 8)) `quot` C) C = Some out
      else
        o_pcm r.2 = o_pcm o ∨ o_pcm r.2 = None
        ∨ (o_pcm r.2 = Some (brk w) ∧ heap w' !! brk w = None).
Proof.
  intros Hwf Hb HC Hds. unfold read_wav_data.
  set (n := (ds `quot` (bits `quot` 8)) `quot` C).
  destruct (Z.leb_spec n 0) as [Hn|Hn].
  { run. eexists _, _, []. split; [reflexivity|]. simpl. split_and!; auto.
    by exists 0%nat. }
  assert (heap w !! brk w = None) as Hfresh.
  { apply eq_None_not_Some. intros H%Hwf. lia. }
  pose proof (next_grant_drop (grants w)) as Hg1.
  run. destruct (next_grant (grants w)) as [[] g1]; simpl in Hg1; subst g1; run.
  2:{ eexists _, _, [_]. split; [reflexivity|]. simpl. rewrite <- !app_assoc.
      split_and!; auto. by exists 1%nat. }
  pose proof (next_grant_drop (drop 1 (grants w))) as Hg2. rewrite drop_drop in Hg2.
  destruct (next_grant (drop 1 (grants w))) as [[] g2]; simpl in Hg2; subst g2; run.
  2:{ rewrite lookup_insert_eq. run.
      eexists _, _, [_; _; _]. split; [reflexivity|]. simpl. rewrite <- !app_assoc.
      split_and!; auto; [by exists 2%nat|].
      right; right. split; [done|]. by rewrite lookup_delete_eq. }
  rewrite lookup_insert_eq. run.
  destruct (Z.eqb_spec (Z.of_nat (length (take (Z.to_nat ds) fp))) ds) as [Hlen|Hlen]; run.
  2:{ rewrite lookup_insert_eq. run.
      rewrite lookup_delete_ne, lookup_insert_ne, lookup_insert_ne, lookup_insert_eq by lia.
      run. eexists _, _, [_; _; _; _; _]. split; [reflexivity|]. simpl.
      rewrite <- !app_assoc. split_and!; auto; [by exists 2%nat|].
      right; right. split; [done|]. by rewrite lookup_delete_eq. }
  destruct (decode_frames_total fo bits C ds (take (Z.to_nat ds) fp) Hb HC Hds Hlen)
    as [out Hout].
  fold n in Hout. rewrite Hout. run.
  rewrite lookup_insert_ne, lookup_insert_ne, lookup_insert_eq by lia. run.
  rewrite lookup_insert_ne, lookup_insert_eq by lia. run.
  eexists _, _, [_; _; _; _]. split; [reflexivity|]. simpl. rewrite <- !app_assoc.
  split_and!; auto; [by exists 2%nat|]. exists out. split; [|done].
  rewrite lookup_delete_ne, lookup_insert_eq by lia. done.
Qed.

Lemma read_wav_file_paths (filename : string) (o : wav_out) w :
  heap_wf w →
  ∃ r w',
    read_wav_file fo filename o w = Ok r w'
    ∧ (∃ k, grants w' = drop k (grants w))
    ∧ match fs w filename with
      | None => r = (false, o) ∧ trace w' = trace w ++ [EvFopen filename false]
      | Some bytes =>
          (∃ mid, trace w' = trace w ++ EvFopen filename true :: mid ++ [EvFclose]
                  ∧ forallb decoder_event mid = true)
          ∧ if r.1 then
              ∃ rate C bits ds out,
                take 4 bytes = tag_RIFF ∧ take 4 (drop 8 bytes) = tag_WAVE
                ∧ load_int bytes 24 = Some rate ∧ load_short bytes 22 = Some C
                ∧ load_short bytes 34 = Some bits ∧ load_int bytes 40 = Some ds
                ∧ 0 < ds ∧ 0 < C ∧ bits ∈ [8; 16; 24; 32]
                ∧ 0 < (ds `quot` (bits `quot` 8)) `quot` C
                ∧ 44 + ds ≤ Z.of_nat (length bytes)
                ∧ r.2 = {| o_pcm := Some (brk w);
                           o_samples := (ds `quot` (bits `quot` 8)) `quot` C;
                           o_rate := rate |}
                ∧ heap w' !! brk w = Some (BFloats out)
                ∧ mix_frames fo (sample_of fo bits (take (Z.to_nat ds) (drop 44 bytes)))
                    ((ds `quot` (bits `quot` 8)) `quot` C) C = Some out
            else
              o_pcm r.2 = o_pcm o ∨ o_pcm r.2 = None
              ∨ (o_pcm r.2 = Some (brk w) ∧ heap w' !! brk w = None)
      end.
Proof.
  intros Hwf. unfold read_wav_file. run.
  destruct (fs w filename) as [bytes|] eqn:Hfs; run.
  2:{ eexists _, _. split; [reflexivity|]. split; [by exists 0%nat|done]. }
  change (Z.to_nat 44) with 44%nat.
  destruct (Z.eqb_spec (Z.of_nat (length (take 44 bytes))) 44) as [Hlen|Hlen]; run.
  2:{ eexists _, _. split; [reflexivity|]. simpl. rewrite <- !app_assoc. simpl.
      split; [by exists 0%nat|]. split; [eexists [_]; split; reflexivity|auto]. }
  rewrite tag_at_0, tag_at_8.
  destruct (decide (take 4 bytes = tag_RIFF)) as [Hr|Hr];
    [rewrite (bool_decide_eq_true_2 _ Hr)|rewrite (bool_decide_eq_false_2 _ Hr)]; run.
  2:{ eexists _, _. split; [reflexivity|]. simpl. rewrite <- !app_assoc. simpl.
      split; [by exists 0%nat|]. split; [eexists [_]; split; reflexivity|auto]. }
  destruct (decide (take 4 (drop 8 bytes) = tag_WAVE)) as [Hv|Hv];
    [rewrite (bool_decide_eq_true_2 _ Hv)|rewrite (bool_decide_eq_false_2 _ Hv)]; run.
  2:{ eexists _, _. split; [reflexivity|]. simpl. rewrite <- !app_assoc. simpl.
      split; [by exists 0%nat|]. split; [eexists [_]; split; reflexivity|auto]. }
  rewrite length_take in Hlen.
  rewrite !load_int_take, !load_short_take by lia.
  destruct (load_int_is_Some bytes 24) as [rate Hrate]; [lia|].
  destruct (load_short_is_Some bytes 22) as [C HC]; [lia|].
  destruct (load_short_is_Some bytes 34) as [bits Hbits]; [lia|].
  destruct (load_int_is_Some bytes 40) as [ds Hds]; [lia|].
  rewrite Hrate, HC, Hbits, Hds.
  destruct (Z.leb_spec ds 0) as [?|Hds0]; run.
  { eexists _, _. split; [reflexivity|]. simpl. rewrite <- !app_assoc. simpl.
    split; [by exists 0%nat|]. split; [eexists [_]; split; reflexivity|auto]. }
  destruct (Z.leb_spec C 0) as [?|HC0]; run.
  { eexists _, _. split; [reflexivity|]. simpl. rewrite <- !app_assoc. simpl.
    split; [by exists 0%nat|]. split; [eexists [_]; split; reflexivity|auto]. }
  destruct (negb (bits =? 16) && negb (bits =? 32) && negb (bits =? 8) && negb (bits =? 24))
    eqn:Hb; run.
  { eexists _, _. split; [reflexivity|]. simpl. rewrite <- !app_assoc. simpl.
    split; [by exists 0%nat|]. split; [eexists [_]; split; reflexivity|auto]. }
  apply bits_check in Hb.
  match goal with
  | |- ∃ r w', read_wav_data fo ?fp bits C ds ?o' ?w1 = _ ∧ _ =>
      destruct (read_wav_data_paths fp bits C ds o' w1)
        as (r & w' & mid & Hrun & Ht & Hmid & Hgr & Hor & Hos & Hres); [|done..|]
  end.
  { intros a Ha. apply (Hwf a Ha). }
  exists r, w'. split; [exact Hrun|]. simpl in *. split; [done|]. split.
  { eexists (_ :: mid). rewrite Ht, <- !app_assoc. split; [reflexivity|done]. }
  destruct r as [[] o']; simpl in *; [|done].
  destruct Hres as (Hn & Hl & Hpcm & out & Hh & Hout).
  exists rate, C, bits, ds, out. split_and!; try done.
  - rewrite length_take, length_drop in Hl. lia.
  - destruct o'; simpl in *. by subst.
Qed.

Lemma read_wav_file_complete w filename bytes o rate C bits ds :
  fs w filename = Some bytes →
  take 4 bytes = tag_RIFF → take 4 (drop 8 bytes) = tag_WAVE →
  load_int bytes 24 = Some rate → load_short bytes 22 = Some C →
  load_short bytes 34 = Some bits → load_int bytes 40 = Some ds →
  0 < ds → 0 < C → bits ∈ [8; 16; 24; 32] →
  0 < (ds `quot` (bits `quot` 8)) `quot` C →
  44 + ds ≤ Z.of_nat (length bytes) →
  heap_wf w → granted 2 (grants w) = true →
  ∃ o' w', read_wav_file fo filename o w = Ok (true, o') w'.
Proof.
  intros Hfs Hr Hv Hrate HC Hbits Hds Hds0 HC0 Hb Hn Hlen Hwf Hg.
  rewrite (read_wav_file_header _ _ _ _ _ _ _ _ _ Hfs Hr Hv Hrate HC Hbits Hds). simpl.
  destruct (Z.leb_spec ds 0); [lia|]. destruct (Z.leb_spec C 0); [lia|].
  pose proof Hb as Hb'. apply bits_check in Hb'. rewrite Hb'. simpl.
  assert (Z.of_nat (length (take (Z.to_nat ds) (drop 44 bytes))) = ds) as Hl.
  { rewrite length_take, length_drop. lia. }
  destruct (decode_frames_total fo bits C ds _ Hb ltac:(lia) Hds0 Hl) as [out Hout].
  match goal with
  | |- ∃ o' w', read_wav_data fo ?fp bits C ds ?o1 ?w1 = _ =>
      destruct (read_wav_data_ok fo fp bits C ds o1 w1 out)
        as (w' & Hrun & _); try done
  end.
  eauto.
Qed.

(** X5. [read_wav_file] returns on every file, whatever the allocator
    answers: no read past a buffer, no use of a released block.  It leaves
    the file system and the engine alone.  When it returns [true], the heap
    has gained one block, at a fresh address stored in [*pcm], that holds
    [*samples] floats, and [*samples] is positive.  When it returns
    [false] the heap is as before, the staging buffer and the sample buffer
    having been released, so [*pcm] is untouched, null, or dangling. *)
Theorem X5_read_wav_file_safe (filename : string) (o : wav_out) w :
  heap_wf w →
  ∃ ok o' w',
    read_wav_file fo filename o w = Ok (ok, o') w'
    ∧ heap_wf w' ∧ fs w' = fs w ∧ engine_state w' = engine_state w
    ∧ if ok then
        ∃ a out, o_pcm o' = Some a ∧ heap w !! a = None
                 ∧ heap w' = <[a := BFloats out]> (heap w)
                 ∧ Z.of_nat (length out) = o_samples o' ∧ 0 < o_samples o'
      else
        heap w' = heap w
        ∧ (o_pcm o' = o_pcm o ∨ o_pcm o' = None
           ∨ ∃ a, o_pcm o' = Some a ∧ heap w' !! a = None).
Proof.
  intros Hwf.
  destruct (read_wav_file_total fo filename o w Hwf) as ([ok o'] & w' & Hrun & Hpost).
  destruct (read_wav_file_paths filename o w Hwf) as (r2 & w2 & Hrun2 & _ & Hpath).
  rewrite Hrun in Hrun2. injection Hrun2 as <- <-.
  destruct Hpost as (Hfs & He & _ & Hbrk & Hheap). simpl in *.
  exists ok, o', w'. split; [done|].
  assert (heap_wf w') as Hwf'.
  { intros x Hx. destruct ok.
    - destruct Hheap as (a & out & _ & _ & Ha & Hh & _). rewrite Hh in Hx.
      apply lookup_insert_is_Some in Hx as [<-|[_ Hx]]; [done|].
      apply Hwf in Hx. lia.
    - rewrite Hheap in Hx. apply Hwf in Hx. lia. }
  split_and!; try done. destruct ok.
  - destruct Hheap as (a & out & Hpcm & Ha1 & Ha2 & Hh & Hlen).
    exists a, out. split_and!; try done.
    + apply eq_None_not_Some. intros Hx%Hwf. lia.
    + destruct (fs w filename); [|by destruct Hpath as [[=] _]].
      destruct Hpath as [_ (rate & C & bits & ds & out' & Hp)].
      destruct Hp as (_ & _ & _ & _ & _ & _ & _ & _ & _ & Hn & _ & -> & _). done.
  - split; [done|]. destruct (fs w filename).
    + destruct Hpath as [_ [?|[?|[? ?]]]]; eauto.
    + destruct Hpath as [[= <-] _]. by left.
Qed.

(** X6. On every path [read_wav_file] closes the file it opened, exactly
    once and as its last action: the events of a call are a failed
    [fopen] alone, or a successful [fopen], then only reads of the file and
    calls of [malloc] and [free], then [fclose]. *)
Theorem X6_read_wav_file_closes (filename : string) (o : wav_out) w :
  heap_wf w →
  ∃ r w' t,
    read_wav_file fo filename o w = Ok r w'
    ∧ trace w' = trace w ++ t
    ∧ match fs w filename with
      | None => t = [EvFopen filename false]
      | Some _ =>
          ∃ mid, t = EvFopen filename true :: mid ++ [EvFclose]
                 ∧ forallb decoder_event mid = true
      end.
Proof.
  intros Hwf.
  destruct (read_wav_file_paths filename o w Hwf) as (r & w' & Hrun & _ & Hpath).
  destruct (fs w filename).
  - destruct Hpath as [(mid & Ht & Hmid) _].
    exists r, w', (EvFopen filename true :: mid ++ [EvFclose]). eauto.
  - destruct Hpath as [_ Ht]. exists r, w', [EvFopen filename false]. eauto.
Qed.

(** X7. The files [read_wav_file] accepts.  If it returns [true], the
    file exists, carries ["RIFF"] at offset 0 and ["WAVE"] at offset 8, its
    data size and channel count are positive, its bits per sample are 8,
    16, 24 or 32, the sample count [data_size / (bits/8) / channels] is
    positive and [data_size] bytes follow the 44-byte header; [*rate] and
    [*samples] are the header's rate and that count, and [*pcm] holds the
    frames of the first [data_size] bytes after the header, mixed to mono.
    Conversely every such file is accepted when the allocator grants the
    two buffers.  No other field of the header and no byte after the data
    plays a part. *)
Theorem X7_read_wav_file_accepts (filename : string) (o : wav_out) w :
  heap_wf w →
  ∃ ok o' w',
    read_wav_file fo filename o w = Ok (ok, o') w'
    ∧ (ok = true →
       ∃ bytes rate C bits ds out,
         fs w filename = Some bytes
         ∧ take 4 bytes = tag_RIFF ∧ take 4 (drop 8 bytes) = tag_WAVE
         ∧ load_int bytes 24 = Some rate ∧ load_short bytes 22 = Some C
         ∧ load_short bytes 34 = Some bits ∧ load_int bytes 40 = Some ds
         ∧ 0 < ds ∧ 0 < C ∧ bits ∈ [8; 16; 24; 32]
         ∧ 0 < (ds `quot` (bits `quot` 8)) `quot` C
         ∧ 44 + ds ≤ Z.of_nat (length bytes)
         ∧ o' = {| o_pcm := Some (brk w);
                   o_samples := (ds `quot` (bits `quot` 8)) `quot` C;
                   o_rate := rate |}
         ∧ heap w' !! brk w = Some (BFloats out)
         ∧ mix_frames fo (sample_of fo bits (take (Z.to_nat ds) (drop 44 bytes)))
             ((ds `quot` (bits `quot` 8)) `quot` C) C = Some out)
    ∧ (granted 2 (grants w) = true →
       ∀ bytes rate C bits ds,
         fs w filename = Some bytes →
         take 4 bytes = tag_RIFF → take 4 (drop 8 bytes) = tag_WAVE →
         load_int bytes 24 = Some rate → load_short bytes 22 = Some C →
         load_short bytes 34 = Some bits → load_int bytes 40 = Some ds →
         0 < ds → 0 < C → bits ∈ [8; 16; 24; 32] →
         0 < (ds `quot` (bits `quot` 8)) `quot` C →
         44 + ds ≤ Z.of_nat (length bytes) →
         ok = true).
Proof.
  intros Hwf.
  destruct (read_wav_file_paths filename o w Hwf) as ([ok o'] & w' & Hrun & _ & Hpath).
  exists ok, o', w'. split; [done|]. split.
  - intros ->. destruct (fs w filename) as [bytes|]; [|by destruct Hpath as [[=] _]].
    destruct Hpath as [_ (rate & C & bits & ds & out & Hp)]. simpl in Hp.
    exists bytes, rate, C, bits, ds, out. split; [done|]. exact Hp.
  - intros Hg bytes rate C bits ds Hfs Hr Hv Hrate HC Hbits Hds Hds0 HC0 Hb Hn Hlen.
    destruct (read_wav_file_complete w filename bytes o rate C bits ds)
      as (o2 & w2 & Hrun2); try done.
    rewrite Hrun in Hrun2. by injection Hrun2 as ->.
Qed.

End Paths.

(** ** Samples of the other bit depths *)

Lemma exact_mix_average (xs : list Q) (C : Z) :
  length xs = Z.to_nat C → 1 ≤ C → (mix exact_ops xs C == average xs)%Q.
Proof.
  intros Hlen HC. unfold mix, average. simpl.
  rewrite foldl_Qplus, Hlen, Z2Nat.id by lia.
  change (inject_Z 0) with 0%Q. by rewrite Qplus_0_l.
Qed.

Lemma sample_of_b32_unit (bits : Z) (data : list byte) (k : Z) (x : spec_float) :
  bits ∈ [8; 16; 24] → sample_of binary32_ops bits data k = Some x → b32_unit x.
Proof.
  intros Hb Hx.
  repeat (apply elem_of_cons in Hb as [->|Hb]); [| | |by apply elem_of_nil in Hb].
  - change (sample_of binary32_ops 8) with (sample_8 binary32_ops) in Hx.
    unfold sample_8, load_uchar in Hx.
    destruct (data !! Z.to_nat k) as [b|]; simpl in Hx; [|done]. injection Hx as <-.
    pose proof (byte_val_range b).
    destruct (sample8_b32 (byte_val b)) as (q & Hq & Heq); [lia|].
    exists q. split; [done|]. rewrite Heq. split; unfold Qle; cbn [Qnum Qden]; lia.
  - change (sample_of binary32_ops 16) with (sample_16 binary32_ops) in Hx.
    unfold sample_16 in Hx.
    destruct (load_short data _) as [s|] eqn:Hs; simpl in Hx; [|done]. injection Hx as <-.
    apply load_short_range in Hs.
    destruct (sample16_b32 s Hs) as (q & Hq & Heq).
    exists q. split; [done|]. rewrite Heq. split; unfold Qle; cbn [Qnum Qden]; lia.
  - change (sample_of binary32_ops 24) with (sample_24 binary32_ops) in Hx.
    unfold sample_24 in Hx.
    destruct (load_uchar data (Z.to_nat (3 * k))) as [b0|]; [|done].
    destruct (load_uchar data (Z.to_nat (3 * k + 1))) as [b1|]; [|done].
    destruct (load_uchar data (Z.to_nat (3 * k + 2))) as [b2|]; [|done].
    injection Hx as <-.
    pose proof (wrap_range 32 (Z.lor (Z.lor (b0 ≪ 8) (b1 ≪ 16)) (b2 ≪ 24)) ltac:(lia)) as Hw.
    change (2 ^ (32 - 1)) with 2147483648 in Hw.
    apply sample24_b32. unfold sample24. lia.
Qed.

Section Samples.
Context {F E : Type}.
Variable fo : float_ops F.

Lemma frame_8_samples (data : list byte) (C i : Z) :
  mapM (λ j, sample_8 fo data (i * C + j)) (seqZ 0 C)
  = fmap (scale_8 fo) <$> frame_8 data C i.
Proof. unfold frame_8. rewrite <- mapM_fmap_option. done. Qed.


Lemma frame_8_take (data : list byte) (n : nat) (C i : Z) frame :
  frame_8 (take n data) C i = Some frame → frame_8 data C i = Some frame.
Proof.
  unfold frame_8. intros H. apply mapM_Some. apply mapM_Some in H.
  eapply Forall2_impl; [exact H|]. intros j s. simpl.
  unfold load_uchar.
  destruct (take n data !! Z.to_nat _) eqn:H0; [|done].
  apply lookup_take_Some in H0 as [-> _]. done.
Qed.


Lemma frame_8_range (data : list byte) (C i : Z) frame :
  frame_8 data C i = Some frame →
  length frame = Z.to_nat C ∧ Forall (λ b, 0 ≤ b ≤ 255) frame.
Proof.
  unfold frame_8. intros H. split.
  - apply length_mapM in H. by rewrite length_seqZ in H.
  - apply mapM_Some in H. apply Forall_lookup. intros k s Hs.
    destruct (Forall2_lookup_r _ _ _ _ _ H Hs) as (j & _ & Hj).
    unfold load_uchar in Hj. destruct (data !! _) as [b|]; [|done].
    simpl in Hj. injection Hj as <-. pose proof (byte_val_range b). lia.
Qed.

(** X8. In single precision every sample decoded from an 8-, 16- or
    24-bit file is a finite number between -1 and 1: integer samples are
    normalised, and neither the sum over the channels nor the division by
    their count rounds out of that range.  (A 32-bit file is taken as
    floats and is not scaled, see [wav32_unscaled].) *)
Theorem X8_integer_pcm_normalized (w : @world spec_float E) filename o o' (w' : @world spec_float E)
    bytes bits :
  heap_wf w → fs w filename = Some bytes →
  load_short bytes 34 = Some bits → bits ≠ 32 →
  read_wav_file binary32_ops filename o w = Ok (true, o') w' →
  ∃ a out, o_pcm o' = Some a ∧ heap w' !! a = Some (BFloats out)
           ∧ Z.of_nat (length out) = o_samples o'
           ∧ Forall (λ x, ∃ q, b32_real x = Some q ∧ (-1 <= q <= 1)%Q) out.
Proof.
  intros Hwf Hfs Hbits Hne Hrun.
  destruct (read_wav_file_paths binary32_ops filename o w Hwf)
    as (r & w2 & Hrun2 & _ & Hpath).
  rewrite Hrun in Hrun2. injection Hrun2 as <- <-. rewrite Hfs in Hpath. simpl in Hpath.
  destruct Hpath as [_ (rate & C & bits' & ds & out & Hp)].
  destruct Hp as (_ & _ & _ & HCload & Hbits' & _ & _ & HC & Hb & Hn & _ & -> & Hh & Hout).
  rewrite Hbits in Hbits'. injection Hbits' as <-.
  apply load_short_range in HCload.
  assert (bits ∈ [8; 16; 24]) as Hb'.
  { rewrite !elem_of_cons in Hb. rewrite !elem_of_cons.
    destruct Hb as [?|[?|[?|[?|Hb]]]]; auto; try done; by apply elem_of_nil in Hb. }
  exists (brk w), out. simpl. split_and!; try done.
  { apply mix_frames_length in Hout. lia. }
  apply Forall_lookup. intros k x Hk.
  pose proof (lookup_lt_Some _ _ _ Hk) as Hlt.
  rewrite (mix_frames_length _ _ _ _ _ Hout) in Hlt.
  destruct (mix_frames_lookup binary32_ops _ _ _ _ (Z.of_nat k) Hout ltac:(lia))
    as (xs & Hxs & Hx).
  rewrite Nat2Z.id, Hk in Hx. injection Hx as ->.
  apply b32_mix_bounds; [lia| |].
  - apply length_mapM in Hxs. by rewrite length_seqZ in Hxs.
  - apply mapM_Some in Hxs. apply Forall_lookup. intros j y Hy.
    destruct (Forall2_lookup_r _ _ _ _ _ Hxs Hy) as (z & _ & Hz).
    by eapply sample_of_b32_unit.
Qed.

(** X9. An 8-bit file of [N] frames of [C] channels decodes to [N]
    samples.  Sample [i] is the mix of frame [i]: each of its [C] unsigned
    bytes [b] becomes [(b - 128) / 128], the values are added up and the sum
    is divided by [C], in the arithmetic of the code; without rounding that
    is the average of the [C] quotients. *)
Theorem X9_wav8_samples (w : @world F E) filename bytes o (N C rate : Z) :
  fs w filename = Some bytes →
  take 4 bytes = tag_RIFF → take 4 (drop 8 bytes) = tag_WAVE →
  load_short bytes 22 = Some C → load_int bytes 24 = Some rate →
  load_short bytes 34 = Some 8 → load_int bytes 40 = Some (N * C) →
  1 ≤ N → 1 ≤ C → 44 + N * C ≤ Z.of_nat (length bytes) →
  heap_wf w → granted 2 (grants w) = true →
  ∃ w' a out,
    read_wav_file fo filename o w
    = Ok (true, {| o_pcm := Some a; o_samples := N; o_rate := rate |}) w'
    ∧ heap w' !! a = Some (BFloats out)
    ∧ Z.of_nat (length out) = N
    ∧ ∀ i, 0 ≤ i < N →
        ∃ frame : list Z,
          frame_8 (drop 44 bytes) C i = Some frame
          ∧ Z.of_nat (length frame) = C
          ∧ Forall (λ b, 0 ≤ b ≤ 255) frame
          ∧ out !! Z.to_nat i
            = Some (mix fo ((λ b, f_div fo (f_sub fo (f_of_Z fo b) (f_of_Z fo 128))
                                          (f_of_Z fo 128)) <$> frame) C)
          ∧ (mix exact_ops ((λ b, (inject_Z b - inject_Z 128) / inject_Z 128) <$> frame) C
               == average ((λ b, (b - 128) # 128) <$> frame))%Q.
Proof.
  intros Hfs Hr Hv HC Hrate Hbits Hds HN HC1 Hlen Hwf Hg.
  replace (N * C) with (1 * N * C) in Hds, Hlen by lia.
  destruct (read_wav_file_frames fo w filename bytes o N C rate 8 1)
    as (w' & out & Hrun & Hh & Hout); try done.
  { rewrite !elem_of_cons. auto. }
  exists w', (brk w), out. split; [done|]. split; [done|].
  split. { apply mix_frames_length in Hout. lia. }
  intros i Hi.
  destruct (mix_frames_lookup fo _ _ _ _ i Hout Hi) as (xs & Hxs & Hi').
  change (sample_of fo 8) with (sample_8 fo) in Hxs.
  rewrite frame_8_samples in Hxs.
  destruct (frame_8 _ C i) as [frame|] eqn:Hframe; [|done].
  injection Hxs as <-. apply frame_8_take in Hframe.
  destruct (frame_8_range _ _ _ _ Hframe) as [Hfl Hfr].
  exists frame. split; [done|]. split; [lia|]. split; [done|]. split; [done|].
  rewrite exact_mix_average by (rewrite ?length_fmap; lia).
  unfold average. rewrite !length_fmap.
  rewrite (foldr_Qplus_proper _ ((λ b, (b - 128) # 128) <$> frame)); [done|].
  apply Forall2_fmap, Forall2_same_length_lookup. split; [done|].
  intros k x y Hx Hy. rewrite Hx in Hy. injection Hy as <-.
  rewrite (Qmake_Qdiv (x - 128) 128). unfold Qeq. simpl. lia.
Qed.


End Samples.

(** ** Refusals of the allocator and long segments *)

Section Edges.
Context {F E CP : Type}.
Variable fo : float_ops F.
Variable eng : whisper_engine F E CP.
Implicit Types w : @world F E.

(** Nothing above the frontier of [w0] is live when the handle holds no
    result. *)
Lemma inv_no_result w0 wp c old w :
  inv w0 wp c old None w →
  handle_result w (Some wp) = None
  ∧ (∀ x, (brk w0 ≤ x)%positive → heap w !! x = None)
  ∧ (∀ b, old = Some b → heap w !! b = None).
Proof.
  intros [(Hwf0 & Hwf & Hwp & Hbrk & Hh & Hrb & Hold & _ & Hfr) _]. split_and!.
  - unfold handle_result, handle_at. simpl. by rewrite Hh.
  - intros x Hx. rewrite Hfr.
    + apply eq_None_not_Some. intros H%Hwf0. lia.
    + lia.
    + done.
    + intros ->. destruct (Hold x eq_refl) as [? _]. lia.
  - intros b Hb. by destruct (Hold b Hb) as (_ & ? & _).
Qed.

Lemma return_copy_refused w0 wp c old w2 msg g :
  inv w0 wp c old None w2 → grants w2 = false :: g →
  ∃ w', return_copy wp msg w2 = Ok CNull w'
        ∧ inv w0 wp c old None w' ∧ grants w' = g.
Proof.
  intros Hinv Hg.
  assert (∃ w', return_copy wp msg w2 = Ok CNull w' ∧ grants w' = g) as (w' & Hrun & Hg').
  { destruct Hinv as [(_ & _ & _ & _ & Hh & _) _].
    run. rewrite Hg. cbn [next_grant]. run. rewrite Hh. by eexists. }
  exists w'. split; [done|]. split; [|done].
  destruct (return_copy_inv _ _ _ _ _ _ _ _ _ (proj1 Hinv) ltac:(done) Hrun)
    as (rb' & Hinv' & Hr & _).
  destruct rb'; [done|]. done.
Qed.

Lemma collect_segments_refused w0 wp c old w2 g :
  inv w0 wp c old None w2 → grants w2 = false :: g →
  0 < whisper_full_n_segments eng c (engine_state w2) →
  ∃ w', collect_segments eng wp c w2 = Ok (CLit msg_alloc) w'
        ∧ inv w0 wp c old None w' ∧ grants w' = g.
Proof.
  intros Hinv Hg Hn.
  assert (∃ w', collect_segments eng wp c w2 = Ok (CLit msg_alloc) w' ∧ grants w' = g)
    as (w' & Hrun & Hg').
  { destruct Hinv as [(_ & _ & _ & _ & Hh & _) _].
    unfold collect_segments. run.
    destruct (Z.leb_spec (whisper_full_n_segments eng c (engine_state w2)) 0); [lia|].
    run. rewrite Hg. cbn [next_grant]. run. rewrite Hh. by eexists. }
  exists w'. split; [done|]. split; [|done].
  destruct (collect_segments_inv eng _ _ _ _ _ _ _ Hinv Hrun) as (rb' & Hinv' & [Hr|[_ ->]]);
    [|done].
  destruct rb'; [done|]. done.
Qed.

Lemma collect_segments_overflow w0 wp c old w2 :
  inv w0 wp c old None w2 → granted 2 (grants w2) = true →
  0 < whisper_full_n_segments eng c (engine_state w2) →
  32768 ≤ Z.of_nat (String.length
                      (whisper_full_get_segment_text eng c 0 (engine_state w2)))
        ≤ INT_MAX - 2 →
  collect_segments eng wp c w2 = Undef OutOfBounds.
Proof.
  intros [(Hwf0 & Hwf & Hwp & Hbrk & Hh & _) _] Hg Hn Hlen. unfold INT_MAX in Hlen.
  set (seg := whisper_full_get_segment_text eng c 0 (engine_state w2)) in *.
  assert (wp < brk w2)%positive as Hwlt by (apply Hwf; by eexists).
  apply granted_S in Hg as [Hg1 Hg]. apply granted_S in Hg as [Hg2 _].
  unfold collect_segments. run.
  destruct (Z.leb_spec (whisper_full_n_segments eng c (engine_state w2)) 0); [lia|].
  run. rewrite Hg1. run. rewrite lookup_insert_ne, Hh by lia. run.
  rewrite lookup_insert_ne, lookup_insert_eq by lia. run.
  change (1 <=? 1024 * 16) with true. run.
  rewrite seqZ_cons by lia. cbn [segments_loop]. run. fold seg.
  rewrite lookup_insert_ne, lookup_insert_eq by lia. run.
  rewrite lookup_insert_eq. run.
  change (Z.of_nat (String.length "")) with 0.
  rewrite !wrap_small by (unfold INT_MAX; lia).
  assert (in_int (0 + Z.of_nat (String.length seg)) = true) as ->.
  { unfold in_int, INT_MIN, INT_MAX. lia. }
  run.
  assert (in_int (0 + Z.of_nat (String.length seg) + 2) = true) as ->.
  { unfold in_int, INT_MIN, INT_MAX. lia. }
  run.
  assert ((0 + Z.of_nat (String.length seg) + 2 >? 1024 * 16) = true) as -> by lia.
  change (in_int (1024 * 16 * 2)) with true. run.
  rewrite lookup_insert_eq. run. rewrite Hg2. run.
  change (Z.of_nat (String.length "") + 1 <=? 1024 * 16 * 2) with true.
  rewrite lookup_delete_ne, lookup_insert_ne, lookup_insert_ne, lookup_insert_eq by lia.
  run. rewrite lookup_insert_ne, lookup_delete_ne, lookup_insert_eq by lia. run.
  change (Z.of_nat (String.length "")) with 0.
  assert ((0 + Z.of_nat (String.length seg) + 1 <=? 1024 * 16 * 2) = false) as -> by lia.
  done.
Qed.

(** X11. When every segment is shorter than the initial 16 KiB and the
    joined text stays below 2^30 bytes, both entry points return the
    segments joined by single spaces with no trailing space, however often
    the buffer had to be doubled on the way (the allocator granting every
    request). *)
Theorem X11_short_segments_joined w wp c rb lang (segs : list string) :
  heap_wf w → loaded_handle w wp c rb → Forall (eq true) (grants w) →
  segs ≠ [] →
  Forall (λ s, Z.of_nat (String.length s) < 16384) segs →
  Z.of_nat (String.length (joined segs)) + 2 ≤ 1073741824 →
  (∀ pcm n e',
     0 < n →
     whisper_full eng c
       (set_streaming
          (setup_params (whisper_full_default_params eng WHISPER_SAMPLING_GREEDY) lang))
       pcm n (engine_state w) = (0, e') →
     whisper_full_n_segments eng c e' = Z.of_nat (length segs) →
     (∀ i s, segs !! i = Some s →
        whisper_full_get_segment_text eng c (Z.of_nat i) e' = s) →
     returned_text
       (whisper_wrapper_transcribe_pcm_with_lang eng (Some wp) (Some pcm) n lang w)
     = Some (joined segs))
  ∧ (∀ path bytes pcm n rate e',
       fs w path = Some bytes → wav_decode fo bytes = Some (pcm, n, rate) →
       whisper_full eng c
         (setup_params (whisper_full_default_params eng WHISPER_SAMPLING_GREEDY) lang)
         pcm n (engine_state w) = (0, e') →
       whisper_full_n_segments eng c e' = Z.of_nat (length segs) →
       (∀ i s, segs !! i = Some s →
          whisper_full_get_segment_text eng c (Z.of_nat i) e' = s) →
       returned_text
         (whisper_wrapper_transcribe_with_lang fo eng (Some wp) (Some path) lang w)
       = Some (joined segs)).
Proof.
  intros Hwf Hh Hgr Hne Hlen Htot. split.
  - intros pcm n e' Hn Hfull Hseg Hs.
    by apply (transcribe_pcm_joined eng w wp c rb pcm n lang e' segs).
  - intros path bytes pcm n rate e' Hfs Hdec Hfull Hseg Hs.
    by apply (transcribe_file_joined fo eng w wp c rb path bytes pcm n rate lang e' segs).
Qed.

(** X12. A first segment of 32768 characters or more always overflows the
    result buffer: the 16 KiB buffer is doubled once and [strcat] writes
    past its 32768 bytes.  This holds for every loaded handle, engine and
    input, in both entry points, whenever the allocator grants the buffer
    and its growth. *)
Theorem X12_long_first_segment_overflows w wp c rb lang :
  heap_wf w → loaded_handle w wp c rb →
  (∀ pcm n e',
     0 < n →
     whisper_full eng c
       (set_streaming
          (setup_params (whisper_full_default_params eng WHISPER_SAMPLING_GREEDY) lang))
       pcm n (engine_state w) = (0, e') →
     0 < whisper_full_n_segments eng c e' →
     32768 ≤ Z.of_nat (String.length (whisper_full_get_segment_text eng c 0 e'))
           ≤ INT_MAX - 2 →
     granted 2 (grants w) = true →
     whisper_wrapper_transcribe_pcm_with_lang eng (Some wp) (Some pcm) n lang w
     = Undef OutOfBounds)
  ∧ (∀ path bytes pcm n rate e',
       fs w path = Some bytes → wav_decode fo bytes = Some (pcm, n, rate) →
       whisper_full eng c
         (setup_params (whisper_full_default_params eng WHISPER_SAMPLING_GREEDY) lang)
         pcm n (engine_state w) = (0, e') →
       0 < whisper_full_n_segments eng c e' →
       32768 ≤ Z.of_nat (String.length (whisper_full_get_segment_text eng c 0 e'))
             ≤ INT_MAX - 2 →
       granted 4 (grants w) = true →
       whisper_wrapper_transcribe_with_lang fo eng (Some wp) (Some path) lang w
       = Undef OutOfBounds).
Proof.
  intros Hwf Hh. split.
  - intros pcm n e' Hn Hfull Hseg Hlen Hg.
    destruct (transcribe_pcm_prefix eng w wp c rb pcm n lang 0 e' Hwf Hh Hn Hfull)
      as (w2 & -> & Hinv & Hg2 & He2). simpl.
    apply (collect_segments_overflow w wp c rb); rewrite ?Hg2, ?He2; done.
  - intros path bytes pcm n rate e' Hfs Hdec Hfull Hseg Hlen Hg.
    apply (granted_drop 2 2) in Hg as [Hg Hg'].
    destruct (transcribe_file_prefix fo eng w wp c rb path bytes pcm n rate lang 0 e'
                Hwf Hh Hfs Hdec Hg Hfull) as (w4 & -> & Hinv & Hg4 & He4). simpl.
    apply (collect_segments_overflow w wp c rb); rewrite ?Hg4, ?He4; done.
Qed.

(** X13. When the engine fails or finds no segment and [strdup] cannot
    copy the sentinel, the call returns the null pointer, not a text: the
    handle is left with a null result buffer, the earlier result has been
    released and nothing new is allocated. *)
Theorem X13_sentinel_copy_refused w wp c rb lang :
  heap_wf w → loaded_handle w wp c rb →
  (∀ pcm n st e' g,
     0 < n →
     whisper_full eng c
       (set_streaming
          (setup_params (whisper_full_default_params eng WHISPER_SAMPLING_GREEDY) lang))
       pcm n (engine_state w) = (st, e') →
     st ≠ 0 ∨ whisper_full_n_segments eng c e' ≤ 0 →
     grants w = false :: g →
     ∃ w', whisper_wrapper_transcribe_pcm_with_lang eng (Some wp) (Some pcm) n lang w
           = Ok CNull w'
           ∧ handle_result w' (Some wp) = None
           ∧ (∀ x, (brk w ≤ x)%positive → heap w' !! x = None)
           ∧ (∀ b, rb = Some b → heap w' !! b = None))
  ∧ (∀ path bytes pcm n rate st e' g,
       fs w path = Some bytes → wav_decode fo bytes = Some (pcm, n, rate) →
       whisper_full eng c
         (setup_params (whisper_full_default_params eng WHISPER_SAMPLING_GREEDY) lang)
         pcm n (engine_state w) = (st, e') →
       st ≠ 0 ∨ whisper_full_n_segments eng c e' ≤ 0 →
       grants w = true :: true :: false :: g →
       ∃ w', whisper_wrapper_transcribe_with_lang fo eng (Some wp) (Some path) lang w
             = Ok CNull w'
             ∧ handle_result w' (Some wp) = None
             ∧ (∀ x, (brk w ≤ x)%positive → heap w' !! x = None)
             ∧ (∀ b, rb = Some b → heap w' !! b = None)).
Proof.
  intros Hwf Hh.
  assert (∀ (w2 : @world F E) st g,
            inv w wp c rb None w2 → grants w2 = false :: g →
            st ≠ 0 ∨ whisper_full_n_segments eng c (engine_state w2) ≤ 0 →
            ∃ w', (if negb (st =? 0) then return_copy wp msg_process
                   else collect_segments eng wp c) w2 = Ok CNull w'
                  ∧ handle_result w' (Some wp) = None
                  ∧ (∀ x, (brk w ≤ x)%positive → heap w' !! x = None)
                  ∧ (∀ b, rb = Some b → heap w' !! b = None)) as Hk.
  { intros w2 st g Hinv Hg Hcase.
    assert (∃ w', (if negb (st =? 0) then return_copy wp msg_process
                   else collect_segments eng wp c) w2 = Ok CNull w'
                  ∧ inv w wp c rb None w') as (w' & Hrun & Hinv').
    { destruct (Z.eqb_spec st 0) as [->|Hst]; simpl.
      - destruct Hcase as [?|Hn]; [done|].
        unfold collect_segments.
        destruct (call_n_segments_run eng c w2) as (w3 & Hcall & Hh3 & Hb3 & Hg3 & _ & _ & Ht3).
        rewrite (bind_Ok _ _ _ _ _ Hcall). apply Z.leb_le in Hn. rewrite Hn.
        destruct (return_copy_refused w wp c rb w3 msg_no_speech g) as (w' & ? & ? & _);
          [|congruence|eauto].
        eapply inv_quiet; [done|done|lia|done].
      - destruct (return_copy_refused w wp c rb w2 msg_process g) as (w' & ? & ? & _); eauto. }
    exists w'. split; [done|]. by apply (inv_no_result w wp c rb). }
  split.
  - intros pcm n st e' g Hn Hfull Hcase Hg.
    destruct (transcribe_pcm_prefix eng w wp c rb pcm n lang st e' Hwf Hh Hn Hfull)
      as (w2 & -> & Hinv & Hg2 & He2).
    apply (Hk w2 st g); [done|congruence|by rewrite He2].
  - intros path bytes pcm n rate st e' g Hfs Hdec Hfull Hcase Hg.
    destruct (transcribe_file_prefix fo eng w wp c rb path bytes pcm n rate lang st e'
                Hwf Hh Hfs Hdec ltac:(by rewrite Hg) Hfull) as (w4 & -> & Hinv & Hg4 & He4).
    apply (Hk w4 st g); [done|by rewrite Hg4, Hg|by rewrite He4].
Qed.

(** X14. When the engine reports segments and the allocator refuses the
    first 16 KiB result buffer, the call returns the string literal
    ["Error: Failed to allocate memory for transcription"] and leaves the
    handle with a null result buffer: the text returned is not owned by the
    handle, the earlier result has been released and nothing new is
    allocated. *)
Theorem X14_result_buffer_refused w wp c rb lang :
  heap_wf w → loaded_handle w wp c rb →
  (∀ pcm n e' g,
     0 < n →
     whisper_full eng c
       (set_streaming
          (setup_params (whisper_full_default_params eng WHISPER_SAMPLING_GREEDY) lang))
       pcm n (engine_state w) = (0, e') →
     0 < whisper_full_n_segments eng c e' →
     grants w = false :: g →
     ∃ w', whisper_wrapper_transcribe_pcm_with_lang eng (Some wp) (Some pcm) n lang w
           = Ok (CLit "Error: Failed to allocate memory for transcription") w'
           ∧ handle_result w' (Some wp) = None
           ∧ (∀ x, (brk w ≤ x)%positive → heap w' !! x = None)
           ∧ (∀ b, rb = Some b → heap w' !! b = None))
  ∧ (∀ path bytes pcm n rate e' g,
       fs w path = Some bytes → wav_decode fo bytes = Some (pcm, n, rate) →
       whisper_full eng c
         (setup_params (whisper_full_default_params eng WHISPER_SAMPLING_GREEDY) lang)
         pcm n (engine_state w) = (0, e') →
       0 < whisper_full_n_segments eng c e' →
       grants w = true :: true :: false :: g →
       ∃ w', whisper_wrapper_transcribe_with_lang fo eng (Some wp) (Some path) lang w
             = Ok (CLit "Error: Failed to allocate memory for transcription") w'
             ∧ handle_result w' (Some wp) = None
             ∧ (∀ x, (brk w ≤ x)%positive → heap w' !! x = None)
             ∧ (∀ b, rb = Some b → heap w' !! b = None)).
Proof.
  intros Hwf Hh. split.
  - intros pcm n e' g Hn Hfull Hseg Hg.
    destruct (transcribe_pcm_prefix eng w wp c rb pcm n lang 0 e' Hwf Hh Hn Hfull)
      as (w2 & -> & Hinv & Hg2 & He2). simpl.
    destruct (collect_segments_refused w wp c rb w2 g) as (w' & Hrun & Hinv' & _);
      [done|congruence|by rewrite He2|].
    exists w'. split; [done|]. by apply (inv_no_result w wp c rb).
  - intros path bytes pcm n rate e' g Hfs Hdec Hfull Hseg Hg.
    destruct (transcribe_file_prefix fo eng w wp c rb path bytes pcm n rate lang 0 e'
                Hwf Hh Hfs Hdec ltac:(by rewrite Hg) Hfull) as (w4 & -> & Hinv & Hg4 & He4).
    simpl.
    destruct (collect_segments_refused w wp c rb w4 g) as (w' & Hrun & Hinv' & _);
      [done|by rewrite Hg4, Hg|by rewrite He4|].
    exists w'. split; [done|]. by apply (inv_no_result w wp c rb).
Qed.

End Edges.

(** ** Calls under an arbitrary allocator *)

Section AnyAllocator.
Context {F E CP : Type}.
Variable fo : float_ops F.
Variable eng : whisper_engine F E CP.
Implicit Types w : @world F E.

Lemma return_copy_any w wp c (rb : option positive) msg :
  heap w !! wp = Some (BWrapper (Some c) rb) → (wp < brk w)%positive →
  ∃ r w', return_copy wp msg w = Ok r w'
          ∧ (r = CNull ∨ text_at w' r = Some msg).
Proof.
  intros Hwp Hlt. run.
  destruct (next_grant (grants w)) as [[] g]; run.
  - rewrite lookup_insert_ne, Hwp by lia. eexists _, _. split; [reflexivity|].
    right. simpl. by rewrite lookup_insert_ne, lookup_insert_eq by lia.
  - rewrite Hwp. eexists _, _. split; [reflexivity|]. by left.
Qed.

Lemma segments_loop_total wp c n (seg : Z → string) todo :
  ∀ bs w b text,
    heap_wf w →
    heap w !! wp = Some (BWrapper (Some c) (Some b)) →
    heap w !! b = Some (BChars bs text) →
    Z.of_nat (String.length text) + 1 ≤ bs → 16384 ≤ bs →
    (∀ i, whisper_full_get_segment_text eng c i (engine_state w) = seg i) →
    Forall (λ i, Z.of_nat (String.length (seg i)) < 16384) todo →
    Z.of_nat (String.length text) + Z.of_nat (String.length (loop_text seg n todo)) + 2
      ≤ 1073741824 →
    ∃ r w',
      segments_loop eng wp c n todo bs w = Ok r w'
      ∧ (r = CNull
         ∨ text_at w' r = Some (text +:+ loop_text seg n todo)
         ∨ text_at w' r = Some msg_alloc).
Proof.
  induction todo as [|i rest IH]; intros bs w b text Hwf Hwp Hb Hcap Hbs Hseg Hlen Htot.
  - cbn [segments_loop]. run. rewrite Hwp. run. exists (CHeap b), w.
    split; [done|]. right; left. simpl. by rewrite Hb, string_app_nil_r.
  - apply Forall_cons in Hlen as [Hi Hlen].
    cbn [loop_text] in Htot |- *. rewrite !string_app_length in Htot.
    set (sp := if i <? n - 1 then " " else "") in *.
    assert (Z.of_nat (String.length sp) ≤ 1) as Hsp.
    { subst sp. destruct (i <? n - 1); simpl; lia. }
    assert (b ≠ wp) as Hne by congruence.
    assert (b < brk w)%positive as Hblt by (apply Hwf; by eexists).
    assert (wp < brk w)%positive as Hwlt by (apply Hwf; by eexists).
    cbn [segments_loop]. run. rewrite Hseg, Hwp. run. rewrite ?Hb. run.
    rewrite !wrap_small by lia.
    assert (in_int (Z.of_nat (String.length text) + Z.of_nat (String.length (seg i))) = true)
      as ->.
    { unfold in_int, INT_MIN, INT_MAX. lia. }
    run.
    assert (in_int (Z.of_nat (String.length text) + Z.of_nat (String.length (seg i)) + 2)
            = true) as ->.
    { unfold in_int, INT_MIN, INT_MAX. lia. }
    run.
    destruct (Z.gtb_spec
                (Z.of_nat (String.length text) + Z.of_nat (String.length (seg i)) + 2) bs)
      as [Hgrow|Hfit].
    + assert (in_int (bs * 2) = true) as ->.
      { unfold in_int, INT_MIN, INT_MAX. lia. }
      run. destruct (next_grant (grants w)) as [[] g1]; run; rewrite ?Hb; run.
      * assert ((Z.of_nat (String.length text) + 1 <=? bs * 2) = true) as -> by lia.
        rewrite lookup_delete_ne, lookup_insert_ne, Hwp by lia. run.
        rewrite lookup_insert_ne, lookup_delete_ne, lookup_insert_eq by lia. run.
        assert ((Z.of_nat (String.length text) + Z.of_nat (String.length (seg i)) + 1
                 <=? bs * 2) = true) as -> by lia.
        run.
        assert (∀ w2 : @world F E,
                  heap w2 = <[brk w := BChars (bs * 2) ((text +:+ seg i) +:+ sp)]>
                              (<[wp := BWrapper (Some c) (Some (brk w))]>
                                 (delete b (<[brk w := BChars (bs * 2) text]> (heap w)))) →
                  brk w2 = Pos.succ (brk w) →
                  engine_state w2 = engine_state w →
                  ∃ r w',
                    segments_loop eng wp c n rest (bs * 2) w2 = Ok r w'
                    ∧ (r = CNull
                       ∨ text_at w' r
                         = Some (text +:+ seg i +:+ sp +:+ loop_text seg n rest)
                       ∨ text_at w' r = Some msg_alloc)) as Hk.
        { intros w2 Hh2 Hb2 He2.
          destruct (IH (bs * 2) w2 (brk w) ((text +:+ seg i) +:+ sp))
            as (r & w' & Hrun & Hres).
          - intros x [y Hx]. rewrite Hb2. rewrite Hh2 in Hx. map_cases Hx; try lia.
            assert (x < brk w)%positive by (apply Hwf; by eexists). lia.
          - rewrite Hh2. rewrite lookup_insert_ne, lookup_insert_eq by lia. done.
          - rewrite Hh2. by rewrite lookup_insert_eq.
          - rewrite !string_app_length. lia.
          - lia.
          - intros j. rewrite He2. apply Hseg.
          - done.
          - rewrite !string_app_length. lia.
          - exists r, w'. split; [done|]. by rewrite <- !string_app_assoc. }
        subst sp. destruct (i <? n - 1); run.
        -- rewrite lookup_insert_eq. run. rewrite string_app_length.
           assert ((Z.of_nat (String.length text + String.length (seg i))
                    + Z.of_nat (String.length " ") + 1 <=? bs * 2) = true) as ->.
           { simpl. apply Z.leb_le. lia. }
           apply Hk; simpl; try done. by rewrite insert_insert_eq.
        -- apply Hk; simpl; try done. by rewrite string_app_nil_r.
      * rewrite Hb. run. destruct (next_grant g1) as [[] g2]; run.
        -- rewrite lookup_insert_ne, lookup_delete_ne, Hwp by lia.
           eexists _, _. split; [reflexivity|]. right; right. simpl.
           by rewrite lookup_insert_ne, lookup_insert_eq by lia.
        -- rewrite lookup_delete_ne, Hwp by lia.
           eexists _, _. split; [reflexivity|]. by left.
    + run. rewrite ?Hb. run.
      assert ((Z.of_nat (String.length text) + Z.of_nat (String.length (seg i)) + 1 <=? bs)
              = true) as -> by lia.
      run.
      assert (∀ w2 : @world F E,
                heap w2 = <[b := BChars bs ((text +:+ seg i) +:+ sp)]> (heap w) →
                brk w2 = brk w →
                engine_state w2 = engine_state w →
                ∃ r w',
                  segments_loop eng wp c n rest bs w2 = Ok r w'
                  ∧ (r = CNull
                     ∨ text_at w' r
                       = Some (text +:+ seg i +:+ sp +:+ loop_text seg n rest)
                     ∨ text_at w' r = Some msg_alloc)) as Hk.
      { intros w2 Hh2 Hb2 He2.
        destruct (IH bs w2 b ((text +:+ seg i) +:+ sp))
          as (r & w' & Hrun & Hres).
        - intros x [y Hx]. rewrite Hb2. rewrite Hh2 in Hx. map_cases Hx; try lia.
          apply Hwf; by eexists.
        - rewrite Hh2. by rewrite lookup_insert_ne.
        - rewrite Hh2. by rewrite lookup_insert_eq.
        - rewrite !string_app_length. lia.
        - lia.
        - intros j. rewrite He2. apply Hseg.
        - done.
        - rewrite !string_app_length. lia.
        - exists r, w'. split; [done|]. by rewrite <- !string_app_assoc. }
      subst sp. destruct (i <? n - 1); run.
      * rewrite lookup_insert_eq. run. rewrite string_app_length.
        assert ((Z.of_nat (String.length text + String.length (seg i))
                 + Z.of_nat (String.length " ") + 1 <=? bs) = true) as ->.
        { simpl. apply Z.leb_le. lia. }
        apply Hk; simpl; try done. by rewrite insert_insert_eq.
      * apply Hk; simpl; try done. by rewrite string_app_nil_r.
Qed.

Lemma collect_segments_total w0 wp c old w2 (segs : list string) :
  inv w0 wp c old None w2 →
  whisper_full_n_segments eng c (engine_state w2) = Z.of_nat (length segs) →
  (∀ i s, segs !! i = Some s →
     whisper_full_get_segment_text eng c (Z.of_nat i) (engine_state w2) = s) →
  Forall (λ s, Z.of_nat (String.length s) < 16384) segs →
  Z.of_nat (String.length (joined segs)) + 2 ≤ 1073741824 →
  ∃ r w', collect_segments eng wp c w2 = Ok r w'
          ∧ (r = CNull
             ∨ text_at w' r = Some (if decide (segs = []) then msg_no_speech else joined segs)
             ∨ (segs ≠ [] ∧ text_at w' r = Some msg_alloc)).
Proof.
  intros [(Hwf0 & Hwf & Hwp & Hbrk & Hh & _) _] Hn Hs Hlen Htot.
  assert (wp < brk w2)%positive as Hwlt by (apply Hwf; by eexists).
  unfold collect_segments.
  destruct (call_n_segments_run eng c w2) as (w3 & Hcall & Hh3 & Hb3 & Hg3 & _ & He3 & Ht3).
  rewrite (bind_Ok _ _ _ _ _ Hcall). rewrite Hn.
  destruct (decide (segs = [])) as [->|Hne].
  { simpl. destruct (return_copy_any w3 wp c None msg_no_speech) as (r & w' & Hrun & Hres).
    - by rewrite Hh3.
    - by rewrite Hb3.
    - exists r, w'. split; [done|]. destruct Hres; auto. }
  pose proof (segments_of_engine eng c (engine_state w2) segs Hn Hs) as Hsegs.
  set (seg := λ i, whisper_full_get_segment_text eng c i (engine_state w2)) in *.
  assert (0 < length segs)%nat as Hpos.
  { destruct segs; [done|simpl; lia]. }
  rewrite Hn in Hsegs.
  pose proof (loop_text_joined seg (Z.of_nat (length segs)) (length segs) 0
                ltac:(lia) Hpos) as Htext.
  rewrite Hsegs in Htext.
  destruct (Z.leb_spec (Z.of_nat (length segs)) 0); [lia|]. run.
  destruct (next_grant (grants w3)) as [[] g]; run.
  2:{ rewrite Hh3, Hh. eexists _, _. split; [reflexivity|]. right; right. done. }
  rewrite lookup_insert_ne, Hh3, Hh by lia. run.
  rewrite lookup_insert_ne, lookup_insert_eq by lia. run. change (1 <=? 1024 * 16) with true.
  run.
  match goal with
  | |- ∃ r w', segments_loop eng wp c ?n ?todo ?bs ?w4 = _ ∧ _ =>
      destruct (segments_loop_total wp c n seg todo bs w4 (brk w3) "")
        as (r & w' & Hrun & Hres)
  end; simpl.
  - intros x [y Hx]. simpl in *. map_cases Hx; try lia.
    assert (x < brk w2)%positive by (apply Hwf; by eexists). lia.
  - rewrite lookup_insert_ne, lookup_insert_eq by lia. done.
  - by rewrite lookup_insert_eq.
  - lia.
  - lia.
  - intros i. by rewrite He3.
  - apply Forall_lookup. intros k i Hk.
    assert (is_Some (segs !! k)) as [s Hk'].
    { apply lookup_lt_is_Some. apply lookup_lt_Some in Hk.
      rewrite length_seqZ in Hk. lia. }
    apply lookup_seqZ in Hk as [-> _]. simpl. rewrite Z.add_0_l.
    unfold seg. rewrite (Hs k s Hk').
    by apply (Forall_lookup_1 _ _ _ _ Hlen Hk').
  - rewrite Htext. lia.
  - exists r, w'. split; [done|]. rewrite Htext in Hres. simpl in Hres.
    destruct Hres as [?|[?|?]]; auto.
Qed.

(** X15. Whatever the allocator answers, a PCM call whose engine yields
    segments shorter than 16 KiB (joined text below 2^30 bytes) stays
    within the defined behaviour of C.  It returns the expected text (the
    processing sentinel, "No speech detected" or the joined segments), or
    the null pointer, or, only while segments are collected, the
    out-of-memory sentinel. *)
Theorem X15_transcribe_pcm_defined w wp c rb pcm n lang st e' (segs : list string) :
  heap_wf w → loaded_handle w wp c rb → 0 < n →
  whisper_full eng c
    (set_streaming (setup_params (whisper_full_default_params eng WHISPER_SAMPLING_GREEDY) lang))
    pcm n (engine_state w) = (st, e') →
  (st = 0 →
   whisper_full_n_segments eng c e' = Z.of_nat (length segs)
   ∧ (∀ i s, segs !! i = Some s → whisper_full_get_segment_text eng c (Z.of_nat i) e' = s)
   ∧ Forall (λ s, Z.of_nat (String.length s) < 16384) segs
   ∧ Z.of_nat (String.length (joined segs)) + 2 ≤ 1073741824) →
  ∃ r w',
    whisper_wrapper_transcribe_pcm_with_lang eng (Some wp) (Some pcm) n lang w = Ok r w'
    ∧ (r = CNull
       ∨ text_at w' r
         = Some (if decide (st = 0)
                 then if decide (segs = []) then "No speech detected" else joined segs
                 else "Error: Failed to process audio with whisper")
       ∨ (st = 0 ∧ segs ≠ []
          ∧ text_at w' r = Some "Error: Failed to allocate memory for transcription")).
Proof.
  intros Hwf Hh Hn Hfull Hsegs.
  destruct (transcribe_pcm_prefix eng w wp c rb pcm n lang st e' Hwf Hh Hn Hfull)
    as (w2 & -> & Hinv & Hg2 & He2).
  destruct (decide (st = 0)) as [->|Hst]; simpl.
  - destruct (Hsegs eq_refl) as (Hcount & Htexts & Hshort & Htot).
    destruct (collect_segments_total w wp c rb w2 segs) as (r & w' & Hrun & Hres);
      rewrite ?He2; try done.
    exists r, w'. split; [done|]. destruct Hres as [?|[?|[? ?]]]; auto.
  - apply Z.eqb_neq in Hst. rewrite Hst. simpl.
    destruct Hinv as [(_ & Hwf2 & _ & _ & Hh2 & _) _].
    destruct (return_copy_any w2 wp c None msg_process) as (r & w' & Hrun & Hres);
      [done|apply Hwf2; by eexists|].
    exists r, w'. split; [done|]. destruct Hres; auto.
Qed.


End AnyAllocator.

(** ** The events of a transcription call *)

Lemma decoder_events_quiet (t : list event) :
  forallb decoder_event t = true → forallb (λ e, negb (engine_event e)) t = true.
Proof.
  induction t as [|e t IH]; [done|]. simpl. intros [He Ht]%andb_true_iff.
  rewrite IH by done. by destruct e.
Qed.

Section Traces.
Context {F E CP : Type}.
Variable fo : float_ops F.
Variable eng : whisper_engine F E CP.
Implicit Types w : @world F E.

Lemma release_result_trace w wp rb w1 :
  release_result wp rb w = Ok () w1 →
  trace w1 = trace w ++ match rb with Some b => [EvFree b] | None => [] end.
Proof.
  intros H. destruct rb as [b|]; run_in H.
  - destruct (heap w !! b); [|done]. run_in H.
    destruct (delete b (heap w) !! wp) as [[]|]; try done. by injection H as <-.
  - injection H as <-. by rewrite app_nil_r.
Qed.

Lemma return_copy_effects w wp msg r w' :
  return_copy wp msg w = Ok r w' →
  engine_state w' = engine_state w ∧ ∃ p, trace w' = trace w ++ [EvStrdup msg p].
Proof.
  intros H. run_in H. destruct (next_grant (grants w)) as [[] g]; run_in H.
  - destruct (_ !! wp) as [[]|]; try done. injection H as _ <-. simpl. eauto.
  - destruct (_ !! wp) as [[]|]; try done. injection H as _ <-. simpl. eauto.
Qed.

Lemma segments_loop_events wp c n todo :
  ∀ bs w r w',
    segments_loop eng wp c n todo bs w = Ok r w' →
    ∃ t, trace w' = trace w ++ t ∧ forallb (collect_event c) t = true.
Proof.
  induction todo as [|i rest IH]; intros bs w r w' H; cbn [segments_loop] in H.
  - repeat step_in H. injection H as _ <-. exists []. by rewrite app_nil_r.
  - repeat step_in H.
    all: try (apply IH in H as (t & Ht & Hq); simpl in Ht; rewrite <- ?app_assoc in Ht;
              simpl in Ht; eexists; split; [exact Ht|]; simpl;
              by rewrite Pos.eqb_refl, Hq).
    all: injection H as _ <-; simpl; rewrite <- ?app_assoc; simpl;
         eexists; split; [reflexivity|]; simpl; by rewrite Pos.eqb_refl.
Qed.

Lemma collect_segments_events wp c w r w' :
  collect_segments eng wp c w = Ok r w' →
  ∃ t, trace w' = trace w ++ t ∧ forallb (collect_event c) t = true.
Proof.
  intros H. unfold collect_segments in H.
  apply bind_Ok_inv in H as (n & wa & Hn & H). run_in Hn. injection Hn as <- <-.
  destruct (_ <=? 0).
  - apply return_copy_effects in H as (_ & p & Ht). simpl in Ht.
    rewrite <- app_assoc in Ht. eexists. split; [exact Ht|].
    simpl. by rewrite Pos.eqb_refl.
  - repeat step_in H.
    + apply segments_loop_events in H as (t & Ht & Hq). simpl in Ht.
      rewrite <- ?app_assoc in Ht. simpl in Ht. eexists. split; [exact Ht|].
      simpl. by rewrite Pos.eqb_refl, Hq.
    + injection H as _ <-. simpl. rewrite <- ?app_assoc. simpl.
      eexists. split; [reflexivity|]. simpl. by rewrite Pos.eqb_refl.
Qed.

(** X17. A file the decoder does not accept (missing, short or wrongly
    tagged header, invalid fields, or fewer data bytes than announced) is
    never handed to the engine: with an allocator that grants every
    request the call returns a fresh copy of
    ["Error: Failed to load audio file"], owned by the handle, the engine
    state is unchanged and no event of the call is an engine event. *)
Theorem X17_rejected_file_not_transcribed w wp c rb path lang :
  heap_wf w → loaded_handle w wp c rb → Forall (eq true) (grants w) →
  (∀ bytes rate C bits ds,
     fs w path = Some bytes →
     take 4 bytes = tag_RIFF → take 4 (drop 8 bytes) = tag_WAVE →
     load_int bytes 24 = Some rate → load_short bytes 22 = Some C →
     load_short bytes 34 = Some bits → load_int bytes 40 = Some ds →
     0 < ds → 0 < C → bits ∈ [8; 16; 24; 32] →
     0 < (ds `quot` (bits `quot` 8)) `quot` C →
     44 + ds ≤ Z.of_nat (length bytes) → False) →
  ∃ a w' t,
    whisper_wrapper_transcribe_with_lang fo eng (Some wp) (Some path) lang w
    = Ok (CHeap a) w'
    ∧ text_at w' (CHeap a) = Some "Error: Failed to load audio file"
    ∧ handle_result w' (Some wp) = Some a
    ∧ (∀ x, (brk w ≤ x)%positive → is_Some (heap w' !! x) → x = a)
    ∧ engine_state w' = engine_state w
    ∧ trace w' = trace w ++ t
    ∧ forallb (λ e, negb (engine_event e)) t = true.
Proof.
  intros Hwf Hh Hgr Hrej. unfold whisper_wrapper_transcribe_with_lang.
  rewrite (bind_Ok _ _ _ _ _ (load_wrapper_at _ _ _ _ (proj1 Hh))). simpl.
  destruct (release_result_run w wp c rb Hwf Hh) as (w1 & Hrel & Hinv & Hg1 & Hfs1 & He1).
  rewrite (bind_Ok _ _ _ _ _ Hrel).
  pose proof (release_result_trace _ _ _ _ Hrel) as Ht1.
  pose proof Hinv as [(_ & Hwf1 & _) _].
  destruct (read_wav_file_total fo path wav_out0 w1 Hwf1) as ([ok o] & w2 & Hdec & Hpost).
  destruct (read_wav_file_paths fo path wav_out0 w1 Hwf1)
    as (r2 & w2' & Hdec' & [k Hg2] & Hpath).
  rewrite Hdec in Hdec'. injection Hdec' as <- <-.
  destruct Hpost as (Hfs2 & He2 & _ & Hbrk2 & Hheap). simpl in Hheap, Hpath.
  rewrite Hfs1 in Hpath.
  assert (ok = false ∧ ∃ t2, trace w2 = trace w1 ++ t2
                             ∧ forallb (λ e, negb (engine_event e)) t2 = true)
    as (-> & t2 & Ht2 & Hq2).
  { destruct (fs w path) as [bytes|] eqn:Hfs.
    - destruct Hpath as [(mid & Ht & Hmid) Hres]. split.
      + destruct ok; [|done]. exfalso.
        destruct Hres as (rate & C & bits & ds & out & Hp).
        destruct Hp as (? & ? & ? & ? & ? & ? & ? & ? & ? & ? & ? & _).
        by eapply (Hrej bytes rate C bits ds).
      + eexists. split; [exact Ht|]. simpl.
        rewrite forallb_app, (decoder_events_quiet _ Hmid). done.
    - destruct Hpath as [[= -> _] Ht]. split; [done|]. eexists. split; [exact Ht|done]. }
  unfold wav_out0 in Hdec. rewrite (bind_Ok _ _ _ _ _ Hdec). simpl.
  assert (inv w wp c rb None w2) as Hinv2.
  { eapply inv_quiet; [done|done|done|eauto]. }
  destruct (return_copy_result w wp c rb w2 msg_load Hinv2)
    as (a & w' & Hrun & Htext & Hres & Hnew).
  { rewrite Hg2, Hg1. unfold granted. apply forallb_forall. intros x Hx.
    apply list_elem_of_In in Hx. apply list.elem_of_take in Hx as (i & Hx & _).
    rewrite lookup_drop in Hx.
    by rewrite <- (Forall_lookup_1 _ _ _ _ Hgr Hx). }
  destruct (return_copy_effects _ _ _ _ _ Hrun) as (He' & p & Ht').
  exists a, w', (match rb with Some b => [EvFree b] | None => [] end
                 ++ t2 ++ [EvStrdup msg_load p]).
  split; [done|]. split_and!; try done.
  - congruence.
  - by rewrite Ht', Ht2, Ht1, <- !app_assoc.
  - rewrite !forallb_app, Hq2. by destruct rb.
Qed.

(** X18. The events of a completed transcription call.  A PCM call frees
    the earlier result, runs [whisper_full] once, on the handle's context,
    with the caller's sample count and the parameters of [setup_params]
    made single-segment and context-free; all that follows are segment
    queries on that context and calls of the allocator.  A file call frees
    the earlier result and decodes the file without touching the engine;
    it then either copies the load-error sentinel, or runs [whisper_full]
    once with the parameters of [setup_params] (the engine's defaults for
    single-segment and context), frees the decoded samples at once and
    goes on as a PCM call.  The engine is never initialised nor released by
    a transcription. *)
Theorem X18_engine_call_discipline w wp c rb lang :
  heap_wf w → loaded_handle w wp c rb →
  (∀ pcm n r w',
     0 < n →
     whisper_wrapper_transcribe_pcm_with_lang eng (Some wp) (Some pcm) n lang w = Ok r w' →
     ∃ st t,
       trace w' = trace w ++ match rb with Some b => [EvFree b] | None => [] end
                  ++ EvWhisperFull c
                       (set_streaming
                          (setup_params
                             (whisper_full_default_params eng WHISPER_SAMPLING_GREEDY) lang))
                       n st :: t
       ∧ forallb (collect_event c) t = true)
  ∧ (∀ path r w',
       whisper_wrapper_transcribe_with_lang fo eng (Some wp) (Some path) lang w = Ok r w' →
       ∃ dec tail,
         trace w' = trace w ++ match rb with Some b => [EvFree b] | None => [] end
                    ++ dec ++ tail
         ∧ forallb (λ e, negb (engine_event e)) dec = true
         ∧ ((∃ p, tail = [EvStrdup "Error: Failed to load audio file" p])
            ∨ ∃ n st a t,
                tail = EvWhisperFull c
                         (setup_params
                            (whisper_full_default_params eng WHISPER_SAMPLING_GREEDY) lang)
                         n st :: EvFree a :: t
                ∧ forallb (collect_event c) t = true)).
Proof.
  intros Hwf Hh. split.
  - intros pcm n r w' Hn Hrun. unfold whisper_wrapper_transcribe_pcm_with_lang in Hrun.
    rewrite (bind_Ok _ _ _ _ _ (load_wrapper_at _ _ _ _ (proj1 Hh))) in Hrun. simpl in Hrun.
    destruct (Z.leb_spec n 0); [lia|].
    apply bind_Ok_inv in Hrun as ([] & w1 & Hrel & Hrun).
    apply release_result_trace in Hrel as Ht1.
    apply bind_Ok_inv in Hrun as (st & w2 & Hfull & Hrun).
    assert (trace w2 = trace w1 ++ [EvWhisperFull c
              (set_streaming
                 (setup_params (whisper_full_default_params eng WHISPER_SAMPLING_GREEDY) lang))
              n st]) as Ht2.
    { run_in Hfull. destruct (whisper_full _ _ _ _ _ _) as [st' e']. run_in Hfull.
      by injection Hfull as <- <-. }
    assert (∃ t, trace w' = trace w2 ++ t ∧ forallb (collect_event c) t = true)
      as (t & Ht & Hq).
    { destruct (negb (st =? 0)).
      - apply return_copy_effects in Hrun as (_ & p & Ht). by exists [EvStrdup msg_process p].
      - by eapply collect_segments_events. }
    exists st, t. split; [|done]. by rewrite Ht, Ht2, Ht1, <- !app_assoc.
  - intros path r w' Hrun. unfold whisper_wrapper_transcribe_with_lang in Hrun.
    rewrite (bind_Ok _ _ _ _ _ (load_wrapper_at _ _ _ _ (proj1 Hh))) in Hrun. simpl in Hrun.
    apply bind_Ok_inv in Hrun as ([] & w1 & Hrel & Hrun).
    apply release_result_trace in Hrel as Ht1.
    pose proof (release_result_inv _ _ _ _ _ Hwf Hh Hrel) as [(_ & Hwf1 & _) _].
    apply bind_Ok_inv in Hrun as ([ok o] & w2 & Hdec & Hrun).
    destruct (read_wav_file_paths fo path wav_out0 w1 Hwf1) as (r2 & w2' & Hdec' & _ & Hpath).
    unfold wav_out0 in Hdec'. rewrite Hdec in Hdec'. injection Hdec' as <- <-.
    assert (∃ dec, trace w2 = trace w1 ++ dec
                   ∧ forallb (λ e, negb (engine_event e)) dec = true) as (dec & Ht2 & Hq2).
    { destruct (fs w1 path).
      - destruct Hpath as [(mid & Ht & Hmid) _]. eexists. split; [exact Ht|]. simpl.
        by rewrite forallb_app, (decoder_events_quiet _ Hmid).
      - destruct Hpath as [_ Ht]. eexists. split; [exact Ht|done]. }
    destruct ok; simpl in Hrun.
    + apply bind_Ok_inv in Hrun as (pcm & w3 & Hld & Hrun).
      assert (w3 = w2) as ->.
      { run_in Hld. destruct (o_pcm o); [|done].
        destruct (heap w2 !! _) as [[]|]; try done. by injection Hld as <- <-. }
      apply bind_Ok_inv in Hrun as (st & w3 & Hfull & Hrun).
      assert (trace w3 = trace w2 ++ [EvWhisperFull c
                (setup_params (whisper_full_default_params eng WHISPER_SAMPLING_GREEDY) lang)
                (o_samples o) st]) as Ht3.
      { run_in Hfull. destruct (whisper_full _ _ _ _ _ _) as [st' e']. run_in Hfull.
        by injection Hfull as <- <-. }
      destruct (o_pcm o) as [a|]; [|done].
      assert (∃ w4, free a w3 = Ok () w4
                    ∧ (if negb (st =? 0) then return_copy wp msg_process
                       else collect_segments eng wp c) w4 = Ok r w')
        as (w4 & Hfree & Hrest).
      { destruct (negb (st =? 0)); apply bind_Ok_inv in Hrun as ([] & w4 & ? & ?); eauto. }
      assert (trace w4 = trace w3 ++ [EvFree a]) as Ht4.
      { run_in Hfree. destruct (heap w3 !! a); [|done]. by injection Hfree as <-. }
      assert (∃ t, trace w' = trace w4 ++ t ∧ forallb (collect_event c) t = true)
        as (t & Ht & Hq).
      { destruct (negb (st =? 0)).
        - apply return_copy_effects in Hrest as (_ & p & Ht).
          by exists [EvStrdup msg_process p].
        - by eapply collect_segments_events. }
      exists dec. eexists. split_and!; [|done|right; by eexists _, _, _, _].
      by rewrite Ht, Ht4, Ht3, Ht2, Ht1, <- !app_assoc.
    + apply return_copy_effects in Hrun as (_ & p & Ht).
      exists dec, [EvStrdup msg_load p]. split_and!; [|done|left; by eexists].
      by rewrite Ht, Ht2, Ht1, <- !app_assoc.
Qed.

End Traces.

(** * The further properties on sample worlds *)

Lemma string_repeat_length (c : ascii) (n : nat) :
  String.length (string_repeat c n) = n.
Proof. induction n as [|n IH]; simpl; congruence. Qed.

Lemma X1_create_outcome_witness :
  ∃ p w',
    whisper_wrapper_create (stub_engine Q) "model.bin" (@boot Q [] no_files 0 [])
    = Ok (Some p) w'
    ∧ whisper_wrapper_is_loaded (Some p) w' = Ok true w'.
Proof.
  destruct (X1_create_outcome (stub_engine Q) (@boot Q [] no_files 0 []) "model.bin"
              (boot_wf _ _ _ _)) as ([p|] & w' & Hrun & Hnone & _ & Hres).
  - destruct Hres as (c & _ & _ & _ & _ & _ & Hl). exists p, w'. split; [exact Hrun|exact Hl].
  - destruct (proj1 Hnone eq_refl) as [H|H]; vm_compute in H; discriminate H.
Defined.

Lemma X2_free_releases_witness :
  ∃ w',
    whisper_wrapper_free (stub_engine Q) (Some 1%positive) (@session Q [] no_files 0 [])
    = Ok tt w'
    ∧ heap w' = delete 1%positive (delete 2%positive (heap (@session Q [] no_files 0 [])))
    ∧ trace w' = [EvWhisperFree 1%positive; EvFree 2%positive; EvFree 1%positive].
Proof.
  destruct (X2_free_releases (stub_engine Q) (@session Q [] no_files 0 []) 1%positive
              (Some 1%positive) (Some 2%positive))
    as (w' & Hrun & Hh & _ & _ & _ & Ht).
  - reflexivity.
  - intros b Hb. injection Hb as <-. split; [discriminate|]. eexists. reflexivity.
  - exists w'. split; [exact Hrun|]. split; [exact Hh|exact Ht].
Defined.

Lemma X3_create_free_round_trip_witness :
  ∃ w',
    (wrapper ← whisper_wrapper_create (stub_engine Q) "model.bin";
     whisper_wrapper_free (stub_engine Q) wrapper) (@boot Q [] no_files 0 []) = Ok tt w'
    ∧ heap w' = ∅.
Proof.
  destruct (X3_create_free_round_trip (stub_engine Q) (@boot Q [] no_files 0 []) "model.bin"
              (boot_wf _ _ _ _)) as (w' & t & Hrun & Hh & _).
  exists w'. split; [exact Hrun|exact Hh].
Defined.

Lemma X4_transcribe_then_free_witness :
  ∃ r w' w'',
    whisper_wrapper_transcribe_pcm_with_lang (stub_engine Q) (Some 1%positive)
      (Some [(1 # 2)%Q]) 1 true (session [] no_files 0 ["Hello"]) = Ok r w'
    ∧ whisper_wrapper_free (stub_engine Q) (Some 1%positive) w' = Ok tt w''
    ∧ heap w'' !! 3%positive = None.
Proof.
  destruct (whisper_wrapper_transcribe_pcm_with_lang (stub_engine Q) (Some 1%positive)
              (Some [(1 # 2)%Q]) 1 true (session [] no_files 0 ["Hello"]))
    as [r w'|] eqn:Hrun; [|vm_compute in Hrun; discriminate].
  destruct (X4_transcribe_then_free exact_ops (stub_engine Q) _ 1%positive 1%positive
              (Some 2%positive) "" [(1 # 2)%Q] 1 true r w'
              (session_wf _ _ _ _) (session_loaded _ _ _ _)
              (or_intror (conj eq_refl Hrun))) as (w'' & Hfree & Hh).
  exists r, w', w''. split; [reflexivity|]. split; [exact Hfree|].
  rewrite Hh. reflexivity.
Defined.

Lemma X5_read_wav_file_safe_witness :
  ∃ ok o' w',
    read_wav_file exact_ops "a.wav" wav_out0
      (@boot Q [true; false] (one_file "a.wav" wav16_mono) 0 []) = Ok (ok, o') w'
    ∧ heap_wf w'
    ∧ (ok = false → heap w' = ∅).
Proof.
  destruct (X5_read_wav_file_safe exact_ops "a.wav" wav_out0
              (@boot Q [true; false] (one_file "a.wav" wav16_mono) 0 []) (boot_wf _ _ _ _))
    as (ok & o' & w' & Hrun & Hwf & _ & _ & Hres).
  exists ok, o', w'. split; [exact Hrun|]. split; [exact Hwf|].
  intros ->. exact (proj1 Hres).
Defined.

Lemma X6_read_wav_file_closes_witness :
  ∃ r w' mid,
    read_wav_file exact_ops "a.wav" wav_out0
      (@boot Q [] (one_file "a.wav" wav12) 0 []) = Ok r w'
    ∧ trace w' = EvFopen "a.wav" true :: mid ++ [EvFclose].
Proof.
  destruct (X6_read_wav_file_closes exact_ops "a.wav" wav_out0
              (@boot Q [] (one_file "a.wav" wav12) 0 []) (boot_wf _ _ _ _))
    as (r & w' & t & Hrun & Ht & Hm).
  change (fs (@boot Q [] (one_file "a.wav" wav12) 0 []) "a.wav") with (Some wav12) in Hm.
  destruct Hm as (mid & -> & _).
  exists r, w', mid. split; [exact Hrun|exact Ht].
Defined.

Lemma X7_read_wav_file_accepts_witness :
  ∃ o' w',
    read_wav_file exact_ops "a.wav" wav_out0
      (@boot Q [] (one_file "a.wav" wav16_stereo) 0 []) = Ok (true, o') w'.
Proof.
  destruct (X7_read_wav_file_accepts exact_ops "a.wav" wav_out0
              (@boot Q [] (one_file "a.wav" wav16_stereo) 0 []) (boot_wf _ _ _ _))
    as (ok & o' & w' & Hrun & _ & Hacc).
  exists o', w'. rewrite Hrun.
  rewrite (Hacc eq_refl wav16_stereo 16000 2 16 8);
    [reflexivity|reflexivity|reflexivity|reflexivity|reflexivity|reflexivity|reflexivity
    |reflexivity|lia|lia| |reflexivity|vm_compute; discriminate].
  rewrite !elem_of_cons. auto.
Defined.

Lemma X8_integer_pcm_normalized_witness :
  ∃ o' w' a out,
    read_wav_file binary32_ops "a.wav" wav_out0
      (@boot spec_float [] (one_file "a.wav" wav24_mono) 0 []) = Ok (true, o') w'
    ∧ heap w' !! a = Some (BFloats out)
    ∧ Forall (λ x, ∃ q, b32_real x = Some q ∧ (-1 <= q <= 1)%Q) out.
Proof.
  destruct (read_wav_file binary32_ops "a.wav" wav_out0
              (@boot spec_float [] (one_file "a.wav" wav24_mono) 0 []))
    as [[[] o'] w'|] eqn:Hrun; [|vm_compute in Hrun; discriminate..].
  destruct (X8_integer_pcm_normalized (@boot spec_float [] (one_file "a.wav" wav24_mono) 0 [])
              "a.wav" wav_out0 o' w' wav24_mono 24 (boot_wf _ _ _ _))
    as (a & out & _ & Hh & _ & Hall); [reflexivity|reflexivity|discriminate|exact Hrun|].
  exists o', w', a, out. split; [reflexivity|]. split; [exact Hh|exact Hall].
Defined.

Lemma X9_wav8_samples_witness :
  ∃ w' a out,
    read_wav_file binary32_ops "a.wav" wav_out0
      (@boot spec_float [] (one_file "a.wav" wav8_mono) 0 [])
    = Ok (true, {| o_pcm := Some a; o_samples := 2; o_rate := 8000 |}) w'
    ∧ heap w' !! a = Some (BFloats out)
    ∧ Z.of_nat (length out) = 2.
Proof.
  destruct (X9_wav8_samples binary32_ops
              (@boot spec_float [] (one_file "a.wav" wav8_mono) 0 [])
              "a.wav" wav8_mono wav_out0 2 1 8000)
    as (w' & a & out & Hrun & Hh & Hlen & _);
    [reflexivity|reflexivity|reflexivity|reflexivity|reflexivity|reflexivity|reflexivity
    |lia|lia|vm_compute; discriminate|apply boot_wf|reflexivity|].
  exists w', a, out. split; [exact Hrun|]. split; [exact Hh|exact Hlen].
Defined.


Lemma X11_short_segments_joined_witness :
  returned_text
    (whisper_wrapper_transcribe_pcm_with_lang (stub_engine Q) (Some 1%positive)
       (Some [(1 # 2)%Q]) 1 true (session [] no_files 0 ["Hello"; "world"]))
  = Some "Hello world".
Proof.
  apply (proj1 (X11_short_segments_joined exact_ops (stub_engine Q)
                  (session [] no_files 0 ["Hello"; "world"]) 1%positive 1%positive
                  (Some 2%positive) true ["Hello"; "world"]
                  (session_wf _ _ _ _) (session_loaded _ _ _ _) (Forall_nil_2 _)
                  ltac:(discriminate)
                  ltac:(repeat constructor)
                  ltac:(vm_compute; discriminate))
           [(1 # 2)%Q] 1
           {| stub_status := 0; stub_script := ["Hello"; "world"];
              stub_segments := ["Hello"; "world"] |}).
  - lia.
  - reflexivity.
  - reflexivity.
  - intros [|[|i]] s Hs; [injection Hs as <-; reflexivity..|discriminate Hs].
Defined.

Lemma X12_long_first_segment_overflows_witness :
  whisper_wrapper_transcribe_pcm_with_lang (stub_engine Q) (Some 1%positive)
    (Some [(1 # 2)%Q]) 1 true
    (session [] no_files 0 [string_repeat "a" (Z.to_nat 40000); "tail"])
  = Undef OutOfBounds.
Proof.
  apply (proj1 (X12_long_first_segment_overflows exact_ops (stub_engine Q)
                  (session [] no_files 0 [string_repeat "a" (Z.to_nat 40000); "tail"])
                  1%positive 1%positive (Some 2%positive) true
                  (session_wf _ _ _ _) (session_loaded _ _ _ _))
           [(1 # 2)%Q] 1
           {| stub_status := 0;
              stub_script := [string_repeat "a" (Z.to_nat 40000); "tail"];
              stub_segments := [string_repeat "a" (Z.to_nat 40000); "tail"] |}).
  - lia.
  - reflexivity.
  - reflexivity.
  - change (whisper_full_get_segment_text (stub_engine Q) 1%positive 0 _)
      with (string_repeat "a" (Z.to_nat 40000)).
    rewrite string_repeat_length, Z2Nat.id by lia. unfold INT_MAX. lia.
  - reflexivity.
Defined.

Lemma X13_sentinel_copy_refused_witness :
  ∃ w',
    whisper_wrapper_transcribe_pcm_with_lang (stub_engine Q) (Some 1%positive)
      (Some [(1 # 2)%Q]) 1 true (session [false] no_files 1 []) = Ok CNull w'
    ∧ handle_result w' (Some 1%positive) = None
    ∧ heap w' !! 2%positive = None.
Proof.
  destruct (proj1 (X13_sentinel_copy_refused exact_ops (stub_engine Q)
                     (session [false] no_files 1 []) 1%positive 1%positive
                     (Some 2%positive) true
                     (session_wf _ _ _ _) (session_loaded _ _ _ _))
              [(1 # 2)%Q] 1 1
              {| stub_status := 1; stub_script := []; stub_segments := [] |} [])
    as (w' & Hrun & Hres & _ & Hold);
    [lia|reflexivity|left; discriminate|reflexivity|].
  exists w'. split; [exact Hrun|]. split; [exact Hres|exact (Hold 2%positive eq_refl)].
Defined.

Lemma X14_result_buffer_refused_witness :
  ∃ w',
    whisper_wrapper_transcribe_pcm_with_lang (stub_engine Q) (Some 1%positive)
      (Some [(1 # 2)%Q]) 1 true (session [false] no_files 0 ["Hello"])
    = Ok (CLit "Error: Failed to allocate memory for transcription") w'
    ∧ handle_result w' (Some 1%positive) = None.
Proof.
  destruct (proj1 (X14_result_buffer_refused exact_ops (stub_engine Q)
                     (session [false] no_files 0 ["Hello"]) 1%positive 1%positive
                     (Some 2%positive) true
                     (session_wf _ _ _ _) (session_loaded _ _ _ _))
              [(1 # 2)%Q] 1
              {| stub_status := 0; stub_script := ["Hello"]; stub_segments := ["Hello"] |} [])
    as (w' & Hrun & Hres & _);
    [lia|reflexivity|reflexivity|reflexivity|].
  exists w'. split; [exact Hrun|exact Hres].
Defined.

Lemma X15_transcribe_pcm_defined_witness :
  ∃ r w',
    whisper_wrapper_transcribe_pcm_with_lang (stub_engine Q) (Some 1%positive)
      (Some [(1 # 2)%Q]) 1 true (session [true; false; false] no_files 0 ["Hello"; "world"])
    = Ok r w'
    ∧ (r = CNull ∨ is_Some (text_at w' r)).
Proof.
  destruct (X15_transcribe_pcm_defined (stub_engine Q)
              (session [true; false; false] no_files 0 ["Hello"; "world"])
              1%positive 1%positive (Some 2%positive) [(1 # 2)%Q] 1 true 0
              {| stub_status := 0; stub_script := ["Hello"; "world"];
                 stub_segments := ["Hello"; "world"] |} ["Hello"; "world"]
              (session_wf _ _ _ _) (session_loaded _ _ _ _))
    as (r & w' & Hrun & Hres); [lia|reflexivity| |].
  - intros _. split; [reflexivity|]. split.
    + intros [|[|i]] s Hs; [injection Hs as <-; reflexivity..|discriminate Hs].
    + split; [repeat constructor|vm_compute; discriminate].
  - exists r, w'. split; [exact Hrun|].
    destruct Hres as [Hr|[Hr|(_ & _ & Hr)]]; [left; exact Hr|right; rewrite Hr; eexists; reflexivity..].
Defined.


Lemma X17_rejected_file_not_transcribed_witness :
  ∃ a w',
    whisper_wrapper_transcribe_with_lang exact_ops (stub_engine Q) (Some 1%positive)
      (Some "a.wav") true (session [] (one_file "a.wav" wav12) 0 ["Hello"])
    = Ok (CHeap a) w'
    ∧ text_at w' (CHeap a) = Some "Error: Failed to load audio file"
    ∧ engine_state w' = engine_state (@session Q [] (one_file "a.wav" wav12) 0 ["Hello"]).
Proof.
  destruct (X17_rejected_file_not_transcribed exact_ops (stub_engine Q)
              (session [] (one_file "a.wav" wav12) 0 ["Hello"])
              1%positive 1%positive (Some 2%positive) "a.wav" true
              (session_wf _ _ _ _) (session_loaded _ _ _ _) (Forall_nil_2 _))
    as (a & w' & t & Hrun & Ht & _ & _ & He & _).
  - intros bytes rate C bits ds Hfs _ _ _ _ Hbits _ _ _ Hb _ _.
    change (Some wav12 = Some bytes) in Hfs. injection Hfs as <-.
    change (Some 12 = Some bits) in Hbits. injection Hbits as <-.
    repeat (apply elem_of_cons in Hb as [Hb|Hb]; [discriminate Hb|]).
    by apply elem_of_nil in Hb.
  - exists a, w'. split; [exact Hrun|]. split; [exact Ht|exact He].
Defined.

Lemma X18_engine_call_discipline_witness :
  ∃ r w' st t,
    whisper_wrapper_transcribe_pcm_with_lang (stub_engine Q) (Some 1%positive)
      (Some [(1 # 2)%Q]) 1 true (session [] no_files 0 ["Hello"; "world"]) = Ok r w'
    ∧ trace w'
      = EvFree 2%positive
        :: EvWhisperFull 1%positive
             (set_streaming (setup_params (stub_params WHISPER_SAMPLING_GREEDY) true)) 1 st
        :: t
    ∧ forallb (collect_event 1%positive) t = true.
Proof.
  destruct (whisper_wrapper_transcribe_pcm_with_lang (stub_engine Q) (Some 1%positive)
              (Some [(1 # 2)%Q]) 1 true (session [] no_files 0 ["Hello"; "world"]))
    as [r w'|] eqn:Hrun; [|vm_compute in Hrun; discriminate].
  destruct (proj1 (X18_engine_call_discipline exact_ops (stub_engine Q) _ 1%positive
                     1%positive (Some 2%positive) true
                     (session_wf _ _ _ _) (session_loaded _ _ _ _))
              [(1 # 2)%Q] 1 r w' eq_refl Hrun) as (st & t & Ht & Hq).
  exists r, w', st, t. split; [reflexivity|]. split; [exact Ht|exact Hq].
Defined.

(** The 32-bit word 00 00 00 40 is the float 2.0 and comes out as 2: the
    samples of a 32-bit file are not confined to [-1, 1). *)
Example wav32_unscaled :
  decoded (read_wav_file binary32_ops "a.wav" wav_out0
             (@boot spec_float [] (one_file "a.wav" wav32_mono) 0 []))
  = Some [S754_finite false 8388608 (-22)].
Proof. vm_compute. reflexivity. Qed.

(** A 32-bit frame that holds an infinity mixes down to an infinity: the
    decoder hands on what the file holds. *)
Example wav32_infinity_kept :
  decoded (read_wav_file binary32_ops "a.wav" wav_out0
             (@boot spec_float [] (one_file "a.wav" wav32_infinity) 0 []))
  = Some [S754_infinity false].
Proof. vm_compute. reflexivity. Qed.

(** The bytes 80 and ff of an 8-bit file: 0 and 127/128. *)
Example wav8_mono_exact :
  decoded (read_wav_file exact_ops "a.wav" wav_out0
             (@boot Q [] (one_file "a.wav" wav8_mono) 0 []))
  = Some [(0 # 128)%Q; (127 # 128)%Q].
Proof. vm_compute. reflexivity. Qed.
